(** * Verification of the prefix-row codecs and of the claim-extension merge

    Shallow embedding of
      - [scribe/db/prefixes.py]: the row codecs (key and value layouts,
        partial-key builders) of the prefix-keyed store;
      - [hub/schema/attrs.py]: the fee projection and the structured
        merge of extension values used by repost modifications.

    Python values are embedded as follows.  A [bytes] object is a list of
    octets (integers in [0, 256)); a [str] is the list of its Unicode code
    points; a raised exception is [None] in the codec part and a named
    exception in the claim-model part, where the state a call leaves behind
    matters. *)

From stdpp Require Import gmap strings list fin_maps sorting.
From Stdlib Require Import ZArith Lia.

Open Scope Z_scope.

(** ** Python built-ins used by the codecs *)

Module Py.

Definition bytes := list Z.
Definition str := list Z.

(** Arguments handed to packers and partial-key builders. *)
Inductive pyval : Type :=
| PyInt (z : Z)
| PyBytes (b : bytes)
| PyStr (s : str).

(** Big-endian digits of [v] on [n] octets. *)
Fixpoint be_bytes (n : nat) (v : Z) : bytes :=
  match n with
  | O => []
  | S n' => Z.land (Z.shiftr v (8 * Z.of_nat n')) 255 :: be_bytes n' v
  end.

(** [int.to_bytes(n, byteorder='big')]; OverflowError outside the range. *)
Definition to_bytes (n : nat) (v : Z) : option bytes :=
  if (0 <=? v) && (v <? 256 ^ Z.of_nat n) then Some (be_bytes n v) else None.

(** [int.from_bytes(b, byteorder='big')]. *)
Definition from_bytes (b : bytes) : Z :=
  fold_left (fun acc x => acc * 256 + x) b 0.

(** Slices [b[i:j]] for [0 <= i]. *)
Definition slice (b : bytes) (i j : nat) : bytes := take (j - i) (drop i b).

(** Comparison [a < b] of two bytes objects. *)
Fixpoint bytes_lt (a b : bytes) : bool :=
  match a, b with
  | _, [] => false
  | [], _ :: _ => true
  | x :: a', y :: b' => (x <? y) || ((x =? y) && bytes_lt a' b')
  end.

(** *** UTF-8 *)

Definition cont (c : Z) (shift : Z) : Z :=
  Z.lor 128 (Z.land (Z.shiftr c shift) 63).

Definition utf8_encode_char (c : Z) : option bytes :=
  if c <? 0 then None
  else if c <? 128 then Some [c]
  else if c <? 2048 then Some [Z.lor 192 (Z.shiftr c 6); cont c 0]
  else if c <? 65536 then
    if (55296 <=? c) && (c <=? 57343) then None
    else Some [Z.lor 224 (Z.shiftr c 12); cont c 6; cont c 0]
  else if c <? 1114112 then
    Some [Z.lor 240 (Z.shiftr c 18); cont c 12; cont c 6; cont c 0]
  else None.

(** [s.encode('utf-8')]; UnicodeEncodeError on a lone surrogate. *)
Fixpoint utf8_encode (s : str) : option bytes :=
  match s with
  | [] => Some []
  | c :: s' =>
      match utf8_encode_char c, utf8_encode s' with
      | Some x, Some r => Some (x ++ r)
      | _, _ => None
      end
  end.

Definition is_cont (b : Z) : bool := (128 <=? b) && (b <=? 191).

Definition payload (b : Z) : Z := Z.land b 63.

Definition checked (lo : Z) (c : Z) : option Z :=
  if (lo <=? c) && (c <? 1114112) && negb ((55296 <=? c) && (c <=? 57343))
  then Some c else None.

(** [b.decode()] (strict UTF-8); UnicodeDecodeError on overlong forms,
    surrogates, stray continuation octets and truncated sequences. *)
Fixpoint utf8_decode (b : bytes) : option str :=
  match b with
  | [] => Some []
  | b0 :: r0 =>
      if (0 <=? b0) && (b0 <? 128) then cons b0 <$> utf8_decode r0
      else if (192 <=? b0) && (b0 <? 224) then
        match r0 with
        | b1 :: r1 =>
            if is_cont b1 then
              match checked 128 (Z.lor (Z.shiftl (Z.land b0 31) 6) (payload b1)) with
              | Some c => cons c <$> utf8_decode r1
              | None => None
              end
            else None
        | _ => None
        end
      else if (224 <=? b0) && (b0 <? 240) then
        match r0 with
        | b1 :: b2 :: r2 =>
            if is_cont b1 && is_cont b2 then
              match checked 2048
                      (Z.lor (Z.shiftl (Z.land b0 15) 12)
                         (Z.lor (Z.shiftl (payload b1) 6) (payload b2))) with
              | Some c => cons c <$> utf8_decode r2
              | None => None
              end
            else None
        | _ => None
        end
      else if (240 <=? b0) && (b0 <? 248) then
        match r0 with
        | b1 :: b2 :: b3 :: r3 =>
            if is_cont b1 && is_cont b2 && is_cont b3 then
              match checked 65536
                      (Z.lor (Z.shiftl (Z.land b0 7) 18)
                         (Z.lor (Z.shiftl (payload b1) 12)
                            (Z.lor (Z.shiftl (payload b2) 6) (payload b3)))) with
              | Some c => cons c <$> utf8_decode r3
              | None => None
              end
            else None
        | _ => None
        end
      else None
  end.

(** *** The [struct] module, big-endian standard sizes *)

Inductive fmt : Type :=
| fmt_s (n : nat)   (* 'ns': char[n] *)
| fmt_B             (* unsigned char *)
| fmt_H             (* unsigned short *)
| fmt_L             (* unsigned long, 4 octets *)
| fmt_Q             (* unsigned long long *)
| fmt_l.            (* signed long, 4 octets *)

Definition fmt_size (c : fmt) : nat :=
  match c with
  | fmt_s n => n
  | fmt_B => 1
  | fmt_H => 2
  | fmt_L => 4
  | fmt_Q => 8
  | fmt_l => 4
  end.

Definition calcsize (f : list fmt) : nat := sum_list (fmt_size <$> f).

Definition pack_uint (n : nat) (a : pyval) : option bytes :=
  match a with
  | PyInt z => to_bytes n z
  | _ => None
  end.

(** One item of [Struct.pack]; [None] is [struct.error]. *)
Definition pack_one (c : fmt) (a : pyval) : option bytes :=
  match c with
  | fmt_s n =>
      match a with
      | PyBytes b => Some (take n b ++ replicate (n - length b) 0)
      | _ => None
      end
  | fmt_B => pack_uint 1 a
  | fmt_H => pack_uint 2 a
  | fmt_L => pack_uint 4 a
  | fmt_Q => pack_uint 8 a
  | fmt_l =>
      match a with
      | PyInt z =>
          if (- 2147483648 <=? z) && (z <=? 2147483647)
          then Some (be_bytes 4 (z mod 4294967296)) else None
      | _ => None
      end
  end.

(** [struct.Struct(f).pack] applied to the argument tuple. *)
Fixpoint struct_pack (f : list fmt) (args : list pyval) : option bytes :=
  match f, args with
  | [], [] => Some []
  | c :: f', a :: args' =>
      match pack_one c a, struct_pack f' args' with
      | Some x, Some r => Some (x ++ r)
      | _, _ => None
      end
  | _, _ => None
  end.

Definition unpack_one (c : fmt) (b : bytes) : pyval :=
  match c with
  | fmt_s _ => PyBytes b
  | fmt_l =>
      let v := from_bytes b in
      PyInt (if v <? 2147483648 then v else v - 4294967296)
  | _ => PyInt (from_bytes b)
  end.

Fixpoint unpack_fields (f : list fmt) (data : bytes) : list pyval :=
  match f with
  | [] => []
  | c :: f' =>
      unpack_one c (take (fmt_size c) data)
        :: unpack_fields f' (drop (fmt_size c) data)
  end.

(** [struct.Struct(f).unpack(data)]; [struct.error] unless [data] has
    exactly the size of the layout. *)
Definition struct_unpack (f : list fmt) (data : bytes) : option (list pyval) :=
  if decide (length data = calcsize f) then Some (unpack_fields f data) else None.

End Py.

(** ** The row catalog of [scribe/db/prefixes.py] *)

Module Prefixes.
Import Py.

Definition length_encoded_name (name : str) : option bytes :=
  match utf8_encode name with
  | Some encoded =>
      match to_bytes 2 (Z.of_nat (length encoded)) with
      | Some l => Some (l ++ encoded)
      | None => None
      end
  | None => None
  end.

Definition length_prefix (key : str) : option bytes :=
  match to_bytes 1 (Z.of_nat (length key)), utf8_encode key with
  | Some l, Some encoded => Some (l ++ encoded)
  | _, _ => None
  end.

(** A partial-key builder receives the leading key components. *)
Definition builder := list pyval -> option bytes.

(** [lambda: b''] *)
Definition empty_builder : builder :=
  fun args => match args with [] => Some [] | _ => None end.

(** [length_encoded_name] used as a builder. *)
Definition name_builder : builder :=
  fun args => match args with [PyStr name] => length_encoded_name name | _ => None end.

(** The base class of all rows. *)
Module PrefixRow.
Section PrefixRow.
Variable prefix : bytes.
Variables key_struct value_struct : list fmt.
Variable key_part_lambdas : list builder.

(** Modelled from the spec: [PrefixRow.pack_partial_key] of
    [scribe/db/interface.py] is not part of the sources at hand; the
    row contract says [key_part(i, args)] builds the partial key of
    level [i], the level being the number of components given, and
    every key starts with the row's prefix tag. *)
Definition pack_partial_key (args : list pyval) : option bytes :=
  match key_part_lambdas !! length args with
  | Some b => app prefix <$> b args
  | None => None
  end.

(** Modelled from the spec: [PrefixRow.pack_key], the prefix tag
    followed by the key layout. *)
Definition pack_key (args : list pyval) : option bytes :=
  app prefix <$> struct_pack key_struct args.

(** Modelled from the spec: [PrefixRow.pack_value], the shared packing
    over the row's fixed value layout. *)
Definition pack_value (args : list pyval) : option bytes :=
  struct_pack value_struct args.

(** Modelled from the spec: [PrefixRow.unpack_value], the inverse over the
    same layout; data of another length is rejected. *)
Definition unpack_value (data : bytes) : option (list pyval) :=
  struct_unpack value_struct data.
End PrefixRow.
End PrefixRow.

(** *** claim_to_txo *)

Record ClaimToTXOValue : Type := {
  ctv_tx_num : Z;
  ctv_position : Z;
  ctv_root_tx_num : Z;
  ctv_root_position : Z;
  ctv_amount : Z;
  ctv_channel_signature_is_valid : bool;
  ctv_name : str
}.

Module ClaimToTXOPrefixRow.
Definition value_struct : list fmt := [fmt_L; fmt_H; fmt_L; fmt_H; fmt_Q; fmt_B].

Definition unpack_value (data : bytes) : option ClaimToTXOValue :=
  match struct_unpack value_struct (slice data 0 21) with
  | Some [PyInt tx_num; PyInt position; PyInt root_tx_num; PyInt root_position;
          PyInt amount; PyInt channel_signature_is_valid] =>
      let name_len := Z.to_nat (from_bytes (slice data 21 23)) in
      match utf8_decode (slice data 23 (23 + name_len)) with
      | Some name =>
          Some {| ctv_tx_num := tx_num; ctv_position := position;
                  ctv_root_tx_num := root_tx_num;
                  ctv_root_position := root_position;
                  ctv_amount := amount;
                  ctv_channel_signature_is_valid :=
                    negb (channel_signature_is_valid =? 0);
                  ctv_name := name |}
      | None => None
      end
  | _ => None
  end.

Definition pack_value (tx_num position root_tx_num root_position amount : Z)
    (channel_signature_is_valid : bool) (name : str) : option bytes :=
  match struct_pack value_struct
          [PyInt tx_num; PyInt position; PyInt root_tx_num; PyInt root_position;
           PyInt amount; PyInt (if channel_signature_is_valid then 1 else 0)],
        length_encoded_name name with
  | Some v, Some n => Some (v ++ n)
  | _, _ => None
  end.
End ClaimToTXOPrefixRow.

(** *** claim_short_id and channel_to_claim helpers *)

Definition shortid_key_helper (struct_fmt : list fmt) : builder :=
  fun args =>
    match args with
    | PyStr name :: args =>
        match length_encoded_name name, struct_pack struct_fmt args with
        | Some n, Some p => Some (n ++ p)
        | _, _ => None
        end
    | _ => None
    end.

Definition channel_to_claim_helper (struct_fmt : list fmt) : builder :=
  fun args =>
    match args with
    | PyBytes signing_hash :: PyStr name :: args =>
        match length_encoded_name name, struct_pack struct_fmt args with
        | Some n, Some p => Some (signing_hash ++ n ++ p)
        | _, _ => None
        end
    | _ => None
    end.

Record ChannelToClaimKey : Type := {
  ctk_signing_hash : bytes;
  ctk_name : str;
  ctk_tx_num : Z;
  ctk_position : Z
}.

Module ChannelToClaimPrefixRow.
Section Row.
Variable prefix : bytes.

Definition key_struct : list fmt := [fmt_L; fmt_H].

Definition key_part_lambdas : list builder := [
  empty_builder;
  struct_pack [fmt_s 20];
  channel_to_claim_helper [];
  channel_to_claim_helper [fmt_s 1];
  channel_to_claim_helper [fmt_L];
  channel_to_claim_helper [fmt_L; fmt_H]
].

Definition pack_key (signing_hash : bytes) (name : str) (tx_num position : Z)
    : option bytes :=
  match length_encoded_name name,
        struct_pack key_struct [PyInt tx_num; PyInt position] with
  | Some n, Some p => Some (prefix ++ signing_hash ++ n ++ p)
  | _, _ => None
  end.

Definition pack_partial_key : list pyval -> option bytes :=
  PrefixRow.pack_partial_key prefix key_part_lambdas.

Definition unpack_key (key : bytes) : option ChannelToClaimKey :=
  if decide (take 1 key = prefix) then
    let signing_hash := slice key 1 21 in
    let name_len := Z.to_nat (from_bytes (slice key 21 23)) in
    match utf8_decode (slice key 23 (23 + name_len)),
          struct_unpack key_struct (drop (23 + name_len) key) with
    | Some name, Some [PyInt tx_num; PyInt position] =>
        Some {| ctk_signing_hash := signing_hash; ctk_name := name;
                ctk_tx_num := tx_num; ctk_position := position |}
    | _, _ => None
    end
  else None.
End Row.
End ChannelToClaimPrefixRow.

(** *** effective_amount *)

Definition effective_amount_helper (struct_fmt : list fmt) : builder :=
  fun args =>
    match args with
    | [PyStr name] => length_encoded_name name
    | PyStr name :: PyInt a :: args =>
        match length_encoded_name name,
              struct_pack struct_fmt (PyInt (18446744073709551615 - a) :: args) with
        | Some n, Some p => Some (n ++ p)
        | _, _ => None
        end
    | _ => None
    end.

Record EffectiveAmountKey : Type := {
  eak_normalized_name : str;
  eak_effective_amount : Z;
  eak_tx_num : Z;
  eak_position : Z
}.

Module EffectiveAmountPrefixRow.
Section Row.
Variable prefix : bytes.

Definition key_struct : list fmt := [fmt_Q; fmt_L; fmt_H].

Definition key_part_lambdas : list builder := [
  empty_builder;
  name_builder;
  shortid_key_helper [fmt_Q];
  shortid_key_helper [fmt_Q; fmt_L];
  shortid_key_helper [fmt_Q; fmt_L; fmt_H]
].

Definition pack_key (name : str) (effective_amount tx_num position : Z)
    : option bytes :=
  match length_encoded_name name,
        struct_pack key_struct
          [PyInt (18446744073709551615 - effective_amount);
           PyInt tx_num; PyInt position] with
  | Some n, Some p => Some (prefix ++ n ++ p)
  | _, _ => None
  end.

Definition unpack_key (key : bytes) : option EffectiveAmountKey :=
  if decide (take 1 key = prefix) then
    let name_len := Z.to_nat (from_bytes (slice key 1 3)) in
    match utf8_decode (slice key 3 (3 + name_len)),
          struct_unpack key_struct (drop (3 + name_len) key) with
    | Some name, Some [PyInt ones_comp_effective_amount; PyInt tx_num; PyInt position] =>
        Some {| eak_normalized_name := name;
                eak_effective_amount :=
                  18446744073709551615 - ones_comp_effective_amount;
                eak_tx_num := tx_num; eak_position := position |}
    | _, _ => None
    end
  else None.

Definition pack_partial_key : list pyval -> option bytes :=
  PrefixRow.pack_partial_key prefix key_part_lambdas.
End Row.
End EffectiveAmountPrefixRow.

(** *** db_state *)

Record DBState : Type := {
  genesis : bytes;
  height : Z;
  tx_count : Z;
  tip : bytes;
  utxo_flush_count : Z;
  wall_time : Z;
  catching_up : Z;
  db_version : Z;
  hist_flush_count : Z;
  comp_flush_count : Z;
  comp_cursor : Z;
  es_sync_height : Z
}.

Module DBStatePrefixRow.
Definition value_struct : list fmt :=
  [fmt_s 32; fmt_L; fmt_L; fmt_s 32; fmt_L; fmt_L; fmt_B; fmt_B;
   fmt_l; fmt_l; fmt_l; fmt_L].

Definition pack_value (genesis : bytes) (height tx_count : Z) (tip : bytes)
    (utxo_flush_count wall_time : Z) (catching_up : bool)
    (db_version hist_flush_count comp_flush_count comp_cursor es_sync_height : Z)
    : option bytes :=
  PrefixRow.pack_value value_struct
    [PyBytes genesis; PyInt height; PyInt tx_count; PyBytes tip;
     PyInt utxo_flush_count; PyInt wall_time;
     PyInt (if catching_up then 1 else 0); PyInt db_version;
     PyInt hist_flush_count; PyInt comp_flush_count; PyInt comp_cursor;
     PyInt es_sync_height].

Definition unpack_value (data : bytes) : option DBState :=
  let data :=
    if decide (length data = 94%nat) then data ++ slice data 32 36 else data in
  match PrefixRow.unpack_value value_struct data with
  | Some [PyBytes g; PyInt h; PyInt tc; PyBytes t; PyInt ufc; PyInt wt;
          PyInt cu; PyInt dv; PyInt hfc; PyInt cfc; PyInt cc; PyInt esh] =>
      Some {| genesis := g; height := h; tx_count := tc; tip := t;
              utxo_flush_count := ufc; wall_time := wt; catching_up := cu;
              db_version := dv; hist_flush_count := hfc;
              comp_flush_count := cfc; comp_cursor := cc;
              es_sync_height := esh |}
  | _ => None
  end.
End DBStatePrefixRow.

(** *** txo_to_claim and pending_activation: a claim hash and a name *)

Record TXOToClaimValue : Type := {
  ttc_claim_hash : bytes;
  ttc_name : str
}.

Module TXOToClaimPrefixRow.
Definition value_struct : list fmt := [fmt_s 20].

Definition unpack_value (data : bytes) : option TXOToClaimValue :=
  match struct_unpack value_struct (slice data 0 20) with
  | Some [PyBytes claim_hash] =>
      let name_len := Z.to_nat (from_bytes (slice data 20 22)) in
      match utf8_decode (slice data 22 (22 + name_len)) with
      | Some name => Some {| ttc_claim_hash := claim_hash; ttc_name := name |}
      | None => None
      end
  | _ => None
  end.

Definition pack_value (claim_hash : bytes) (name : str) : option bytes :=
  match struct_pack value_struct [PyBytes claim_hash], length_encoded_name name with
  | Some v, Some n => Some (v ++ n)
  | _, _ => None
  end.
End TXOToClaimPrefixRow.

Record PendingActivationValue : Type := {
  pav_claim_hash : bytes;
  pav_normalized_name : str
}.

Module PendingActivationPrefixRow.
Definition pack_value (claim_hash : bytes) (name : str) : option bytes :=
  match length_encoded_name name with
  | Some n => Some (claim_hash ++ n)
  | None => None
  end.

Definition unpack_value (data : bytes) : option PendingActivationValue :=
  let claim_hash := slice data 0 20 in
  let name_len := Z.to_nat (from_bytes (slice data 20 22)) in
  match utf8_decode (slice data 22 (22 + name_len)) with
  | Some name => Some {| pav_claim_hash := claim_hash; pav_normalized_name := name |}
  | None => None
  end.
End PendingActivationPrefixRow.

(** *** claim_short_id *)

(** The assertion on the length of the partial claim id fails with
    AssertionError. *)
Definition shortid_key_partial_claim_helper : builder :=
  fun args =>
    match args with
    | [PyStr name; PyStr partial_claim_id] =>
        if decide (length partial_claim_id < 40)%nat then
          match length_encoded_name name, length_prefix partial_claim_id with
          | Some n, Some p => Some (n ++ p)
          | _, _ => None
          end
        else None
    | _ => None
    end.

Record ClaimShortIDKey : Type := {
  csk_normalized_name : str;
  csk_partial_claim_id : str;
  csk_root_tx_num : Z;
  csk_root_position : Z
}.

Module ClaimShortIDPrefixRow.
Section Row.
Variable prefix : bytes.

Definition key_struct : list fmt := [fmt_L; fmt_H].

Definition key_part_lambdas : list builder := [
  empty_builder;
  name_builder;
  shortid_key_partial_claim_helper
].

Definition pack_key (name short_claim_id : str) (root_tx_num root_position : Z)
    : option bytes :=
  match length_encoded_name name, length_prefix short_claim_id,
        struct_pack key_struct [PyInt root_tx_num; PyInt root_position] with
  | Some n, Some s, Some p => Some (prefix ++ n ++ s ++ p)
  | _, _, _ => None
  end.

Definition unpack_key (key : bytes) : option ClaimShortIDKey :=
  if decide (take 1 key = prefix) then
    let name_len := Z.to_nat (from_bytes (slice key 1 3)) in
    match utf8_decode (slice key 3 (3 + name_len)) with
    | Some name =>
        let claim_id_len :=
          Z.to_nat (from_bytes (slice key (3 + name_len) (4 + name_len))) in
        match utf8_decode (slice key (4 + name_len) (4 + name_len + claim_id_len)),
              struct_unpack key_struct (drop (4 + name_len + claim_id_len) key) with
        | Some partial_claim_id, Some [PyInt root_tx_num; PyInt root_position] =>
            Some {| csk_normalized_name := name;
                    csk_partial_claim_id := partial_claim_id;
                    csk_root_tx_num := root_tx_num;
                    csk_root_position := root_position |}
        | _, _ => None
        end
    | None => None
    end
  else None.

Definition pack_partial_key : list pyval -> option bytes :=
  PrefixRow.pack_partial_key prefix key_part_lambdas.
End Row.
End ClaimShortIDPrefixRow.

(** *** claim_takeover *)

Record ClaimTakeoverKey : Type := { ctok_normalized_name : str }.

Module ClaimTakeoverPrefixRow.
Section Row.
Variable prefix : bytes.

Definition key_part_lambdas : list builder := [empty_builder; name_builder].

Definition pack_key (name : str) : option bytes :=
  match length_encoded_name name with
  | Some n => Some (prefix ++ n)
  | None => None
  end.

Definition unpack_key (key : bytes) : option ClaimTakeoverKey :=
  if decide (take 1 key = prefix) then
    let name_len := Z.to_nat (from_bytes (slice key 1 3)) in
    match utf8_decode (slice key 3 (3 + name_len)) with
    | Some name => Some {| ctok_normalized_name := name |}
    | None => None
    end
  else None.

Definition pack_partial_key : list pyval -> option bytes :=
  PrefixRow.pack_partial_key prefix key_part_lambdas.
End Row.
End ClaimTakeoverPrefixRow.

(** *** block_txs and touched_hashX: lists of fixed-size items *)

Module BlockTxsPrefixRow.
(** The assertion on the item sizes fails with AssertionError. *)
Definition pack_value (tx_hashes : list bytes) : option bytes :=
  if forallb (fun tx_hash => Nat.eqb (length tx_hash) 32) tx_hashes
  then Some (concat tx_hashes) else None.

Definition unpack_value (data : bytes) : list bytes :=
  (fun i => slice data (i * 32) ((i + 1) * 32)) <$> seq 0 (length data / 32).
End BlockTxsPrefixRow.

Module TouchedHashXPrefixRow.
Definition pack_value (touched : list bytes) : option bytes :=
  if forallb (fun item => Nat.eqb (length item) 11) touched
  then Some (concat touched) else None.

Definition unpack_value (data : bytes) : list bytes :=
  (fun idx => slice data (idx * 11) (idx * 11 + 11)) <$> seq 0 (length data / 11).
End TouchedHashXPrefixRow.

(** *** touched_or_deleted: two sets of claim hashes *)

(** [a <= b] on bytes objects, the order [sorted] puts a set in. *)
Definition bytes_le (a b : bytes) : Prop := bytes_lt b a = false.

#[export] Instance bytes_le_dec a b : Decision (bytes_le a b).
Proof. unfold bytes_le. apply _. Defined.

Definition sorted (s : gset bytes) : list bytes :=
  merge_sort bytes_le (elements s).

Module TouchedOrDeletedPrefixRow.
Definition value_struct : list fmt := [fmt_L; fmt_L].

Definition all_20 (s : gset bytes) : bool :=
  forallb (fun item => Nat.eqb (length item) 20) (elements s).

Definition pack_value (touched deleted : gset bytes) : option bytes :=
  if all_20 touched && all_20 deleted then
    match struct_pack value_struct
            [PyInt (Z.of_nat (size touched)); PyInt (Z.of_nat (size deleted))] with
    | Some h => Some (h ++ concat (sorted touched) ++ concat (sorted deleted))
    | None => None
    end
  else None.

Definition unpack_value (data : bytes) : option (gset bytes * gset bytes) :=
  match struct_unpack value_struct (slice data 0 8) with
  | Some [PyInt touched_len; PyInt deleted_len] =>
      let data := drop 8 data in
      if decide (Z.of_nat (length data) = 20 * (touched_len + deleted_len)) then
        let touched_bytes := take (Z.to_nat (touched_len * 20)) data in
        let deleted_bytes := drop (Z.to_nat (touched_len * 20)) data in
        Some (list_to_set ((fun i => slice touched_bytes (20 * i) (20 * (i + 1)))
                             <$> seq 0 (Z.to_nat touched_len)),
              list_to_set ((fun i => slice deleted_bytes (20 * i) (20 * (i + 1)))
                             <$> seq 0 (Z.to_nat deleted_len)))
      else None
  | _ => None
  end.
End TouchedOrDeletedPrefixRow.

(** *** Admissible field values and builder levels *)

(** Ranges of the fixed-width integer fields. *)
Definition u8 (v : Z) : Prop := 0 <= v <= 255.
Definition u16 (v : Z) : Prop := 0 <= v <= 65535.
Definition u32 (v : Z) : Prop := 0 <= v <= 4294967295.
Definition u64 (v : Z) : Prop := 0 <= v <= 18446744073709551615.
Definition i32 (v : Z) : Prop := - 2147483648 <= v <= 2147483647.

(** What [unpack] gives back for a packed argument: an ['ns'] field is cut
    or zero-padded to [n] octets, an integer is returned as it was. *)
Definition fitted (c : fmt) (a : pyval) : pyval :=
  match c, a with
  | fmt_s n, PyBytes b => PyBytes (take n b ++ replicate (n - length b) 0)
  | _, _ => a
  end.

(** Code points below 128, which UTF-8 encodes on one octet each. *)
Definition ascii (s : str) : Prop := Forall (fun c => 0 <= c < 128) s.

(** [ChannelToClaimPrefixRow.key_part_lambdas[i]]; an index out of range
    raises. *)
Definition channel_to_claim_level (i : nat) : builder :=
  nth i ChannelToClaimPrefixRow.key_part_lambdas (fun _ => None).

End Prefixes.


(** ** The claim model of [hub/schema/attrs.py] *)

Module Attrs.

(** Exceptions raised by the modelled code. *)
Inductive exn : Type :=
| AttributeError
| TypeError
| KeyError
| ValueError
| RecursionError
| InvalidOperation
| DivisionByZero
| Exception_.

(** *** protobuf values

    [google.protobuf.Value]: a oneof [kind] over six members; a freshly
    created message has none set.  A [number_value] is a double; the code
    only compares numbers for equality, so the model takes them in [Z]. *)
#[warnings="-register-all"]
Inductive Value : Type :=
| kind_unset
| null_value
| number_value (n : Z)
| string_value (s : string)
| bool_value (b : bool)
| struct_value (fields : gmap string Value)
| list_value (values : list Value).

Inductive kind : Type :=
| K_null_value | K_number_value | K_string_value | K_bool_value
| K_struct_value | K_list_value.

Global Instance kind_eq_dec : EqDecision kind.
Proof. solve_decision. Defined.

(** [v.WhichOneof('kind')] *)
Definition WhichOneof (v : Value) : option kind :=
  match v with
  | kind_unset => None
  | null_value => Some K_null_value
  | number_value _ => Some K_number_value
  | string_value _ => Some K_string_value
  | bool_value _ => Some K_bool_value
  | struct_value _ => Some K_struct_value
  | list_value _ => Some K_list_value
  end.

(** What [getattr(v, kind)] returns for the scalar members. *)
Inductive scalar : Type :=
| PyNull (n : Z)
| PyNumber (n : Z)
| PyString (s : string)
| PyBool (b : bool).

Global Instance scalar_eq_dec : EqDecision scalar.
Proof. solve_decision. Defined.

(** [getattr(v, v.WhichOneof('kind'))] when the kind is not a struct or a
    list: the attribute name [None] of an unset value is a TypeError. *)
Definition getattr_kind (v : Value) : exn + scalar :=
  match v with
  | null_value => inr (PyNull 0)
  | number_value n => inr (PyNumber n)
  | string_value s => inr (PyString s)
  | bool_value b => inr (PyBool b)
  | kind_unset | struct_value _ | list_value _ => inl TypeError
  end.

(** Equality [v == o] of two [Value] messages: same member set, equal
    contents, maps compared key by key. *)
Fixpoint Value_eqb (v o : Value) {struct v} : bool :=
  match v, o with
  | kind_unset, kind_unset => true
  | null_value, null_value => true
  | number_value a, number_value b => bool_decide (a = b)
  | string_value a, string_value b => bool_decide (a = b)
  | bool_value a, bool_value b => bool_decide (a = b)
  | struct_value fs, struct_value gs =>
      bool_decide (dom fs = dom gs) &&
      map_fold (fun k x acc =>
                  match gs !! k with
                  | Some y => Value_eqb x y && acc
                  | None => false
                  end) true fs
  | list_value vs, list_value ws =>
      (fix go (vs ws : list Value) : bool :=
         match vs, ws with
         | [], [] => true
         | x :: vs', y :: ws' => Value_eqb x y && go vs' ws'
         | _, _ => false
         end) vs ws
  | _, _ => false
  end.

Fixpoint vsize (v : Value) : nat :=
  match v with
  | struct_value fs => S (map_fold (fun _ x acc => (vsize x + acc)%nat) 0%nat fs)
  | list_value vs => S (foldr (fun x acc => (vsize x + acc)%nat) 0%nat vs)
  | _ => 1%nat
  end.

(** *** Struct.merge *)

(** The two protobuf message classes that [Struct.merge] meets. *)
Inductive Message : Type :=
| PbStruct (fields : gmap string Value)   (* google.protobuf.Struct *)
| PbValue (v : Value).                    (* google.protobuf.Value *)

(** What is passed as [other]: an [attrs.Struct] wrapper, which has the
    attribute [message], or a bare protobuf message, which has not. *)
Inductive PyObj : Type :=
| StructWrapper (message : Message)
| Proto (m : Message).

(** [o.message] *)
Definition getattr_message (o : PyObj) : exn + Message :=
  match o with
  | StructWrapper m => inr m
  | Proto _ => inl AttributeError
  end.

(** [m.fields] *)
Definition getattr_fields (m : Message) : exn + gmap string Value :=
  match m with
  | PbStruct fields => inr fields
  | PbValue _ => inl AttributeError
  end.

(** The object a nested call has mutated is the one held by the map. *)
Definition as_value (m : Message) (old : Value) : Value :=
  match m with
  | PbValue v => v
  | PbStruct _ => old
  end.

(** [v.struct_value.fields] and [v.list_value.values]; a member that is
    not the one set reads as empty. *)
Definition struct_fields (v : Value) : gmap string Value :=
  match v with struct_value fields => fields | _ => ∅ end.

Definition list_values (v : Value) : list Value :=
  match v with list_value values => values | _ => [] end.

(** Index of the first element equal to [o]:
    [for i, v in enumerate(values): if v == o: ... break]. *)
Fixpoint find_equal (o : Value) (values : list Value) : option nat :=
  match values with
  | [] => None
  | v :: values' =>
      if Value_eqb v o then Some 0%nat else S <$> find_equal o values'
  end.

(** One round of the loop over [v.list_value.values]. *)
Definition merge_list_item (del : bool) (my_values : list Value) (o : Value)
    : list Value :=
  let my_values :=
    match find_equal o my_values with
    | Some i => if del then delete i my_values else my_values
    | None => my_values
    end in
  if del then my_values else my_values ++ [o].

Module Struct.
Section Body.
(** The recursive call [Struct(my_value).merge(v.struct_value, delete=delete)]. *)
Variable recur : Message -> PyObj -> bool -> Message * option exn.
Variable del : bool.

(** One round of the loop over [other.message.fields.items()]. *)
Definition merge_item (self_message : Message) (k : string) (v : Value)
    : Message * option exn :=
  match getattr_fields self_message with
  | inl e => (self_message, Some e)
  | inr fields =>
      match fields !! k with
      | None =>
          if del then (self_message, None)
          else (PbStruct (<[k := v]> fields), None)
      | Some my_value =>
          let my_kind := WhichOneof my_value in
          let kind := WhichOneof v in
          if decide (kind <> my_kind) then (self_message, None)
          else
            match kind with
            | Some K_struct_value =>
                if decide (0 < size (struct_fields v))%nat then
                  let '(m, e) :=
                    recur (PbValue my_value) (Proto (PbStruct (struct_fields v)))
                      del in
                  (PbStruct (<[k := as_value m my_value]> fields), e)
                else if del then (PbStruct (delete k fields), None)
                else (self_message, None)
            | Some K_list_value =>
                if decide (0 < length (list_values v))%nat then
                  (PbStruct
                     (<[k := list_value
                               (foldl (merge_list_item del)
                                  (list_values my_value) (list_values v))]>
                        fields), None)
                else if del then (PbStruct (delete k fields), None)
                else (self_message, None)
            | _ =>
                match getattr_kind my_value, getattr_kind v with
                | inl e, _ => (self_message, Some e)
                | _, inl e => (self_message, Some e)
                | inr mine, inr theirs =>
                    if decide (mine = theirs)
                    then (PbStruct (delete k fields), None)
                    else (self_message, None)
                end
            end
      end
  end.

(** The loop itself: an exception ends it and leaves [self] as the
    rounds before it made it. *)
Fixpoint merge_items (self_message : Message) (items : list (string * Value))
    : Message * option exn :=
  match items with
  | [] => (self_message, None)
  | (k, v) :: items' =>
      match merge_item self_message k v with
      | (m, None) => merge_items m items'
      | (m, Some e) => (m, Some e)
      end
  end.
End Body.

(** [Struct.merge(self, other, delete)], with [self.message] as state;
    [depth] bounds the nesting of calls (RecursionError).  The items of
    the protobuf map come in the order of [map_to_list]. *)
Fixpoint merge_at (depth : nat) (self_message : Message) (other : PyObj)
    (del : bool) : Message * option exn :=
  match depth with
  | O => (self_message, Some RecursionError)
  | S depth' =>
      match getattr_message other with
      | inl e => (self_message, Some e)
      | inr other_message =>
          match getattr_fields other_message with
          | inl e => (self_message, Some e)
          | inr other_fields =>
              merge_items (merge_at depth') del self_message
                (map_to_list other_fields)
          end
      end
  end.

Definition recursion_limit : nat := 1000.

(** The call [c.merge(m, delete=del)] on two [Struct] wrappers of
    protobuf structs: the fields of [c] afterwards, and the exception
    if one was raised. *)
Definition merge (c m : gmap string Value) (del : bool)
    : gmap string Value * option exn :=
  let '(s, e) :=
    merge_at recursion_limit (PbStruct c) (StructWrapper (PbStruct m)) del in
  (default c (match getattr_fields s with inr f => Some f | inl _ => None end), e).
End Struct.

(** *** Stream extensions *)

(** [Extension] message: one protobuf struct. *)
Record ExtensionMessage : Type := { struct_ : gmap string Value }.

Module StreamExtension.
(** [StreamExtension.merge]: merge of the unpacked structs. *)
Definition merge (self_message ext_message : ExtensionMessage) (del : bool)
    : ExtensionMessage * option exn :=
  let '(s, e) := Struct.merge (struct_ self_message) (struct_ ext_message) del in
  ({| struct_ := s |}, e).
End StreamExtension.

Module StreamExtensionMap.
(** One round of the loop over [exts.items()] when [exts] is itself a
    [StreamExtensionMap]: [obj] gets a copy of the message of [ext];
    [del self.message[schema]] is a KeyError on a missing key, while
    reading [self.message[schema]] creates a missing entry. *)
Definition merge_item (del : bool) (self_message : gmap string ExtensionMessage)
    (schema : string) (ext : ExtensionMessage)
    : gmap string ExtensionMessage * option exn :=
  let obj := ext in
  if del && bool_decide (size (struct_ obj) = 0%nat) then
    match self_message !! schema with
    | Some _ => (delete schema self_message, None)
    | None => (self_message, Some KeyError)
    end
  else
    let existing := default {| struct_ := ∅ |} (self_message !! schema) in
    let '(existing, e) := StreamExtension.merge existing obj del in
    (<[schema := existing]> self_message, e).

Fixpoint merge_items (del : bool) (self_message : gmap string ExtensionMessage)
    (items : list (string * ExtensionMessage))
    : gmap string ExtensionMessage * option exn :=
  match items with
  | [] => (self_message, None)
  | (schema, ext) :: items' =>
      match merge_item del self_message schema ext with
      | (m, None) => merge_items del m items'
      | (m, Some e) => (m, Some e)
      end
  end.

(** [StreamExtensionMap.merge(self, exts, delete)] for [exts] a
    [StreamExtensionMap], the form [apply] passes.  (A single extension,
    a dict or a JSON string are first converted by [from_value] with the
    json and protobuf parsers.) *)
Definition merge (self_message exts : gmap string ExtensionMessage) (del : bool)
    : gmap string ExtensionMessage * option exn :=
  merge_items del self_message (map_to_list exts).
End StreamExtensionMap.

(** *** Claims and repost modifications *)

(** The stream member of a claim message: its extension map, and its other
    fields in wire form. *)
Record StreamMessage : Type := {
  extensions : gmap string ExtensionMessage;
  stream_fields : Py.bytes
}.

(** The oneof [type] of a claim message. *)
Inductive ClaimType : Type :=
| T_stream (s : StreamMessage)
| T_channel (fields : Py.bytes)
| T_collection (fields : Py.bytes)
| T_repost (fields : Py.bytes).

Record ClaimMessage : Type := {
  type_ : option ClaimType;
  claim_fields : Py.bytes
}.

(** Modelled from the spec: [Claim.claim_type] of [hub/schema/claim.py],
    the name of the variant the claim message carries. *)
Definition claim_type (m : ClaimMessage) : option string :=
  match type_ m with
  | None => None
  | Some (T_stream _) => Some "stream"
  | Some (T_channel _) => Some "channel"
  | Some (T_collection _) => Some "collection"
  | Some (T_repost _) => Some "repost"
  end.

(** The stream member of a modifying reference: two [StreamModifiable]
    messages, each an extension map. *)
Record Modifications : Type := {
  deletions : gmap string ExtensionMessage;
  edits : gmap string ExtensionMessage
}.

Inductive ModificationType : Type :=
| M_stream (mods : Modifications)
| M_channel
| M_collection
| M_repost.

Record ModifyingClaimReferenceMessage : Type := {
  claim_hash : Py.bytes;
  mod_type : option ModificationType
}.

(** Claim messages live in a heap; a [Claim] object is the address of its
    message, so that returning the argument and returning a copy differ. *)
Definition loc := positive.

Module ModifyingClaimReference.
Definition modification_type (m : ModifyingClaimReferenceMessage) : option string :=
  match mod_type m with
  | None => None
  | Some (M_stream _) => Some "stream"
  | Some M_channel => Some "channel"
  | Some M_collection => Some "collection"
  | Some M_repost => Some "repost"
  end.

(** Python truth value of an optional string. *)
Definition truthy (s : option string) : bool :=
  match s with
  | Some s => negb (bool_decide (s = ""))
  | None => false
  end.

(** The two merges of [apply] on the extension map of the copy:
    deletions first, then edits. *)
Definition apply_mods (mods : Modifications) (exts : gmap string ExtensionMessage)
    : gmap string ExtensionMessage * option exn :=
  match StreamExtensionMap.merge exts (deletions mods) true with
  | (exts, None) => StreamExtensionMap.merge exts (edits mods) false
  | (exts, Some e) => (exts, Some e)
  end.

(** [ModifyingClaimReference.apply(self, reposted)]: the heap afterwards
    and the claim returned, or the exception raised.  A reference always
    points into the heap. *)
Definition apply (self_message : ModifyingClaimReferenceMessage) (reposted : loc)
    (h : gmap loc ClaimMessage) : gmap loc ClaimMessage * (exn + loc) :=
  match h !! reposted with
  | None => (h, inr reposted)
  | Some reposted_message =>
      if negb (truthy (modification_type self_message))
         || negb (bool_decide (modification_type self_message
                               = claim_type reposted_message))
      then (h, inr reposted)
      else if negb (bool_decide (claim_type reposted_message = Some "stream"))
      then (h, inr reposted)
      else
        let m := fresh (dom h) in
        let h := <[m := reposted_message]> h in
        let result := m in
        match type_ reposted_message, mod_type self_message with
        | Some (T_stream stream), Some (M_stream mods) =>
            let '(exts, e) := apply_mods mods (extensions stream) in
            let h :=
              <[m := {| type_ := Some (T_stream
                                         {| extensions := exts;
                                            stream_fields := stream_fields stream |});
                        claim_fields := claim_fields reposted_message |}]> h in
            match e with
            | None => (h, inr result)
            | Some e => (h, inl e)
            end
        | _, _ => (h, inl AttributeError)
        end
  end.
End ModifyingClaimReference.

(** *** Decimal numbers, default context *)

(** A finite [decimal.Decimal]: the signed coefficient and the exponent. *)
Record Decimal : Type := { coef : Z; exp : Z }.

Definition prec : Z := 28.

Fixpoint ndigits_aux (fuel : nat) (c : Z) : Z :=
  match fuel with
  | O => 1
  | S fuel' => if c <? 10 then 1 else 1 + ndigits_aux fuel' (c / 10)
  end.

(** Number of decimal digits of [|c|]. *)
Definition ndigits (c : Z) : Z := ndigits_aux (Z.to_nat (Z.log2 (Z.abs c))) (Z.abs c).

(** Rounding of a result to the precision of the context, half to even. *)
Definition fix_ (d : Decimal) : Decimal :=
  let k := ndigits (coef d) - prec in
  if k <=? 0 then d
  else
    let a := Z.abs (coef d) in
    let q := a / 10 ^ k in
    let r := a mod 10 ^ k in
    let half := 5 * 10 ^ (k - 1) in
    let q := if (half <? r) || ((r =? half) && Z.odd q) then q + 1 else q in
    if q =? 10 ^ prec
    then {| coef := Z.sgn (coef d) * 10 ^ (prec - 1); exp := exp d + k + 1 |}
    else {| coef := Z.sgn (coef d) * q; exp := exp d + k |}.

(** [a * b] *)
Definition dec_mul (a b : Decimal) : Decimal :=
  fix_ {| coef := coef a * coef b; exp := exp a + exp b |}.

(** [d.quantize(e, ROUND_UP)]: the exponent of [e], rounding away from
    zero; InvalidOperation when the coefficient would exceed the
    precision. *)
Definition quantize_ROUND_UP (d e : Decimal) : exn + Decimal :=
  let c :=
    if exp e <=? exp d then coef d * 10 ^ (exp d - exp e)
    else
      let p := 10 ^ (exp e - exp d) in
      let q := Z.abs (coef d) / p in
      let r := Z.abs (coef d) mod p in
      Z.sgn (coef d) * (if r =? 0 then q else q + 1) in
  if 10 ^ prec <=? Z.abs c then inl InvalidOperation
  else inr {| coef := c; exp := exp e |}.

(** [int(d)]: truncation towards zero. *)
Definition dec_int (d : Decimal) : Z :=
  if 0 <=? exp d then coef d * 10 ^ exp d
  else Z.quot (coef d) (10 ^ (- exp d)).

(** The loop of an exact division: drop trailing zeros up to the ideal
    exponent. *)
Fixpoint strip_zeros (fuel : nat) (coeff e ideal_exp : Z) : Z * Z :=
  match fuel with
  | O => (coeff, e)
  | S fuel' =>
      if (e <? ideal_exp) && (coeff mod 10 =? 0)
      then strip_zeros fuel' (coeff / 10) (e + 1) ideal_exp
      else (coeff, e)
  end.

(** [a / b]: the quotient to the precision of the context, computed on
    the absolute values of the coefficients, the sign being the product of
    the signs. *)
Definition dec_truediv (a b : Decimal) : exn + Decimal :=
  let sign := Z.sgn (coef a) * Z.sgn (coef b) in
  let ca := Z.abs (coef a) in
  let cb := Z.abs (coef b) in
  if cb =? 0 then inl DivisionByZero
  else if ca =? 0 then inr (fix_ {| coef := 0; exp := exp a - exp b |})
  else
    let shift := ndigits cb - ndigits ca + prec + 1 in
    let e := exp a - exp b - shift in
    let '(coeff, remainder) :=
      if 0 <=? shift
      then (ca * 10 ^ shift / cb, (ca * 10 ^ shift) mod cb)
      else (ca / (cb * 10 ^ (- shift)), ca mod (cb * 10 ^ (- shift))) in
    if negb (remainder =? 0) then
      inr (fix_ {| coef := sign * (if coeff mod 5 =? 0 then coeff + 1 else coeff);
                   exp := e |})
    else
      let ideal_exp := exp a - exp b in
      let '(coeff, e) := strip_zeros (Z.to_nat (ideal_exp - e)) coeff e ideal_exp in
      inr (fix_ {| coef := sign * coeff; exp := e |}).

(** Numeric equality [a == b] of two decimals. *)
Definition dec_eq (a b : Decimal) : Prop :=
  let m := Z.min (exp a) (exp b) in
  coef a * 10 ^ (exp a - m) = coef b * 10 ^ (exp b - m).

(** *** Fee *)

Inductive Currency : Type := UNKNOWN_CURRENCY | LBC | BTC | USD.

Global Instance Currency_eq_dec : EqDecision Currency.
Proof. solve_decision. Defined.

Record FeeMessage : Type := {
  fee_currency : Currency;
  fee_address : Py.bytes;
  fee_amount : Z
}.

Definition CENT : Z := 1000000.
Definition COIN : Z := 100 * CENT.

Definition lower_ascii (a : Ascii.ascii) : Ascii.ascii :=
  let n := Ascii.nat_of_ascii a in
  if (65 <=? n)%nat && (n <=? 90)%nat then Ascii.ascii_of_nat (n + 32) else a.

(** [s.lower()] on ASCII text. *)
Fixpoint lower (s : string) : string :=
  match s with
  | EmptyString => EmptyString
  | String a s' => String (lower_ascii a) (lower s')
  end.

Module Fee.
Section Fee.
(** [Base58.decode] of [hub/schema/base58.py], not among the sources. *)
Variable Base58_decode : string -> exn + Py.bytes.

Definition currency (m : FeeMessage) : option string :=
  match fee_currency m with
  | UNKNOWN_CURRENCY => None
  | LBC => Some "LBC"
  | BTC => Some "BTC"
  | USD => Some "USD"
  end.

(** Assignment to the [uint64] field [amount] of the message. *)
Definition set_message_amount (amount : Z) (m : FeeMessage) : exn + FeeMessage :=
  if (0 <=? amount) && (amount <=? 18446744073709551615)
  then inr {| fee_currency := fee_currency m; fee_address := fee_address m;
              fee_amount := amount |}
  else inl ValueError.

Definition set_message_currency (c : Currency) (m : exn + FeeMessage)
    : exn + FeeMessage :=
  match m with
  | inl e => inl e
  | inr m =>
      inr {| fee_currency := c; fee_address := fee_address m;
             fee_amount := fee_amount m |}
  end.

Definition DEWIES : Decimal := {| coef := COIN; exp := 0 |}.
Definition SATOSHIES : Decimal := {| coef := COIN; exp := 0 |}.
Definition PENNIES : Decimal := {| coef := 1000; exp := -1 |}.
Definition PENNY : Decimal := {| coef := 1; exp := -2 |}.

(** [dewies.setter], [satoshis.setter], [pennies.setter] *)
Definition set_dewies (amount : Z) (m : FeeMessage) : exn + FeeMessage :=
  set_message_currency LBC (set_message_amount amount m).

Definition set_satoshis (amount : Z) (m : FeeMessage) : exn + FeeMessage :=
  set_message_currency BTC (set_message_amount amount m).

Definition set_pennies (amount : Z) (m : FeeMessage) : exn + FeeMessage :=
  set_message_currency USD (set_message_amount amount m).

(** [lbc.setter], [btc.setter], [usd.setter] *)
Definition set_lbc (amount : Decimal) (m : FeeMessage) : exn + FeeMessage :=
  set_dewies (dec_int (dec_mul amount DEWIES)) m.

Definition set_btc (amount : Decimal) (m : FeeMessage) : exn + FeeMessage :=
  set_satoshis (dec_int (dec_mul amount SATOSHIES)) m.

Definition set_usd (amount : Decimal) (m : FeeMessage) : exn + FeeMessage :=
  match quantize_ROUND_UP amount PENNY with
  | inl e => inl e
  | inr q => set_pennies (dec_int (dec_mul q PENNIES)) m
  end.

(** The getters [pennies] and [usd]. *)
Definition pennies (m : FeeMessage) : exn + Z :=
  if decide (fee_currency m <> USD) then inl ValueError else inr (fee_amount m).

Definition usd (m : FeeMessage) : exn + Decimal :=
  if decide (fee_currency m <> USD) then inl ValueError
  else dec_truediv {| coef := fee_amount m; exp := 0 |} PENNIES.

(** The getters [dewies] and [satoshis]. *)
Definition dewies (m : FeeMessage) : exn + Z :=
  if decide (fee_currency m <> LBC) then inl ValueError else inr (fee_amount m).

Definition satoshis (m : FeeMessage) : exn + Z :=
  if decide (fee_currency m <> BTC) then inl ValueError else inr (fee_amount m).

Definition truthy (s : option string) : bool :=
  match s with
  | Some s => negb (bool_decide (s = ""))
  | None => false
  end.

(** [a or b] on optional strings. *)
Definition or_ (a b : option string) : option string :=
  if truthy a then a else b.

Definition set_address (address : string) (m : FeeMessage) : exn + FeeMessage :=
  match Base58_decode address with
  | inl e => inl e
  | inr b => inr {| fee_currency := fee_currency m; fee_address := b;
                    fee_amount := fee_amount m |}
  end.

(** [Fee.update(address, currency, amount)]: the message afterwards and
    the exception raised, if any. *)
Definition update (address currency : option string) (amount : option Decimal)
    (m : FeeMessage) : FeeMessage * option exn :=
  let step1 : FeeMessage * option exn :=
    match amount with
    | Some a =>
        if negb (coef a =? 0) then
          let currency :=
            lower (default "" (or_ currency (or_ (Fee.currency m) (Some "")))) in
          if bool_decide (currency = "") then (m, Some Exception_)
          else if bool_decide (currency = "lbc") then
            match set_lbc a m with inr m' => (m', None) | inl e => (m, Some e) end
          else if bool_decide (currency = "btc") then
            match set_btc a m with inr m' => (m', None) | inl e => (m, Some e) end
          else if bool_decide (currency = "usd") then
            match set_usd a m with inr m' => (m', None) | inl e => (m, Some e) end
          else (m, Some Exception_)
        else if truthy currency then (m, Some Exception_)
        else (m, None)
    | None =>
        if truthy currency then (m, Some Exception_) else (m, None)
    end in
  match step1 with
  | (m, Some e) => (m, Some e)
  | (m, None) =>
      match address with
      | Some a =>
          if truthy address then
            if negb (truthy (Fee.currency m)) then (m, Some Exception_)
            else
              match set_address a m with
              | inr m' => (m', None)
              | inl e => (m, Some e)
              end
          else (m, None)
      | None => (m, None)
      end
  end.
End Fee.
End Fee.

(** *** Vocabulary of the merge properties *)

(** The variant of a leaf: scalar, list or map (or nothing set). *)
Inductive variant : Type := V_none | V_scalar | V_list | V_map.

Definition variant_of (v : Value) : variant :=
  match v with
  | kind_unset => V_none
  | struct_value _ => V_map
  | list_value _ => V_list
  | _ => V_scalar
  end.

Definition is_scalar (v : Value) : Prop := variant_of v = V_scalar.

Definition is_empty_container (v : Value) : Prop :=
  v = list_value [] \/ v = struct_value ∅.

(** The value found by following the keys of [p] through nested maps. *)
Fixpoint lookup_path (p : list string) (v : Value) : option Value :=
  match p with
  | [] => Some v
  | k :: p' =>
      match v with
      | struct_value fields =>
          match fields !! k with
          | Some x => lookup_path p' x
          | None => None
          end
      | _ => None
      end
  end.

(** The modifiers on which a second merge(add) finds nothing to do: each
    field is an empty list or map, or meets in [c] a field of another
    kind or a different scalar of its kind. *)
Definition settled (c m : gmap string Value) : Prop :=
  forall k v, m !! k = Some v ->
    is_empty_container v \/
    exists w, c !! k = Some w /\
              (WhichOneof v <> WhichOneof w \/ (is_scalar v /\ v <> w)).

(** The modifiers whose deletion merge(add) undoes: each field meets in
    [c] a field of another kind, or is a scalar and meets a field. *)
Definition scalar_overlay (c m : gmap string Value) : Prop :=
  forall k v, m !! k = Some v ->
    exists w, c !! k = Some w /\ (WhichOneof v <> WhichOneof w \/ is_scalar v).

(** What one round of [Struct.merge] makes of the field [mine] of [self]
    when the modifier holds [v] under the same key, a nested call
    raising AttributeError. *)
Definition field_step (del : bool) (mine : option Value) (v : Value)
    : option Value * option exn :=
  match mine with
  | None => if del then (None, None) else (Some v, None)
  | Some w =>
      if decide (WhichOneof v <> WhichOneof w) then (Some w, None)
      else
        match WhichOneof v with
        | Some K_struct_value =>
            if decide (0 < size (struct_fields v))%nat
            then (Some w, Some AttributeError)
            else if del then (None, None) else (Some w, None)
        | Some K_list_value =>
            if decide (0 < length (list_values v))%nat
            then (Some (list_value
                          (foldl (merge_list_item del) (list_values w)
                             (list_values v))), None)
            else if del then (None, None) else (Some w, None)
        | _ =>
            match getattr_kind w, getattr_kind v with
            | inl e, _ => (Some w, Some e)
            | _, inl e => (Some w, Some e)
            | inr a, inr b =>
                if decide (a = b) then (None, None) else (Some w, None)
            end
        end
  end.

(** *** Vocabulary of the fee properties *)

(** [ceiling(n / d)] for [d > 0]. *)
Definition ceil_div (n d : Z) : Z := - ((- n) / d).

(** [ceiling(a * 100)]: the amount [a] in pennies, rounded up. *)
Definition ceil_pennies (a : Decimal) : Z :=
  if 0 <=? exp a + 2 then coef a * 10 ^ (exp a + 2)
  else ceil_div (coef a) (10 ^ (- (exp a + 2))).

(** [floor(a * 10^8)] for [a >= 0]: the amount [a] in dewies or
    satoshis, rounded down. *)
Definition floor_units (a : Decimal) : Z :=
  if 0 <=? exp a + 8 then coef a * 10 ^ (exp a + 8)
  else coef a / 10 ^ (- (exp a + 8)).

(** Python truth value of an optional decimal amount. *)
Definition amount_given (amount : option Decimal) : Prop :=
  exists a, amount = Some a /\ coef a <> 0.

End Attrs.


(** ** Properties of the row codecs *)

Module PrefixesSpec.
Import Py Prefixes.

(** *** Big-endian digits *)

Lemma be_bytes_head n v :
  be_bytes (S n) v = (v / 256 ^ Z.of_nat n) mod 256 :: be_bytes n v.
Proof.
  cbn [be_bytes]. f_equal.
  change 255 with (Z.ones 8).
  rewrite Z.land_ones by lia.
  rewrite Z.shiftr_div_pow2 by lia.
  replace (2 ^ (8 * Z.of_nat n)) with (256 ^ Z.of_nat n); [reflexivity|].
  change 256 with (2 ^ 8). rewrite <- Z.pow_mul_r by lia. reflexivity.
Qed.

Lemma length_be_bytes n v : length (be_bytes n v) = n.
Proof. induction n as [|n IH]; [done|]. cbn [be_bytes length]. by rewrite IH. Qed.

Lemma pow256_pos n : 0 < 256 ^ Z.of_nat n.
Proof. apply Z.pow_pos_nonneg; lia. Qed.

Lemma mod_pow256_split n v :
  v mod 256 ^ Z.of_nat (S n)
  = v mod 256 ^ Z.of_nat n + 256 ^ Z.of_nat n * ((v / 256 ^ Z.of_nat n) mod 256).
Proof.
  pose proof (pow256_pos n).
  rewrite Nat2Z.inj_succ, Z.pow_succ_r by lia.
  rewrite (Z.mul_comm 256). apply Z.rem_mul_r; lia.
Qed.

(** Numeric order of the encoded integers is the order of their digits,
    whatever follows the digits. *)
Lemma be_bytes_lt n x y r1 r2 :
  x mod 256 ^ Z.of_nat n < y mod 256 ^ Z.of_nat n ->
  bytes_lt (be_bytes n x ++ r1) (be_bytes n y ++ r2) = true.
Proof.
  revert r1 r2. induction n as [|n IH]; intros r1 r2 Hlt.
  - cbn in Hlt. rewrite !Z.mod_1_r in Hlt. lia.
  - rewrite !be_bytes_head. cbn [app bytes_lt].
    rewrite !mod_pow256_split in Hlt.
    pose proof (pow256_pos n) as Hp.
    pose proof (Z.mod_pos_bound x _ Hp) as Hx.
    pose proof (Z.mod_pos_bound y _ Hp) as Hy.
    specialize (IH r1 r2) as IH'.
    set (P := 256 ^ Z.of_nat n) in *.
    set (mx := x mod P) in *. set (my := y mod P) in *.
    set (hx := (x / P) mod 256) in *. set (hy := (y / P) mod 256) in *.
    clearbody mx my hx hy P.
    destruct (Z.ltb_spec hx hy) as [|Hge]; [done|]. cbn [orb].
    assert (hx = hy) as Heq.
    { destruct (Z.eq_dec hx hy) as [|Hne]; [done|].
      assert (P * (hy + 1) <= P * hx) by (apply Z.mul_le_mono_nonneg_l; lia).
      lia. }
    rewrite Heq, Z.eqb_refl. cbn [andb].
    apply IH'. rewrite Heq in Hlt. lia.
Qed.

Lemma bytes_lt_app p a b : bytes_lt (p ++ a) (p ++ b) = bytes_lt a b.
Proof.
  induction p as [|c p IH]; [done|].
  cbn [app bytes_lt]. rewrite Z.ltb_irrefl, Z.eqb_refl. exact IH.
Qed.

Lemma be_bytes_inj n x y :
  0 <= x < 256 ^ Z.of_nat n -> 0 <= y < 256 ^ Z.of_nat n ->
  be_bytes n x = be_bytes n y -> x = y.
Proof.
  intros Hx Hy Heq.
  destruct (Z.lt_trichotomy x y) as [Hlt|[->|Hlt]]; [|done|].
  - assert (bytes_lt (be_bytes n x ++ []) (be_bytes n y ++ []) = true) as H.
    { apply be_bytes_lt. rewrite !Z.mod_small by lia. done. }
    rewrite Heq, <- (app_nil_r (be_bytes n y ++ [])), bytes_lt_app in H. done.
  - assert (bytes_lt (be_bytes n y ++ []) (be_bytes n x ++ []) = true) as H.
    { apply be_bytes_lt. rewrite !Z.mod_small by lia. done. }
    rewrite Heq, <- (app_nil_r (be_bytes n y ++ [])), bytes_lt_app in H. done.
Qed.

(** *** Packing succeeds on the admissible range *)

Lemma to_bytes_Some n v :
  0 <= v < 256 ^ Z.of_nat n -> to_bytes n v = Some (be_bytes n v).
Proof.
  intros [H1 H2]. unfold to_bytes.
  destruct (Z.leb_spec 0 v); [|lia]. destruct (Z.ltb_spec v (256 ^ Z.of_nat n)); [done|lia].
Qed.

Lemma to_bytes_inv n v b :
  to_bytes n v = Some b -> b = be_bytes n v /\ 0 <= v < 256 ^ Z.of_nat n.
Proof.
  unfold to_bytes.
  destruct (Z.leb_spec 0 v); [|done]. destruct (Z.ltb_spec v (256 ^ Z.of_nat n)); [|done].
  cbn [andb]. intros [= <-]. split; [done|lia].
Qed.

Lemma pack_QLH q l h :
  u64 q -> u32 l -> u16 h ->
  struct_pack [fmt_Q; fmt_L; fmt_H] [PyInt q; PyInt l; PyInt h]
  = Some (be_bytes 8 q ++ be_bytes 4 l ++ be_bytes 2 h ++ []).
Proof.
  unfold u64, u32, u16. intros Hq Hl Hh.
  cbn [struct_pack pack_one pack_uint].
  rewrite !to_bytes_Some by (cbn; lia). done.
Qed.

(** *** effective_amount: descending amounts *)

(** C3.  For one name, and amounts [a2 < a1] that both fit an unsigned
    64-bit integer, the key of [(n, a1, t1, p1)] is packed, the key of
    [(n, a2, t2, p2)] is packed, and the first is smaller than the second
    in the byte order of the store: larger amounts sort first. *)
Theorem effective_amount_key_order prefix n a1 a2 t1 p1 t2 p2 :
  is_Some (length_encoded_name n) ->
  u64 a1 -> u64 a2 -> a2 < a1 ->
  u32 t1 -> u16 p1 -> u32 t2 -> u16 p2 ->
  exists k1 k2,
    EffectiveAmountPrefixRow.pack_key prefix n a1 t1 p1 = Some k1 /\
    EffectiveAmountPrefixRow.pack_key prefix n a2 t2 p2 = Some k2 /\
    bytes_lt k1 k2 = true.
Proof.
  intros [ln Hn] Ha1 Ha2 Hlt Ht1 Hp1 Ht2 Hp2.
  unfold EffectiveAmountPrefixRow.pack_key, EffectiveAmountPrefixRow.key_struct.
  rewrite Hn.
  rewrite !pack_QLH by (unfold u64 in *; try done; lia).
  eexists _, _. split; [done|]. split; [done|].
  rewrite bytes_lt_app, bytes_lt_app.
  apply be_bytes_lt.
  unfold u64 in *. rewrite !Z.mod_small by (cbn; lia). lia.
Qed.

Lemma effective_amount_key_order_witness :
  exists k1 k2,
    EffectiveAmountPrefixRow.pack_key [68] [102; 111; 111] 50 1 0 = Some k1 /\
    EffectiveAmountPrefixRow.pack_key [68] [102; 111; 111] 10 2 0 = Some k2 /\
    bytes_lt k1 k2 = true.
Proof.
  apply effective_amount_key_order;
    unfold u64, u32, u16; try lia.
  vm_compute. eauto.
Defined.

(** Ties: for one name and one amount, keys come in the order of
    (tx_num, position). *)
Lemma effective_amount_key_tie_break prefix n a t1 p1 t2 p2 :
  is_Some (length_encoded_name n) -> u64 a ->
  u32 t1 -> u16 p1 -> u32 t2 -> u16 p2 ->
  t1 < t2 \/ (t1 = t2 /\ p1 < p2) ->
  exists k1 k2,
    EffectiveAmountPrefixRow.pack_key prefix n a t1 p1 = Some k1 /\
    EffectiveAmountPrefixRow.pack_key prefix n a t2 p2 = Some k2 /\
    bytes_lt k1 k2 = true.
Proof.
  intros [ln Hn] Ha Ht1 Hp1 Ht2 Hp2 Hlt.
  unfold EffectiveAmountPrefixRow.pack_key, EffectiveAmountPrefixRow.key_struct.
  rewrite Hn.
  rewrite !pack_QLH by (unfold u64 in *; try done; lia).
  eexists _, _. split; [done|]. split; [done|].
  rewrite !bytes_lt_app. unfold u32, u16 in *.
  destruct Hlt as [Hlt|[-> Hlt]].
  - apply be_bytes_lt. rewrite !Z.mod_small by (cbn; lia). done.
  - rewrite bytes_lt_app. apply be_bytes_lt.
    rewrite !Z.mod_small by (cbn; lia). done.
Qed.

(** *** effective_amount: the partial keys against the full key *)

Lemma prefix_same_length_head {A} (a b x y : list A) :
  length a = length b -> (a ++ x) `prefix_of` (b ++ y) -> a = b.
Proof.
  intros Hlen [k Hk]. rewrite <- app_assoc in Hk.
  apply app_inj_1 in Hk as [Hk _]; [done|done].
Qed.

Lemma pack_Q q :
  u64 q -> struct_pack [fmt_Q] [PyInt q] = Some (be_bytes 8 q ++ []).
Proof.
  unfold u64. intros Hq. cbn [struct_pack pack_one pack_uint].
  rewrite to_bytes_Some by (cbn; lia). done.
Qed.

(** C1.  The level-2 builder of the effective_amount row packs the amount
    itself, the full key packs its complement to [2^64 - 1]: for every
    admissible name, amount, tx_num and position the builder returns its
    bytes, the key is packed, and the partial key (the prefix tag followed
    by the bytes of the builder) is not a prefix of the full key. *)
Theorem effective_amount_level2_not_prefix prefix n a t p :
  is_Some (length_encoded_name n) -> u64 a -> u32 t -> u16 p ->
  exists part k,
    nth 2 EffectiveAmountPrefixRow.key_part_lambdas (fun _ => None)
      [PyStr n; PyInt a] = Some part /\
    EffectiveAmountPrefixRow.pack_partial_key prefix [PyStr n; PyInt a]
      = Some (prefix ++ part) /\
    EffectiveAmountPrefixRow.pack_key prefix n a t p = Some k /\
    ~ (prefix ++ part) `prefix_of` k.
Proof.
  intros [ln Hn] Ha Ht Hp.
  unfold EffectiveAmountPrefixRow.pack_partial_key, PrefixRow.pack_partial_key,
    EffectiveAmountPrefixRow.pack_key, EffectiveAmountPrefixRow.key_struct.
  cbn [length EffectiveAmountPrefixRow.key_part_lambdas lookup list_lookup nth
       shortid_key_helper].
  rewrite Hn, pack_Q by done.
  rewrite pack_QLH by (unfold u64 in *; try done; lia).
  cbn [fmap option_fmap option_map].
  eexists _, _. split; [done|]. split; [done|]. split; [done|].
  intros Hpre.
  apply prefix_app_inv, prefix_app_inv in Hpre.
  apply prefix_same_length_head in Hpre; [|by rewrite !length_be_bytes].
  apply be_bytes_inj in Hpre; unfold u64 in *; cbn; lia.
Qed.

Lemma effective_amount_level2_not_prefix_witness :
  exists part k,
    nth 2 EffectiveAmountPrefixRow.key_part_lambdas (fun _ => None)
      [PyStr [102; 111; 111]; PyInt 50] = Some part /\
    EffectiveAmountPrefixRow.pack_partial_key [68] [PyStr [102; 111; 111]; PyInt 50]
      = Some ([68] ++ part) /\
    EffectiveAmountPrefixRow.pack_key [68] [102; 111; 111] 50 1 0 = Some k /\
    ~ ([68] ++ part) `prefix_of` k.
Proof.
  apply effective_amount_level2_not_prefix; unfold u64, u32, u16; try lia.
  vm_compute. eauto.
Defined.

(** The helper written for this row, [effective_amount_helper], does build
    a prefix of the full key. *)
Lemma effective_amount_helper_prefix prefix n a t p kp k :
  effective_amount_helper [fmt_Q] [PyStr n; PyInt a] = Some kp ->
  EffectiveAmountPrefixRow.pack_key prefix n a t p = Some k ->
  (prefix ++ kp) `prefix_of` k.
Proof.
  unfold EffectiveAmountPrefixRow.pack_key, EffectiveAmountPrefixRow.key_struct.
  cbn [effective_amount_helper struct_pack pack_one pack_uint].
  destruct (length_encoded_name n) as [ln|]; [|done].
  destruct (to_bytes 8 _) as [q|]; [|done].
  destruct (to_bytes 4 t) as [l|]; [|done].
  destruct (to_bytes 2 p) as [h|]; [|done].
  intros [= <-] [= <-].
  apply prefix_app, prefix_app. rewrite app_nil_r.
  by apply prefix_app_r.
Qed.

(** *** channel_to_claim: the six builders *)

(** What [channel_to_claim_helper] accepts: a bytes object, a name, and
    the arguments of its packer. *)
Lemma channel_to_claim_helper_Some struct_fmt args o :
  channel_to_claim_helper struct_fmt args = Some o ->
  exists signing_hash name rest,
    args = PyBytes signing_hash :: PyStr name :: rest /\
    is_Some (struct_pack struct_fmt rest).
Proof.
  unfold channel_to_claim_helper.
  destruct args as [|[z|signing_hash|s] [|[z'|b|name] rest]]; try done.
  destruct (length_encoded_name name); [|done].
  destruct (struct_pack struct_fmt rest) eqn:Hp; [|done].
  intros _. exists signing_hash, name, rest. eauto.
Qed.

Lemma level3_accepts args :
  is_Some (channel_to_claim_level 3 args) ->
  exists signing_hash name b, args = [PyBytes signing_hash; PyStr name; PyBytes b].
Proof.
  intros [o Ho]. apply channel_to_claim_helper_Some in Ho
    as (signing_hash & name & rest & -> & [x Hx]).
  destruct rest as [|[z|b|s] [|y rest]]; try done. eauto.
Qed.

Lemma level4_level5_need_int i args :
  i = 4%nat \/ i = 5%nat ->
  is_Some (channel_to_claim_level i args) ->
  exists signing_hash name tx_num rest,
    args = PyBytes signing_hash :: PyStr name :: PyInt tx_num :: rest.
Proof.
  intros [-> | ->] [o Ho];
    apply channel_to_claim_helper_Some in Ho
      as (signing_hash & name & rest & -> & [x Hx]);
    destruct rest as [|[z|b|s] rest]; try done; eauto.
Qed.

(** C4.  Builder 3 of the channel_to_claim row is accepted only when the
    component after the name is a bytes object, builders 4 and 5 only when
    it is an integer: whatever argument tuple builder 3 accepts, builder 4
    and builder 5 reject each of its extensions, so the chain of prefixes
    breaks at level 3; and builder 3 rejects the (signing_hash, name,
    tx_num) triples of the key layout. *)
Theorem channel_to_claim_level3_breaks_chain args extra signing_hash name tx_num :
  is_Some (channel_to_claim_level 3 args) ->
  channel_to_claim_level 4 (args ++ extra) = None /\
  channel_to_claim_level 5 (args ++ extra) = None /\
  channel_to_claim_level 3 [PyBytes signing_hash; PyStr name; PyInt tx_num] = None.
Proof.
  intros (sh & nm & b & ->)%level3_accepts.
  split_and!.
  - apply eq_None_not_Some.
    intros (? & ? & ? & ? & [=])%(level4_level5_need_int 4); by left.
  - apply eq_None_not_Some.
    intros (? & ? & ? & ? & [=])%(level4_level5_need_int 5); by right.
  - apply eq_None_not_Some. intros (? & ? & ? & [=])%level3_accepts.
Qed.

Lemma channel_to_claim_level3_breaks_chain_witness :
  channel_to_claim_level 4
    ([PyBytes (replicate 20 7); PyStr [102]; PyBytes [1]] ++ [PyInt 0]) = None /\
  channel_to_claim_level 5
    ([PyBytes (replicate 20 7); PyStr [102]; PyBytes [1]] ++ [PyInt 0]) = None /\
  channel_to_claim_level 3 [PyBytes (replicate 20 7); PyStr [102]; PyInt 1] = None.
Proof.
  apply channel_to_claim_level3_breaks_chain.
  vm_compute. eauto.
Defined.

(** The other levels do chain: e.g. level 4 is a strict prefix of level 5. *)
Lemma channel_to_claim_level4_level5 sh name tx pos o4 o5 :
  channel_to_claim_level 4 [PyBytes sh; PyStr name; PyInt tx] = Some o4 ->
  channel_to_claim_level 5 [PyBytes sh; PyStr name; PyInt tx; PyInt pos] = Some o5 ->
  o4 `prefix_of` o5 /\ (length o4 < length o5)%nat.
Proof.
  unfold channel_to_claim_level.
  cbn [nth ChannelToClaimPrefixRow.key_part_lambdas].
  unfold channel_to_claim_helper. cbn [struct_pack pack_one pack_uint].
  destruct (length_encoded_name name) as [ln|]; [|done].
  destruct (to_bytes 4 tx) as [l|]; [|done].
  destruct (to_bytes 2 pos) as [h|] eqn:Hh; [|done].
  intros [= <-] [= <-]. apply to_bytes_inv in Hh as [-> _].
  split.
  - apply prefix_app, prefix_app. rewrite app_nil_r. apply prefix_app_r. done.
  - rewrite !length_app, !length_be_bytes. cbn [length]. lia.
Qed.

(** *** claim_to_txo: bytes after the name *)

Lemma slice_app_le (data extra : bytes) i j :
  (j <= length data)%nat -> slice (data ++ extra) i j = slice data i j.
Proof.
  intros Hj. unfold slice.
  destruct (decide (i <= j)%nat) as [Hij|Hij].
  - rewrite drop_app_le by lia. rewrite take_app_le; [done|].
    rewrite length_drop. lia.
  - replace (j - i)%nat with 0%nat by lia. done.
Qed.

(** C7 as stated fails: a packed value followed by two more octets is
    decoded without error, the extra octets being dropped. *)
Lemma claim_to_txo_unpack_accepts_trailing_bytes :
  ClaimToTXOPrefixRow.pack_value 1 0 1 0 5 true [97]
    = Some [0; 0; 0; 1; 0; 0; 0; 0; 0; 1; 0; 0; 0; 0; 0; 0; 0; 0; 0; 5; 1; 0; 1; 97] /\
  ClaimToTXOPrefixRow.unpack_value
    ([0; 0; 0; 1; 0; 0; 0; 0; 0; 1; 0; 0; 0; 0; 0; 0; 0; 0; 0; 5; 1; 0; 1; 97]
       ++ [255; 238])
    = Some {| ctv_tx_num := 1; ctv_position := 0; ctv_root_tx_num := 1;
              ctv_root_position := 0; ctv_amount := 5;
              ctv_channel_signature_is_valid := true; ctv_name := [97] |}.
Proof. split; vm_compute; reflexivity. Qed.

(** C7, amended.  When [data] holds the 23 + name_len octets that its
    length prefix states, octets appended to it are ignored by
    [unpack_value]: the result is that of [data] alone, and the name is
    decoded from exactly name_len octets. *)
Theorem claim_to_txo_unpack_ignores_trailing_bytes (data extra : bytes) :
  let name_len := Z.to_nat (from_bytes (slice data 21 23)) in
  (23 + name_len <= length data)%nat ->
  ClaimToTXOPrefixRow.unpack_value (data ++ extra)
    = ClaimToTXOPrefixRow.unpack_value data /\
  length (slice (data ++ extra) 23 (23 + name_len)) = name_len.
Proof.
  intros name_len Hlen. split.
  - unfold ClaimToTXOPrefixRow.unpack_value.
    rewrite (slice_app_le data extra 0 21) by lia.
    rewrite (slice_app_le data extra 21 23) by lia.
    fold name_len.
    rewrite (slice_app_le data extra 23 (23 + name_len)) by lia. done.
  - rewrite slice_app_le by lia. unfold slice.
    rewrite length_take, length_drop. lia.
Qed.

Lemma claim_to_txo_unpack_ignores_trailing_bytes_witness :
  let data := [0; 0; 0; 1; 0; 0; 0; 0; 0; 1; 0; 0; 0; 0; 0; 0; 0; 0; 0; 5;
               1; 0; 1; 97] in
  ClaimToTXOPrefixRow.unpack_value (data ++ [255; 238])
    = ClaimToTXOPrefixRow.unpack_value data /\
  length (slice (data ++ [255; 238]) 23 (23 + 1)) = 1%nat.
Proof.
  intros data.
  apply (claim_to_txo_unpack_ignores_trailing_bytes data [255; 238]).
  vm_compute. lia.
Defined.

(** *** db_state: the legacy record and the size of the new one *)

Lemma length_pack_one c a b : pack_one c a = Some b -> length b = fmt_size c.
Proof.
  destruct c as [n| | | | |]; destruct a as [z|x|x]; cbn [pack_one pack_uint fmt_size];
    try done.
  - intros [= <-]. rewrite length_app, length_take, length_replicate. lia.
  - intros [-> _]%to_bytes_inv. apply length_be_bytes.
  - intros [-> _]%to_bytes_inv. apply length_be_bytes.
  - intros [-> _]%to_bytes_inv. apply length_be_bytes.
  - intros [-> _]%to_bytes_inv. apply length_be_bytes.
  - destruct (_ && _); [|done]. intros [= <-]. done.
Qed.

(** A packed record has exactly the size of its layout. *)
Lemma length_struct_pack f args b :
  struct_pack f args = Some b -> length b = calcsize f.
Proof.
  revert args b. induction f as [|c f IH]; intros [|a args] b; cbn [struct_pack];
    try done.
  - by intros [= <-].
  - destruct (pack_one c a) as [x|] eqn:Hx; [|done].
    destruct (struct_pack f args) as [r|] eqn:Hr; [|done].
    intros [= <-]. rewrite length_app.
    rewrite (length_pack_one _ _ _ Hx), (IH _ _ Hr). done.
Qed.

(** C8.  A 94-octet legacy record is unpacked as the 98-octet record made
    by appending its octets [32:36]: the result exists and its
    es_sync_height is its height.  [pack_value] packs every admissible
    combination of fields, and the result has 98 octets. *)
Theorem db_state_legacy_shim_and_new_size
    (data g t : bytes) (h tc ufc wt dv hfc cfc cc esh : Z) (cu : bool) :
  length data = 94%nat ->
  u32 h -> u32 tc -> u32 ufc -> u32 wt -> u8 dv ->
  i32 hfc -> i32 cfc -> i32 cc -> u32 esh ->
  DBStatePrefixRow.unpack_value data
    = DBStatePrefixRow.unpack_value (data ++ slice data 32 36) /\
  (exists st, DBStatePrefixRow.unpack_value data = Some st /\
              es_sync_height st = height st) /\
  (exists b, DBStatePrefixRow.pack_value g h tc t ufc wt cu dv hfc cfc cc esh = Some b /\
             length b = 98%nat).
Proof.
  intros Hlen Hh Htc Hufc Hwt Hdv Hhfc Hcfc Hcc Hesh.
  assert (length (data ++ slice data 32 36) = 98%nat) as Hlen'.
  { unfold slice. rewrite length_app, length_take, length_drop. lia. }
  split; [|split].
  - unfold DBStatePrefixRow.unpack_value at 2.
    rewrite decide_False by lia.
    unfold DBStatePrefixRow.unpack_value. rewrite decide_True by done. done.
  - unfold DBStatePrefixRow.unpack_value, PrefixRow.unpack_value, struct_unpack.
    cbv zeta. rewrite (decide_True (P := length data = 94%nat)) by done.
    rewrite decide_True by (rewrite Hlen'; reflexivity).
    cbn [DBStatePrefixRow.value_struct unpack_fields unpack_one fmt_size].
    eexists. split; [done|]. cbn [es_sync_height height].
    rewrite !drop_drop. cbn [Nat.add]. f_equal.
    unfold slice. cbn [Nat.sub].
    rewrite (drop_app_le _ _ 32) by lia.
    rewrite take_app_le by (rewrite length_drop; lia).
    rewrite drop_app_length' by lia.
    rewrite take_ge; [done|]. rewrite length_take, length_drop. lia.
  - unfold DBStatePrefixRow.pack_value, PrefixRow.pack_value.
    destruct (struct_pack _ _) as [b|] eqn:Hb.
    + eexists. split; [done|]. by apply length_struct_pack in Hb.
    + exfalso. revert Hb.
      unfold DBStatePrefixRow.value_struct, u32, u8, i32 in *.
      cbn [struct_pack pack_one pack_uint].
      rewrite !to_bytes_Some by (cbn; first [lia | destruct cu; lia]).
      destruct (Z.leb_spec (-2147483648) hfc), (Z.leb_spec hfc 2147483647); try lia.
      destruct (Z.leb_spec (-2147483648) cfc), (Z.leb_spec cfc 2147483647); try lia.
      destruct (Z.leb_spec (-2147483648) cc), (Z.leb_spec cc 2147483647); try lia.
      done.
Qed.

Lemma db_state_legacy_shim_and_new_size_witness :
  let data := replicate 32 7 ++ [0; 0; 1; 44] ++ replicate 58 1 in
  DBStatePrefixRow.unpack_value data
    = DBStatePrefixRow.unpack_value (data ++ slice data 32 36) /\
  (exists st, DBStatePrefixRow.unpack_value data = Some st /\
              es_sync_height st = height st) /\
  (exists b, DBStatePrefixRow.pack_value
               (replicate 32 7) 300 9 (replicate 32 8) 1 2 true 7 (-1) 0 0 300 = Some b /\
             length b = 98%nat).
Proof.
  intros data.
  apply db_state_legacy_shim_and_new_size;
    unfold u32, u8, i32; try lia.
  reflexivity.
Defined.

End PrefixesSpec.

(** ** Properties of the claim model *)

Module AttrsSpec.
Import Attrs.

(** *** Equality of protobuf values *)

Lemma vsize_struct_lt (fs : gmap string Value) k x :
  fs !! k = Some x -> (vsize x < vsize (struct_value fs))%nat.
Proof.
  intros Hx. cbn [vsize]. rewrite map_fold_foldr.
  apply elem_of_map_to_list in Hx.
  induction (map_to_list fs) as [|[k' y] l IH]; [by apply elem_of_nil in Hx|].
  cbn [foldr uncurry]. apply elem_of_cons in Hx as [[= <- <-]|Hx]; [lia|].
  specialize (IH Hx). cbn [uncurry] in IH. lia.
Qed.

Lemma vsize_list_lt vs x :
  x ∈ vs -> (vsize x < vsize (list_value vs))%nat.
Proof.
  intros Hx. cbn [vsize].
  induction vs as [|y vs IH]; [by apply elem_of_nil in Hx|].
  cbn [foldr]. apply elem_of_cons in Hx as [<-|Hx]; [lia|].
  specialize (IH Hx). lia.
Qed.

(** Induction over values, through the maps and lists they nest. *)
Lemma Value_ind' (P : Value -> Prop) :
  P kind_unset -> P null_value ->
  (forall n, P (number_value n)) ->
  (forall s, P (string_value s)) ->
  (forall b, P (bool_value b)) ->
  (forall fs, map_Forall (fun _ x => P x) fs -> P (struct_value fs)) ->
  (forall vs, Forall P vs -> P (list_value vs)) ->
  forall v, P v.
Proof.
  intros Hu Hn Hnum Hs Hb Hst Hl v.
  remember (vsize v) as n eqn:Hn'. revert v Hn'.
  induction n as [n IH] using lt_wf_ind. intros v ->.
  destruct v as [| | | | |fs|vs]; auto.
  - apply Hst. intros k x Hx. eapply IH; [|done]. by eapply vsize_struct_lt.
  - apply Hl. apply Forall_forall. intros x Hx. eapply IH; [|done].
    by apply vsize_list_lt.
Qed.

Lemma fold_fields_eqb (f : Value -> Value -> bool) (fs gs : gmap string Value) :
  map_fold (fun k x acc =>
              match gs !! k with
              | Some y => f x y && acc
              | None => false
              end) true fs = true
  <-> forall k x, fs !! k = Some x -> exists y, gs !! k = Some y /\ f x y = true.
Proof.
  rewrite map_fold_foldr.
  assert (forall l : list (string * Value),
            foldr (uncurry (fun k x acc =>
                              match gs !! k with
                              | Some y => f x y && acc
                              | None => false
                              end)) true l = true
            <-> forall k x, (k, x) ∈ l ->
                            exists y, gs !! k = Some y /\ f x y = true) as Hl.
  { induction l as [|[k x] l IH]; cbn [foldr uncurry].
    - split; [|done]. intros _ k x Hx. by apply elem_of_nil in Hx.
    - split.
      + intros H k' x' Hin.
        destruct (gs !! k) as [y|] eqn:Hy; [|done].
        apply andb_true_iff in H as [Hf Hrest].
        apply elem_of_cons in Hin as [Heq|Hin].
        * injection Heq as -> ->. by exists y.
        * exact (proj1 IH Hrest k' x' Hin).
      + intros H.
        destruct (H k x) as (y & -> & Hf); [left|].
        rewrite Hf. cbn [andb]. apply (proj2 IH).
        intros k' x' Hin. apply H. by right. }
  rewrite Hl. split; intros H k x Hx; apply H; by apply elem_of_map_to_list.
Qed.

(** [Value_eqb] decides equality. *)
Lemma Value_eqb_eq v o : Value_eqb v o = true <-> v = o.
Proof.
  revert o. induction v as [| | n | s | b | fs IH | vs IH] using Value_ind';
    intros o.
  - destruct o; cbn; split; congruence.
  - destruct o; cbn; split; congruence.
  - destruct o; cbn; rewrite ?bool_decide_eq_true; split; congruence.
  - destruct o; cbn; rewrite ?bool_decide_eq_true; split; congruence.
  - destruct o; cbn; rewrite ?bool_decide_eq_true; split; congruence.
  - destruct o as [| | | | |gs|]; try (cbn; split; congruence).
    cbn [Value_eqb]. rewrite andb_true_iff, bool_decide_eq_true, fold_fields_eqb.
    split.
    + intros [Hdom Hall]. f_equal. apply map_eq. intros k.
      destruct (fs !! k) as [x|] eqn:Hx.
      * destruct (Hall k x Hx) as (y & -> & Hxy). f_equal.
        exact (proj1 (IH k x Hx y) Hxy).
      * symmetry. apply not_elem_of_dom. rewrite <- Hdom. by apply not_elem_of_dom.
    + intros [= <-]. split; [done|]. intros k x Hx. exists x. split; [done|].
      exact (proj2 (IH k x Hx x) eq_refl).
  - destruct o as [| | | | | |ws]; try (cbn; split; congruence).
    cbn [Value_eqb].
    revert ws. induction IH as [|x vs Hx _ IHvs]; intros [|y ws];
      try (split; congruence).
    rewrite andb_true_iff, Hx, IHvs. split; [intros [-> [= ->]]; done|].
    intros [= -> ->]. done.
Qed.

(** The search of a list finds the first element equal to [o]. *)
Lemma find_equal_Some o values i :
  find_equal o values = Some i ->
  values !! i = Some o /\ forall j x, (j < i)%nat -> values !! j = Some x -> x <> o.
Proof.
  revert i. induction values as [|v values IH]; intros i; cbn [find_equal]; [done|].
  destruct (Value_eqb v o) eqn:Hv.
  - intros [= <-]. apply Value_eqb_eq in Hv as ->. split; [done|]. lia.
  - destruct (find_equal o values) as [i'|]; [|done]. intros [= <-].
    destruct (IH i' eq_refl) as [Hi Hbefore]. split; [done|].
    intros [|j] x Hj; cbn.
    + intros [= <-] ->. assert (Value_eqb o o = true) by (by apply Value_eqb_eq).
      congruence.
    + apply Hbefore. lia.
Qed.

(** *** One round of the loop, field by field *)

Section Rounds.
Variable recur : Message -> PyObj -> bool -> Message * option exn.
Variable del : bool.
Hypothesis recur_raises :
  forall s x, recur s (Proto x) del = (s, Some AttributeError).

Lemma merge_item_spec (f : gmap string Value) k v :
  Struct.merge_item recur del (PbStruct f) k v
  = (PbStruct (partial_alter (fun _ => (field_step del (f !! k) v).1) k f),
     (field_step del (f !! k) v).2).
Proof.
  assert (forall w, f !! k = Some w -> partial_alter (fun _ => Some w) k f = f)
    as Hid by (intros w Hw; exact (insert_id f k w Hw)).
  unfold Struct.merge_item, field_step. cbn [getattr_fields].
  destruct (f !! k) as [w|] eqn:Hw.
  - cbv zeta.
    destruct (decide (WhichOneof v <> WhichOneof w)) as [|Hk];
      [cbn [fst snd]; by rewrite Hid|].
    destruct (WhichOneof v) as [[]|].
    5: { destruct (decide _).
         - rewrite recur_raises. cbn [as_value fst snd].
           change (partial_alter (fun _ => Some w) k f) with (<[k:=w]> f). done.
         - destruct del; cbn [fst snd]; [done|by rewrite Hid]. }
    5: { destruct (decide _); [done|].
         destruct del; cbn [fst snd]; [done|by rewrite Hid]. }
    all: destruct (getattr_kind w), (getattr_kind v); cbn [fst snd];
      try (by rewrite Hid); destruct (decide _); cbn [fst snd];
      by rewrite ?Hid.
  - destruct del; cbn [fst snd]; [|done].
    f_equal. f_equal. symmetry. exact (delete_id f k Hw).
Qed.

(** A property of the fields that every round keeps holds at the end,
    whether the loop ends normally or by an exception. *)
Lemma merge_items_invariant (P : gmap string Value -> Prop) items :
  (forall f k v, (k, v) ∈ items -> P f ->
      P (partial_alter (fun _ => (field_step del (f !! k) v).1) k f)) ->
  forall f, P f ->
    exists f', (Struct.merge_items recur del (PbStruct f) items).1 = PbStruct f'
               /\ P f'.
Proof.
  induction items as [|[k v] items IH]; intros Hstep f Hf.
  - cbn. eauto.
  - cbn [Struct.merge_items]. rewrite merge_item_spec.
    assert (P (partial_alter (fun _ => (field_step del (f !! k) v).1) k f)) as Hf'
      by (apply Hstep; [left|done]).
    destruct (field_step del (f !! k) v).2.
    + cbn. eauto.
    + apply IH; [|done]. intros f0 k0 v0 Hin. apply Hstep. by right.
Qed.

(** When no round raises, the loop ends normally and every field is
    what its own round made of it. *)
Lemma merge_items_spec items :
  NoDup items.*1 ->
  forall f,
    (forall k v, (k, v) ∈ items -> (field_step del (f !! k) v).2 = None) ->
    exists f',
      Struct.merge_items recur del (PbStruct f) items = (PbStruct f', None) /\
      forall k, f' !! k =
                match (list_to_map items : gmap string Value) !! k with
                | Some v => (field_step del (f !! k) v).1
                | None => f !! k
                end.
Proof.
  induction items as [|[k v] items IH]; intros Hnd f Hok.
  - cbn. eauto.
  - apply NoDup_cons in Hnd as [Hk Hnd].
    cbn [Struct.merge_items]. rewrite merge_item_spec.
    rewrite (Hok k v) by left.
    set (f1 := partial_alter (fun _ => (field_step del (f !! k) v).1) k f).
    assert (forall k', k' <> k -> f1 !! k' = f !! k') as Hne
      by (intros k' ?; unfold f1; by rewrite lookup_partial_alter_ne).
    destruct (IH Hnd f1) as (f' & Hrun & Hf').
    { intros k' v' Hin. rewrite Hne; [apply Hok; by right|].
      intros ->. apply Hk. apply list_elem_of_fmap. by exists (k, v'). }
    exists f'. split; [done|]. intros k'. rewrite Hf'.
    cbn [list_to_map foldr uncurry]. fold (list_to_map (M := gmap string Value) items).
    destruct (decide (k' = k)) as [->|Hkk].
    + rewrite lookup_insert_eq.
      rewrite (not_elem_of_list_to_map_1 items k) by done.
      unfold f1. by rewrite lookup_partial_alter_eq.
    + rewrite lookup_insert_ne by done. by rewrite Hne.
Qed.
End Rounds.

(** *** Struct.merge as a whole *)

Lemma merge_at_Proto d s x del :
  Struct.merge_at (S d) s (Proto x) del = (s, Some AttributeError).
Proof. reflexivity. Qed.

Lemma merge_unfold c m del :
  Struct.merge c m del
  = let '(s, e) :=
      Struct.merge_items (Struct.merge_at 999) del (PbStruct c) (map_to_list m) in
    (default c (match getattr_fields s with inr f => Some f | inl _ => None end), e).
Proof. reflexivity. Qed.

(** The nested call of the code always raises: a modifier holding a
    non-empty map under a key where the target holds a map makes the
    merge end with AttributeError, the field being left as it was. *)
Lemma field_step_nested del (cs ms : gmap string Value) :
  ms <> ∅ ->
  field_step del (Some (struct_value cs)) (struct_value ms)
  = (Some (struct_value cs), Some AttributeError).
Proof.
  intros Hne. unfold field_step. cbn [WhichOneof struct_fields].
  rewrite decide_False by (intros H; by apply H).
  rewrite decide_True; [done|].
  apply map_size_non_empty_iff in Hne. lia.
Qed.

Lemma merge_invariant (P : gmap string Value -> Prop) c m del :
  (forall f k v, m !! k = Some v -> P f ->
      P (partial_alter (fun _ => (field_step del (f !! k) v).1) k f)) ->
  P c -> P (Struct.merge c m del).1.
Proof.
  intros Hstep Hc. rewrite merge_unfold.
  destruct (merge_items_invariant (Struct.merge_at 999) del
              (fun s x => merge_at_Proto 998 s x del) P (map_to_list m))
    with (f := c) as (f' & Hrun & Hf'); [|done|].
  { intros f k v Hin. apply Hstep. by apply elem_of_map_to_list. }
  destruct (Struct.merge_items _ _ _ _) as [s e]. cbn [fst] in *. subst s.
  done.
Qed.

Lemma merge_spec c m del :
  (forall k v, m !! k = Some v -> (field_step del (c !! k) v).2 = None) ->
  exists f',
    Struct.merge c m del = (f', None) /\
    forall k, f' !! k = match m !! k with
                        | Some v => (field_step del (c !! k) v).1
                        | None => c !! k
                        end.
Proof.
  intros Hok. rewrite merge_unfold.
  destruct (merge_items_spec (Struct.merge_at 999) del
              (fun s x => merge_at_Proto 998 s x del) (map_to_list m)
              (NoDup_fst_map_to_list m) c) as (f' & Hrun & Hf').
  { intros k v Hin. apply Hok. by apply elem_of_map_to_list. }
  rewrite Hrun. exists f'. split; [done|].
  intros k. rewrite Hf', list_to_map_to_list. done.
Qed.

(** The bound on the call depth plays no role: two frames are enough. *)
Lemma merge_items_recur_irrelevant r1 r2 del items f :
  (forall s x, r1 s (Proto x) del = (s, Some AttributeError)) ->
  (forall s x, r2 s (Proto x) del = (s, Some AttributeError)) ->
  Struct.merge_items r1 del (PbStruct f) items
  = Struct.merge_items r2 del (PbStruct f) items.
Proof.
  intros H1 H2. revert f. induction items as [|[k v] items IH]; intros f; [done|].
  cbn [Struct.merge_items]. rewrite !merge_item_spec by done.
  destruct (field_step del (f !! k) v).2; [done|]. apply IH.
Qed.

Lemma merge_at_depth d c m del :
  Struct.merge_at (S (S d)) (PbStruct c) (StructWrapper (PbStruct m)) del
  = Struct.merge_at Struct.recursion_limit (PbStruct c) (StructWrapper (PbStruct m)) del.
Proof.
  change Struct.recursion_limit with (S (S 998)).
  change (Struct.merge_items (Struct.merge_at (S d)) del (PbStruct c) (map_to_list m)
          = Struct.merge_items (Struct.merge_at (S 998)) del (PbStruct c)
              (map_to_list m)).
  apply merge_items_recur_irrelevant; intros s x; apply merge_at_Proto.
Qed.

(** A round that raises ends the merge with an exception. *)
Lemma merge_raises c m del k v :
  m !! k = Some v ->
  (field_step del (c !! k) v).2 <> None ->
  (Struct.merge c m del).2 <> None.
Proof.
  intros Hm Hraise. rewrite merge_unfold.
  assert (forall items f,
            NoDup items.*1 -> (k, v) ∈ items -> f !! k = c !! k ->
            (Struct.merge_items (Struct.merge_at 999) del (PbStruct f) items).2
            <> None) as Hitems.
  { induction items as [|[k0 v0] items IH]; intros f Hnd Hin Hf.
    - by apply elem_of_nil in Hin.
    - apply NoDup_cons in Hnd as [Hk0 Hnd].
      cbn [Struct.merge_items].
      rewrite (merge_item_spec _ _ (fun s x => merge_at_Proto 998 s x del)).
      destruct (field_step del (f !! k0) v0).2 as [e|] eqn:He; [done|].
      apply elem_of_cons in Hin as [[= <- <-]|Hin].
      + rewrite Hf in He. done.
      + apply IH; [done|done|].
        rewrite lookup_partial_alter_ne; [done|].
        intros ->. apply Hk0. apply list_elem_of_fmap. by exists (k, v). }
  specialize (Hitems (map_to_list m) c (NoDup_fst_map_to_list m)
                (proj2 (elem_of_map_to_list m k v) Hm) eq_refl).
  by destruct (Struct.merge_items _ _ _ _).
Qed.

(** In particular the nested call: two maps under one key, the one of
    the modifier not empty, and the merge raises. *)
Lemma merge_nested_raises c m del k (cs ms : gmap string Value) :
  c !! k = Some (struct_value cs) -> m !! k = Some (struct_value ms) -> ms <> ∅ ->
  (Struct.merge c m del).2 <> None.
Proof.
  intros Hc Hm Hne. apply (merge_raises c m del k _ Hm).
  by rewrite Hc, field_step_nested.
Qed.

Lemma variant_WhichOneof v w :
  variant_of v <> variant_of w -> WhichOneof v <> WhichOneof w.
Proof. intros Hv Hk. apply Hv. by destruct v, w. Qed.

(** *** Mismatched variants *)

(** C6.  When the target and the modifier hold, under one key or at the
    end of one path of keys through nested maps, values of different
    variants (scalar, list, map), the merge, in add mode and in delete
    mode, leaves that field of the target as it was. *)
Theorem merge_keeps_mismatched_field c m del p v w :
  p <> [] ->
  lookup_path p (struct_value c) = Some v ->
  lookup_path p (struct_value m) = Some w ->
  variant_of v <> variant_of w ->
  lookup_path p (struct_value (Struct.merge c m del).1) = Some v.
Proof.
  intros Hp Hc Hm Hvar.
  destruct p as [|k p]; [done|]. cbn [lookup_path] in *.
  destruct (c !! k) as [vc|] eqn:Hck; [|done].
  destruct (m !! k) as [vm|] eqn:Hmk; [|done].
  assert ((field_step del (Some vc) vm).1 = Some vc) as Hstep.
  { destruct p as [|k2 p].
    - cbn [lookup_path] in *. simplify_eq.
      unfold field_step.
      rewrite decide_True by (by apply not_eq_sym, variant_WhichOneof, not_eq_sym).
      done.
    - cbn [lookup_path] in *.
      destruct vc as [| | | | |cs|]; try done.
      destruct vm as [| | | | |ms|]; try done.
      rewrite field_step_nested; [done|].
      intros ->. by rewrite lookup_empty in Hm. }
  assert ((Struct.merge c m del).1 !! k = Some vc) as ->; [|done].
  apply (merge_invariant (fun f => f !! k = Some vc)); [|done].
  intros f k0 v0 Hm0 Hf.
  destruct (decide (k0 = k)) as [->|Hne].
  - rewrite lookup_partial_alter_eq. rewrite Hf. by simplify_eq.
  - by rewrite lookup_partial_alter_ne.
Qed.

Lemma merge_keeps_mismatched_field_witness :
  lookup_path ["s"; "k"]
    (struct_value
       (Struct.merge {["s" := struct_value {["k" := list_value [string_value "x"]]}]}
          {["s" := struct_value {["k" := string_value "x"]}]} true).1)
  = Some (list_value [string_value "x"]).
Proof.
  apply (merge_keeps_mismatched_field _ _ true ["s"; "k"] _ (string_value "x")).
  - done.
  - reflexivity.
  - reflexivity.
  - cbn. discriminate.
Defined.

(** *** Applying a modifier twice *)

Lemma scalar_same_kind v w a b :
  WhichOneof v = WhichOneof w ->
  getattr_kind w = inr a -> getattr_kind v = inr b ->
  a = b <-> v = w.
Proof.
  destruct v, w; cbn; try done; intros _ [= <-] [= <-]; split; congruence.
Qed.

Lemma is_scalar_getattr v : is_scalar v -> exists b, getattr_kind v = inr b.
Proof. destruct v; cbn; try done; eauto. Qed.

Lemma is_scalar_same_kind v w :
  is_scalar v -> WhichOneof v = WhichOneof w -> is_scalar w.
Proof. by destruct v, w. Qed.

Lemma field_step_scalar del v w :
  is_scalar v -> WhichOneof v = WhichOneof w ->
  (v = w /\ field_step del (Some w) v = (None, None)) \/
  (v <> w /\ field_step del (Some w) v = (Some w, None)).
Proof.
  intros Hv Hk. pose proof (is_scalar_same_kind _ _ Hv Hk) as Hw.
  destruct (is_scalar_getattr _ Hv) as [b Hb].
  destruct (is_scalar_getattr _ Hw) as [a Ha].
  pose proof (scalar_same_kind _ _ _ _ Hk Ha Hb) as Hab.
  unfold field_step. rewrite decide_False by (intros H; by apply H).
  rewrite Ha, Hb.
  assert (match WhichOneof v with
          | Some K_struct_value | Some K_list_value => False
          | _ => True
          end) as Hkind by (by destruct v).
  destruct (WhichOneof v) as [[]|]; try done;
    destruct (decide (a = b)); tauto.
Qed.

Lemma field_step_add_settled mine v :
  is_empty_container v \/
    (exists w, mine = Some w /\
               (WhichOneof v <> WhichOneof w \/ (is_scalar v /\ v <> w))) ->
  field_step false mine v = (Some (default v mine), None) /\
  field_step false (Some (default v mine)) v = (Some (default v mine), None).
Proof.
  intros [[-> | ->] | (w & -> & [Hk | [Hv Hne]])].
  - destruct mine as [w|]; cbn [default field_step].
    + destruct (decide _); [done|]. cbn. done.
    + cbn. done.
  - destruct mine as [w|]; cbn [default field_step].
    + destruct (decide _); [done|]. cbn. done.
    + cbn. done.
  - cbn [default]. unfold field_step. by rewrite !decide_True.
  - cbn [default].
    destruct (decide (WhichOneof v = WhichOneof w)) as [Hk|Hk].
    + destruct (field_step_scalar false v w Hv Hk) as [[Heq _]|[_ Hst]];
        [by destruct Hne|]. by rewrite Hst.
    + unfold field_step. by rewrite !decide_True.
Qed.

(** C2 as stated fails: a scalar equal on both sides is removed by the
    first merge(add) and put back by the second. *)
Lemma merge_add_twice_differs :
  let c : gmap string Value := {["a" := number_value 1]} in
  let m : gmap string Value := {["a" := number_value 1]} in
  Struct.merge c m false = (∅, None) /\
  Struct.merge (Struct.merge c m false).1 m false = (m, None) /\
  Struct.merge (Struct.merge c m false).1 m false <> Struct.merge c m false.
Proof.
  intros c m.
  assert (Struct.merge c m false = (∅, None)) as H1 by (vm_compute; reflexivity).
  assert (Struct.merge ∅ m false = (m, None)) as H2 by (vm_compute; reflexivity).
  rewrite H1. cbn [fst]. rewrite H2.
  split; [reflexivity|]. split; [reflexivity|].
  intros H. apply (f_equal (fun r => r.1 !! "a")) in H.
  vm_compute in H. discriminate.
Qed.

(** C2, amended.  On the modifiers each field of which is an empty list
    or map, or meets in [c] a field of another kind or a different
    scalar of its kind, merge(add) returns normally and a second
    merge(add) of the same modifier changes nothing. *)
Theorem merge_add_idempotent_when_settled c m :
  settled c m ->
  exists c',
    Struct.merge c m false = (c', None) /\
    Struct.merge c' m false = (c', None).
Proof.
  intros Hs.
  assert (forall k v, m !! k = Some v ->
            field_step false (c !! k) v = (Some (default v (c !! k)), None) /\
            field_step false (Some (default v (c !! k))) v
            = (Some (default v (c !! k)), None)) as Hstep.
  { intros k v Hm. apply field_step_add_settled.
    destruct (Hs k v Hm) as [?|(w & ? & ?)]; eauto. }
  destruct (merge_spec c m false) as (c' & Hrun & Hc').
  { intros k v Hm. by rewrite (proj1 (Hstep k v Hm)). }
  exists c'. split; [done|].
  destruct (merge_spec c' m false) as (c'' & Hrun' & Hc'').
  { intros k v Hm. rewrite Hc', Hm, (proj1 (Hstep k v Hm)). cbn [fst].
    by rewrite (proj2 (Hstep k v Hm)). }
  rewrite Hrun'. f_equal. apply map_eq. intros k. rewrite Hc''.
  destruct (m !! k) as [v|] eqn:Hm; [|done].
  rewrite Hc', Hm, (proj1 (Hstep k v Hm)). cbn [fst].
  by rewrite (proj2 (Hstep k v Hm)).
Qed.

Lemma merge_add_idempotent_when_settled_witness :
  exists c',
    Struct.merge {["a" := number_value 1; "b" := list_value [string_value "x"]]}
      {["a" := number_value 2; "b" := string_value "y"; "l" := list_value []]} false
    = (c', None) /\
    Struct.merge c'
      {["a" := number_value 2; "b" := string_value "y"; "l" := list_value []]} false
    = (c', None).
Proof.
  apply merge_add_idempotent_when_settled.
  intros k v Hm.
  destruct (decide (k = "a")) as [->|Ha].
  { right. exists (number_value 1). vm_compute in Hm. simplify_eq.
    split; [reflexivity|]. right. split; [reflexivity|discriminate]. }
  destruct (decide (k = "b")) as [->|Hb].
  { right. exists (list_value [string_value "x"]). vm_compute in Hm. simplify_eq.
    split; [reflexivity|]. left. discriminate. }
  left. left.
  rewrite lookup_insert_ne, lookup_insert_ne in Hm by done.
  apply lookup_singleton_Some in Hm as [_ <-]. done.
Defined.

(** *** Deleting, then adding again *)

Lemma field_step_delete_add w v :
  WhichOneof v <> WhichOneof w \/ is_scalar v ->
  exists x, field_step true (Some w) v = (x, None) /\
            field_step false x v = (Some w, None).
Proof.
  intros H.
  destruct (decide (WhichOneof v = WhichOneof w)) as [Hk|Hk].
  - destruct H as [?|Hv]; [done|].
    destruct (field_step_scalar true v w Hv Hk) as [[-> ->]|[Hne ->]].
    + exists None. done.
    + exists (Some w). split; [done|].
      destruct (field_step_scalar false v w Hv Hk) as [[Heq _]|[_ Hst]];
        [by destruct Hne|done].
  - exists (Some w). unfold field_step. by rewrite !decide_True.
Qed.

(** C5 as stated fails: a field of the modifier that the claim lacks
    survives the deletion and is added afterwards; and a list element that
    is deleted and added again moves to the end of its list. *)
Lemma merge_delete_then_add_differs :
  (let c : gmap string Value := {["a" := number_value 1]} in
   let m : gmap string Value := {["b" := number_value 2]} in
   Struct.merge c m true = (c, None) /\
   Struct.merge (Struct.merge c m true).1 m false
   = ({["a" := number_value 1; "b" := number_value 2]}, None) /\
   (Struct.merge (Struct.merge c m true).1 m false).1 <> c) /\
  (let c : gmap string Value :=
     {["b" := list_value [string_value "x"; string_value "y"]]} in
   let m : gmap string Value := {["b" := list_value [string_value "x"]]} in
   Struct.merge c m true = ({["b" := list_value [string_value "y"]]}, None) /\
   Struct.merge (Struct.merge c m true).1 m false
   = ({["b" := list_value [string_value "y"; string_value "x"]]}, None) /\
   (Struct.merge (Struct.merge c m true).1 m false).1 <> c).
Proof.
  split; intros c m.
  - split; [vm_compute; reflexivity|]. split; [vm_compute; reflexivity|].
    intros H. apply (f_equal (fun f => f !! "b")) in H. vm_compute in H. discriminate.
  - split; [vm_compute; reflexivity|]. split; [vm_compute; reflexivity|].
    intros H. apply (f_equal (fun f => f !! "b")) in H. vm_compute in H. discriminate.
Qed.

(** C5, amended.  On the modifiers each field of which meets in [c] a
    field of another kind, or is a scalar and meets a field of [c],
    merge(delete) followed by merge(add) of the same modifier returns
    normally and restores [c]. *)
Theorem merge_delete_then_add_restores c m :
  scalar_overlay c m ->
  exists c1,
    Struct.merge c m true = (c1, None) /\
    Struct.merge c1 m false = (c, None).
Proof.
  intros Hs.
  assert (forall k v, m !! k = Some v ->
            exists w x, c !! k = Some w /\
                        field_step true (c !! k) v = (x, None) /\
                        field_step false x v = (Some w, None)) as Hstep.
  { intros k v Hm. destruct (Hs k v Hm) as (w & Hw & H).
    destruct (field_step_delete_add w v H) as (x & H1 & H2).
    exists w, x. by rewrite Hw. }
  destruct (merge_spec c m true) as (c1 & Hrun & Hc1).
  { intros k v Hm. destruct (Hstep k v Hm) as (w & x & _ & -> & _). done. }
  exists c1. split; [done|].
  destruct (merge_spec c1 m false) as (c2 & Hrun' & Hc2).
  { intros k v Hm. destruct (Hstep k v Hm) as (w & x & _ & H1 & H2).
    rewrite Hc1, Hm, H1. cbn [fst]. by rewrite H2. }
  rewrite Hrun'. f_equal. apply map_eq. intros k. rewrite Hc2.
  destruct (m !! k) as [v|] eqn:Hm.
  - destruct (Hstep k v Hm) as (w & x & Hw & H1 & H2).
    rewrite Hc1, Hm, H1. cbn [fst]. by rewrite H2, Hw.
  - by rewrite Hc1, Hm.
Qed.

Lemma merge_delete_then_add_restores_witness :
  exists c1,
    Struct.merge {["a" := number_value 1; "b" := list_value [string_value "x"]]}
      {["a" := number_value 1; "b" := string_value "y"]} true = (c1, None) /\
    Struct.merge c1 {["a" := number_value 1; "b" := string_value "y"]} false
    = ({["a" := number_value 1; "b" := list_value [string_value "x"]]}, None).
Proof.
  apply merge_delete_then_add_restores.
  intros k v Hm.
  destruct (decide (k = "a")) as [->|Ha].
  { exists (number_value 1). vm_compute in Hm. simplify_eq.
    split; [reflexivity|]. right. reflexivity. }
  rewrite lookup_insert_ne in Hm by done.
  apply lookup_singleton_Some in Hm as [<- <-].
  exists (list_value [string_value "x"]).
  split; [reflexivity|]. left. discriminate.
Defined.

(** *** Applying a modification to a reposted claim *)

(** C10.  [apply] leaves the message of the reposted claim as it was.
    Unless the modification and the reposted claim are both of type
    stream, the heap is unchanged and the claim passed in is returned.
    When both are streams, the deletions and then the edits are merged
    into the extension map of a copy at a fresh address; that copy is
    returned, or the exception of a merge is raised. *)
Theorem apply_keeps_reposted self_message reposted (h : gmap loc ClaimMessage) msg :
  h !! reposted = Some msg ->
  let both_streams :=
    ModifyingClaimReference.modification_type self_message = Some "stream" /\
    claim_type msg = Some "stream" in
  let h' := (ModifyingClaimReference.apply self_message reposted h).1 in
  let r := (ModifyingClaimReference.apply self_message reposted h).2 in
  h' !! reposted = Some msg /\
  (~ both_streams -> h' = h /\ r = inr reposted) /\
  (both_streams ->
     exists stream mods,
       type_ msg = Some (T_stream stream) /\
       mod_type self_message = Some (M_stream mods) /\
       let m := fresh (dom h) in
       let merged := ModifyingClaimReference.apply_mods mods (extensions stream) in
       m <> reposted /\ h !! m = None /\
       h' = <[m := {| type_ := Some (T_stream
                                      {| extensions := merged.1;
                                         stream_fields := stream_fields stream |});
                      claim_fields := claim_fields msg |}]> h /\
       r = match merged.2 with None => inr m | Some e => inl e end).
Proof.
  intros Hmsg both_streams h' r. subst both_streams h' r.
  assert (h !! fresh (dom h) = None) as Hfresh
    by (apply not_elem_of_dom, is_fresh).
  assert (fresh (dom h) <> reposted) as Hne by (intros Heq; congruence).
  unfold ModifyingClaimReference.apply, ModifyingClaimReference.modification_type,
    claim_type.
  rewrite Hmsg.
  destruct (mod_type self_message) as [[mods| | |]|] eqn:Hmod;
    destruct (type_ msg) as [[stream|f|f|f]|] eqn:Htype;
    cbn [ModifyingClaimReference.truthy];
    rewrite ?bool_decide_eq_true_2 by done;
    rewrite ?bool_decide_eq_false_2 by done;
    cbn [negb orb fst snd];
    try (split; [done|]; split; [done|]; intros [[=] [=]]).
  destruct (ModifyingClaimReference.apply_mods mods (extensions stream))
    as [exts e] eqn:Hmerge.
  assert (forall (x : ClaimMessage),
            <[fresh (dom h) := x]> (<[fresh (dom h) := msg]> h)
            = <[fresh (dom h) := x]> h) as Hii
    by (intros x; apply insert_insert_eq).
  destruct e as [e|]; cbn [fst snd]; rewrite Hii.
  all: change (bool_decide (Some "stream" = Some "stream")) with true;
    cbn [negb fst snd].
  all: split; [by rewrite lookup_insert_ne|].
  all: split; [intros Hn; by destruct Hn|].
  all: intros _; exists stream, mods; cbv zeta; cbn [fst snd].
  all: repeat (split; [done|]).
  all: by rewrite Hmerge.
Qed.

Lemma apply_keeps_reposted_witness :
  let msg :=
    {| type_ := Some (T_stream
                        {| extensions :=
                             {["s" := {| struct_ :=
                                           {["a" := number_value 1;
                                             "b" := list_value [string_value "x";
                                                                string_value "y"]]} |}]};
                           stream_fields := [] |});
       claim_fields := [] |} in
  let self_message :=
    {| claim_hash := [];
       mod_type :=
         Some (M_stream
                 {| deletions := {["s" := {| struct_ := {["a" := number_value 1]} |}]};
                    edits := {["s" := {| struct_ :=
                                           {["b" := list_value [string_value "z"]]} |}]}
                 |}) |} in
  let h : gmap loc ClaimMessage := {[1%positive := msg]} in
  (ModifyingClaimReference.apply self_message 1%positive h).1 !! 1%positive = Some msg.
Proof.
  intros msg self_message h.
  exact (proj1 (apply_keeps_reposted self_message 1%positive h msg eq_refl)).
Defined.

(** Scenario S6 of the specification: deleting [{s: {a: 1}}] and editing
    [{s: {b: [z]}}] on a claim holding [{s: {a: 1, b: [x, y]}}] gives
    [{s: {b: [x, y, z]}}]. *)
Example apply_stream_extension_merge :
  ModifyingClaimReference.apply_mods
    {| deletions := {["s" := {| struct_ := {["a" := number_value 1]} |}]};
       edits := {["s" := {| struct_ := {["b" := list_value [string_value "z"]]} |}]} |}
    {["s" := {| struct_ :=
                  {["a" := number_value 1;
                    "b" := list_value [string_value "x"; string_value "y"]]} |}]}
  = ({["s" := {| struct_ :=
                   {["b" := list_value [string_value "x"; string_value "y";
                                        string_value "z"]]} |}]}, None).
Proof. vm_compute. reflexivity. Qed.

(** *** Fees in USD *)

Lemma ndigits_aux_le fuel x n :
  0 <= x < 10 ^ n -> 1 <= n -> ndigits_aux fuel x <= n.
Proof.
  revert x n. induction fuel as [|fuel IH]; intros x n Hx Hn; cbn [ndigits_aux]; [lia|].
  destruct (Z.ltb_spec x 10); [lia|].
  assert (2 <= n).
  { destruct (Z.eq_dec n 1) as [->|]; [|lia]. change (10 ^ 1) with 10 in Hx. lia. }
  specialize (IH (x / 10) (n - 1)).
  assert (0 <= x / 10 < 10 ^ (n - 1)); [|lia].
  split; [apply Z.div_pos; lia|].
  apply Z.div_lt_upper_bound; [lia|].
  rewrite <- Z.pow_succ_r by lia. replace (Z.succ (n - 1)) with n by lia. lia.
Qed.

Lemma ndigits_le x n : 0 <= x < 10 ^ n -> 1 <= n -> ndigits x <= n.
Proof.
  intros Hx Hn. unfold ndigits. rewrite Z.abs_eq by lia. by apply ndigits_aux_le.
Qed.

Lemma ndigits_aux_pos fuel x : 1 <= ndigits_aux fuel x.
Proof.
  revert x. induction fuel as [|fuel IH]; intros x; cbn [ndigits_aux]; [lia|].
  destruct (Z.ltb_spec x 10); [lia|]. specialize (IH (x / 10)). lia.
Qed.

(** A coefficient within the precision is not rounded. *)
Lemma fix_small c e : 0 <= c < 10 ^ 28 -> fix_ {| coef := c; exp := e |} = {| coef := c; exp := e |}.
Proof.
  intros Hc. unfold fix_, prec. cbn [coef].
  pose proof (ndigits_le c 28 Hc ltac:(lia)).
  destruct (Z.leb_spec (ndigits c - 28) 0); [done|lia].
Qed.

Lemma ceil_div_round_up c p :
  0 < c -> 0 < p ->
  (if c mod p =? 0 then c / p else c / p + 1) = ceil_div c p /\ 0 < ceil_div c p.
Proof.
  intros Hc Hp. unfold ceil_div.
  pose proof (Z.div_mod c p ltac:(lia)) as Hdm.
  pose proof (Z.mod_pos_bound c p Hp) as Hm.
  assert (0 <= c / p) by (apply Z.div_pos; lia).
  destruct (Z.eqb_spec (c mod p) 0) as [H0|H0].
  - rewrite Z_div_zero_opp_full by done. split; [lia|].
    assert (c / p <> 0); [|lia]. intros Hq. rewrite Hq, H0 in Hdm. lia.
  - rewrite Z_div_nz_opp_full by (done || lia). split; lia.
Qed.

(** Rounding up to the cent gives the ceiling of the amount in pennies. *)
Lemma quantize_penny a :
  0 < coef a -> ceil_pennies a < 10 ^ 28 ->
  0 < ceil_pennies a /\
  quantize_ROUND_UP a Fee.PENNY = inr {| coef := ceil_pennies a; exp := -2 |}.
Proof.
  intros Hc Hlt. unfold quantize_ROUND_UP, ceil_pennies, prec in *.
  cbn [exp Fee.PENNY].
  destruct (Z.leb_spec (-2) (exp a)) as [He|He].
  - destruct (Z.leb_spec 0 (exp a + 2)); [|lia].
    replace (exp a - -2) with (exp a + 2) by lia.
    assert (0 < 10 ^ (exp a + 2)) by (apply Z.pow_pos_nonneg; lia).
    assert (0 < coef a * 10 ^ (exp a + 2)) by lia.
    rewrite Z.abs_eq by lia.
    destruct (Z.leb_spec (10 ^ 28) (coef a * 10 ^ (exp a + 2))); [lia|done].
  - destruct (Z.leb_spec 0 (exp a + 2)); [lia|].
    replace (-2 - exp a) with (- (exp a + 2)) by lia.
    assert (0 < 10 ^ (- (exp a + 2))) as Hp by (apply Z.pow_pos_nonneg; lia).
    rewrite Z.sgn_pos, (Z.abs_eq (coef a)), Z.mul_1_l by lia.
    destruct (ceil_div_round_up (coef a) _ Hc Hp) as [-> Hpos].
    rewrite Z.abs_eq by lia.
    destruct (Z.leb_spec (10 ^ 28) (ceil_div (coef a) (10 ^ (- (exp a + 2))))); [lia|done].
Qed.

Lemma pennies_of_quantized p :
  0 <= p < 10 ^ 25 ->
  dec_int (dec_mul {| coef := p; exp := -2 |} Fee.PENNIES) = p.
Proof.
  intros Hp. unfold dec_mul. cbn [coef exp Fee.PENNIES].
  rewrite fix_small by lia.
  unfold dec_int. cbn [coef exp]. change (-2 + -1) with (-3).
  change (0 <=? -3) with false. cbv iota.
  change (10 ^ (- -3)) with 1000. apply Z.quot_mul. lia.
Qed.

Lemma strip_zeros_pow (n fuel : nat) x e ideal :
  x <> 0 -> e + Z.of_nat n <= ideal ->
  strip_zeros (n + fuel) (x * 10 ^ Z.of_nat n) e ideal
  = strip_zeros fuel x (e + Z.of_nat n) ideal.
Proof.
  revert e. induction n as [|n IH]; intros e Hx He.
  - cbn [Nat.add]. change (Z.of_nat 0) with 0.
    by rewrite Z.pow_0_r, Z.mul_1_r, Z.add_0_r.
  - cbn [Nat.add strip_zeros].
    rewrite Nat2Z.inj_succ, Z.pow_succ_r by lia.
    replace (x * (10 * 10 ^ Z.of_nat n)) with (x * 10 ^ Z.of_nat n * 10) by lia.
    rewrite Z.mod_mul by lia. rewrite Z.div_mul by lia.
    destruct (Z.ltb_spec e ideal); [|lia]. cbn [andb Z.eqb].
    rewrite IH by lia. f_equal. lia.
Qed.

(** Dropping zeros keeps the number denoted. *)
Lemma strip_zeros_value fuel c e ideal c' e' :
  0 < c -> strip_zeros fuel c e ideal = (c', e') ->
  e <= e' /\ 0 < c' /\ c' * 10 ^ (e' - e) = c.
Proof.
  revert c e. induction fuel as [|fuel IH]; intros c e Hc; cbn [strip_zeros].
  - intros [= <- <-]. rewrite Z.sub_diag. lia.
  - destruct ((e <? ideal) && (c mod 10 =? 0)) eqn:Hcond.
    + apply andb_true_iff in Hcond as [_ Hmod%Z.eqb_eq].
      intros Hrun.
      pose proof (Z.div_mod c 10 ltac:(lia)) as Hdm. rewrite Hmod in Hdm.
      apply IH in Hrun as (He & Hc' & Hval); [|lia].
      split; [lia|]. split; [done|].
      replace (e' - e) with (Z.succ (e' - (e + 1))) by lia.
      rewrite Z.pow_succ_r by lia. lia.
    + intros [= <- <-]. rewrite Z.sub_diag. lia.
Qed.

(** Reading the amount back: a penny count divided by [100.0]. *)
Lemma truediv_pennies p :
  0 < p < 10 ^ 25 ->
  exists d, dec_truediv {| coef := p; exp := 0 |} Fee.PENNIES = inr d /\
            dec_eq d {| coef := p; exp := -2 |}.
Proof.
  intros Hp. unfold dec_truediv, prec. cbn [coef exp Fee.PENNIES].
  change (Z.abs 1000) with 1000. change (Z.sgn 1000) with 1.
  rewrite Z.abs_eq, Z.sgn_pos, Z.mul_1_l by lia. cbv zeta.
  change (1000 =? 0) with false. cbv iota.
  destruct (Z.eqb_spec p 0); [lia|].
  change (ndigits 1000) with 4.
  assert (1 <= ndigits p <= 25) as Hd.
  { split; [apply ndigits_aux_pos|apply ndigits_le; lia]. }
  set (shift := 4 - ndigits p + 28 + 1).
  destruct (Z.leb_spec 0 shift); [|lia].
  assert (10 ^ shift = 10 ^ (shift - 3) * 1000) as Hpow.
  { change 1000 with (10 ^ 3). rewrite <- Z.pow_add_r by lia. f_equal. lia. }
  rewrite Hpow, Z.mul_assoc, Z.div_mul, Z.mod_mul by lia.
  change (0 =? 0) with true. cbn [negb].
  assert (exists j : nat, shift - 3 = Z.of_nat j) as [j Hj]
    by (exists (Z.to_nat (shift - 3)); lia).
  rewrite Hj.
  replace (Z.to_nat (0 - -1 - (0 - -1 - shift))) with (j + 3)%nat by lia.
  rewrite strip_zeros_pow by lia.
  destruct (strip_zeros 3 p _ _) as [c' e'] eqn:Hstrip.
  apply strip_zeros_value in Hstrip as (He & Hc' & Hval); [|lia].
  replace (0 - -1 - shift + Z.of_nat j) with (-2) in * by lia.
  assert (0 < 10 ^ (e' - -2)) by (apply Z.pow_pos_nonneg; lia).
  assert (c' <= p) by nia.
  rewrite Z.mul_1_l, fix_small by lia.
  eexists. split; [done|].
  unfold dec_eq. cbn [coef exp]. rewrite Z.min_r by lia.
  rewrite Z.sub_diag, Z.pow_0_r. lia.
Qed.

Section UsdFee.
Variable Base58_decode : string -> exn + Py.bytes.

(** C9.  For a positive decimal amount whose penny count fits the
    unsigned 64-bit amount field, [update(amount=a, currency='usd')]
    returns normally, stores [ceiling(a * 100)] as the amount and USD as
    the currency; [pennies] reads that count back and [usd] reads a
    decimal equal to that count divided by 100. *)
Theorem usd_fee_rounds_up_to_the_cent (a : Decimal) (m : FeeMessage) :
  0 < coef a ->
  ceil_pennies a <= 18446744073709551615 ->
  let r := Fee.update Base58_decode None (Some "usd") (Some a) m in
  r.2 = None /\
  fee_amount r.1 = ceil_pennies a /\
  fee_currency r.1 = USD /\
  Fee.pennies r.1 = inr (ceil_pennies a) /\
  exists d, Fee.usd r.1 = inr d /\
            dec_eq d {| coef := ceil_pennies a; exp := -2 |}.
Proof.
  intros Hpos Hfit r.
  destruct (quantize_penny a Hpos ltac:(lia)) as [Hp Hq].
  assert (r = ({| fee_currency := USD; fee_address := fee_address m;
                  fee_amount := ceil_pennies a |}, None)) as ->.
  { subst r. unfold Fee.update.
    destruct (Z.eqb_spec (coef a) 0); [lia|]. cbn [negb].
    change (lower _) with "usd".
    change (bool_decide ("usd" = "")) with false.
    change (bool_decide ("usd" = "lbc")) with false.
    change (bool_decide ("usd" = "btc")) with false.
    change (bool_decide ("usd" = "usd")) with true. cbv iota.
    unfold Fee.set_usd. rewrite Hq.
    rewrite pennies_of_quantized by lia.
    unfold Fee.set_pennies, Fee.set_message_amount.
    destruct (Z.leb_spec 0 (ceil_pennies a)); [|lia].
    destruct (Z.leb_spec (ceil_pennies a) 18446744073709551615); [|lia].
    done. }
  cbn [fst snd fee_amount fee_currency].
  repeat (split; [done|]).
  unfold Fee.usd. cbn [fee_currency fee_amount].
  rewrite decide_False by (intros H; by apply H).
  apply truediv_pennies. lia.
Qed.
End UsdFee.

Lemma usd_fee_rounds_up_to_the_cent_witness :
  let a := {| coef := 12341; exp := -3 |} in
  let m := {| fee_currency := UNKNOWN_CURRENCY; fee_address := []; fee_amount := 0 |} in
  let r := Fee.update (fun _ => inl ValueError) None (Some "usd") (Some a) m in
  r.2 = None /\
  fee_amount r.1 = 1235 /\
  fee_currency r.1 = USD /\
  Fee.pennies r.1 = inr 1235 /\
  exists d, Fee.usd r.1 = inr d /\ dec_eq d {| coef := 1235; exp := -2 |}.
Proof.
  intros a m.
  apply (usd_fee_rounds_up_to_the_cent (fun _ => inl ValueError) a m).
  - cbn. lia.
  - vm_compute. discriminate.
Defined.

End AttrsSpec.

(** ** Further properties of the row codecs *)

Module PrefixesMore.
Import Py Prefixes PrefixesSpec.

(** *** Bit operations as arithmetic *)

Lemma lor_disjoint a b n :
  0 <= n -> 0 <= b < 2 ^ n -> Z.lor (a * 2 ^ n) b = a * 2 ^ n + b.
Proof.
  intros Hn Hb.
  assert (Z.land (a * 2 ^ n) b = 0) as Hland.
  { apply Z.bits_inj'. intros i Hi. rewrite Z.land_spec, Z.bits_0.
    destruct (Z.lt_ge_cases i n).
    - rewrite Z.mul_pow2_bits_low by lia. done.
    - destruct (Z.eq_dec b 0) as [->|].
      + rewrite Z.bits_0. apply andb_false_r.
      + rewrite (Z.bits_above_log2 b i); [apply andb_false_r|lia|].
        apply Z.log2_lt_pow2; [lia|].
        apply Z.lt_le_trans with (2 ^ n); [lia|]. apply Z.pow_le_mono_r; lia. }
  rewrite <- Z.lxor_lor by done. symmetry. by apply Z.add_nocarry_lxor.
Qed.

Lemma land_low x n : 0 <= n -> Z.land x (Z.ones n) = x mod 2 ^ n.
Proof. intros. by apply Z.land_ones. Qed.

Ltac bits :=
  unfold cont, payload;
  change 63 with (Z.ones 6); change 31 with (Z.ones 5);
  change 15 with (Z.ones 4); change 7 with (Z.ones 3);
  rewrite ?Z.shiftr_div_pow2, ?Z.shiftl_mul_pow2, ?land_low by lia;
  change (2 ^ 0) with 1; change (2 ^ 3) with 8; change (2 ^ 4) with 16;
  change (2 ^ 5) with 32; change (2 ^ 6) with 64; change (2 ^ 12) with 4096;
  change (2 ^ 18) with 262144.

Lemma lor_192 q : 0 <= q < 32 -> Z.lor 192 q = 192 + q.
Proof. intros. exact (lor_disjoint 6 q 5 ltac:(lia) ltac:(done)). Qed.

Lemma lor_224 q : 0 <= q < 16 -> Z.lor 224 q = 224 + q.
Proof. intros. exact (lor_disjoint 14 q 4 ltac:(lia) ltac:(done)). Qed.

Lemma lor_240 q : 0 <= q < 8 -> Z.lor 240 q = 240 + q.
Proof. intros. exact (lor_disjoint 30 q 3 ltac:(lia) ltac:(done)). Qed.

Lemma lor_128 q : 0 <= q < 64 -> Z.lor 128 q = 128 + q.
Proof. intros. exact (lor_disjoint 2 q 6 ltac:(lia) ltac:(done)). Qed.

Lemma lor_shift6 a b : 0 <= b < 64 -> Z.lor (a * 64) b = a * 64 + b.
Proof. intros. exact (lor_disjoint a b 6 ltac:(lia) ltac:(done)). Qed.

Lemma lor_shift12 a b : 0 <= b < 4096 -> Z.lor (a * 4096) b = a * 4096 + b.
Proof. intros. exact (lor_disjoint a b 12 ltac:(lia) ltac:(done)). Qed.

Lemma lor_shift18 a b : 0 <= b < 262144 -> Z.lor (a * 262144) b = a * 262144 + b.
Proof. intros. exact (lor_disjoint a b 18 ltac:(lia) ltac:(done)). Qed.

(** *** UTF-8: decoding what was encoded *)

Ltac dlia := Z.div_mod_to_equations; lia.

Ltac tests :=
  repeat match goal with
         | |- context [?a <=? ?b] => destruct (Z.leb_spec a b); try dlia
         | |- context [?a <? ?b] => destruct (Z.ltb_spec a b); try dlia
         end;
  cbn [andb negb orb].

Lemma utf8_decode_cons b0 r0 :
  utf8_decode (b0 :: r0) =
  if (0 <=? b0) && (b0 <? 128) then cons b0 <$> utf8_decode r0
  else if (192 <=? b0) && (b0 <? 224) then
    match r0 with
    | b1 :: r1 =>
        if is_cont b1 then
          match checked 128 (Z.lor (Z.shiftl (Z.land b0 31) 6) (payload b1)) with
          | Some c => cons c <$> utf8_decode r1
          | None => None
          end
        else None
    | _ => None
    end
  else if (224 <=? b0) && (b0 <? 240) then
    match r0 with
    | b1 :: b2 :: r2 =>
        if is_cont b1 && is_cont b2 then
          match checked 2048
                  (Z.lor (Z.shiftl (Z.land b0 15) 12)
                     (Z.lor (Z.shiftl (payload b1) 6) (payload b2))) with
          | Some c => cons c <$> utf8_decode r2
          | None => None
          end
        else None
    | _ => None
    end
  else if (240 <=? b0) && (b0 <? 248) then
    match r0 with
    | b1 :: b2 :: b3 :: r3 =>
        if is_cont b1 && is_cont b2 && is_cont b3 then
          match checked 65536
                  (Z.lor (Z.shiftl (Z.land b0 7) 18)
                     (Z.lor (Z.shiftl (payload b1) 12)
                        (Z.lor (Z.shiftl (payload b2) 6) (payload b3)))) with
          | Some c => cons c <$> utf8_decode r3
          | None => None
          end
        else None
    | _ => None
    end
  else None.
Proof. reflexivity. Qed.

Lemma utf8_decode_1 b0 r :
  0 <= b0 < 128 -> utf8_decode (b0 :: r) = cons b0 <$> utf8_decode r.
Proof. intros. rewrite utf8_decode_cons. by tests. Qed.

Lemma utf8_decode_2 b0 b1 r :
  192 <= b0 < 224 -> 128 <= b1 <= 191 ->
  utf8_decode (b0 :: b1 :: r) =
  match checked 128 (b0 mod 32 * 64 + b1 mod 64) with
  | Some c => cons c <$> utf8_decode r
  | None => None
  end.
Proof.
  intros. rewrite utf8_decode_cons. unfold is_cont. tests.
  bits. by rewrite lor_shift6 by dlia.
Qed.

Lemma utf8_decode_3 b0 b1 b2 r :
  224 <= b0 < 240 -> 128 <= b1 <= 191 -> 128 <= b2 <= 191 ->
  utf8_decode (b0 :: b1 :: b2 :: r) =
  match checked 2048 (b0 mod 16 * 4096 + (b1 mod 64 * 64 + b2 mod 64)) with
  | Some c => cons c <$> utf8_decode r
  | None => None
  end.
Proof.
  intros. rewrite utf8_decode_cons. unfold is_cont. tests.
  bits. by rewrite lor_shift6, lor_shift12 by dlia.
Qed.

Lemma utf8_decode_4 b0 b1 b2 b3 r :
  240 <= b0 < 248 -> 128 <= b1 <= 191 -> 128 <= b2 <= 191 -> 128 <= b3 <= 191 ->
  utf8_decode (b0 :: b1 :: b2 :: b3 :: r) =
  match checked 65536
          (b0 mod 8 * 262144 + (b1 mod 64 * 4096 + (b2 mod 64 * 64 + b3 mod 64))) with
  | Some c => cons c <$> utf8_decode r
  | None => None
  end.
Proof.
  intros. rewrite utf8_decode_cons. unfold is_cont. tests.
  bits. by rewrite lor_shift6, lor_shift12, lor_shift18 by dlia.
Qed.

Lemma checked_Some lo c :
  lo <= c < 1114112 -> (55296 <=? c) && (c <=? 57343) = false ->
  checked lo c = Some c.
Proof. intros ? Hs. unfold checked. rewrite Hs. by tests. Qed.

Lemma utf8_char_roundtrip c x r :
  utf8_encode_char c = Some x ->
  utf8_decode (x ++ r) = cons c <$> utf8_decode r.
Proof.
  unfold utf8_encode_char.
  destruct (Z.ltb_spec c 0); [done|].
  destruct (Z.ltb_spec c 128).
  { intros [= <-]. cbn [app]. by rewrite utf8_decode_1 by lia. }
  destruct (Z.ltb_spec c 2048).
  { intros [= <-]. cbn [app]. bits. rewrite lor_128, lor_192 by dlia.
    rewrite utf8_decode_2 by dlia.
    replace ((192 + c / 64) mod 32 * 64 + (128 + c / 1 mod 64) mod 64) with c by dlia.
    rewrite checked_Some; [done|lia|]. by tests. }
  destruct (Z.ltb_spec c 65536).
  { destruct ((55296 <=? c) && (c <=? 57343)) eqn:Hsur; [done|].
    intros [= <-]. cbn [app]. bits. rewrite !lor_128, lor_224 by dlia.
    rewrite utf8_decode_3 by dlia.
    replace ((224 + c / 4096) mod 16 * 4096
             + ((128 + c / 64 mod 64) mod 64 * 64 + (128 + c / 1 mod 64) mod 64))
      with c by dlia.
    by rewrite checked_Some by (done || lia). }
  destruct (Z.ltb_spec c 1114112); [|done].
  intros [= <-]. cbn [app]. bits. rewrite !lor_128, lor_240 by dlia.
  rewrite utf8_decode_4 by dlia.
  replace ((240 + c / 262144) mod 8 * 262144
           + ((128 + c / 4096 mod 64) mod 64 * 4096
              + ((128 + c / 64 mod 64) mod 64 * 64 + (128 + c / 1 mod 64) mod 64)))
    with c by dlia.
  rewrite checked_Some; [done|lia|]. by tests.
Qed.

Lemma utf8_roundtrip_app s b r :
  utf8_encode s = Some b ->
  utf8_decode (b ++ r) = (fun t => s ++ t) <$> utf8_decode r.
Proof.
  revert b. induction s as [|c s IH]; intros b; cbn [utf8_encode].
  - intros [= <-]. cbn [app]. by destruct (utf8_decode r).
  - destruct (utf8_encode_char c) as [x|] eqn:Hx; [|done].
    destruct (utf8_encode s) as [b'|]; [|done].
    intros [= <-]. rewrite <- app_assoc.
    rewrite (utf8_char_roundtrip _ _ _ Hx), (IH b' eq_refl).
    by destruct (utf8_decode r).
Qed.

Lemma utf8_roundtrip s b : utf8_encode s = Some b -> utf8_decode b = Some s.
Proof.
  intros H. rewrite <- (app_nil_r b), (utf8_roundtrip_app _ _ [] H).
  cbn. by rewrite app_nil_r.
Qed.

(** *** Integers and layouts: unpacking what was packed *)

Lemma fold_from_bytes n v acc :
  fold_left (fun acc x => acc * 256 + x) (be_bytes n v) acc
  = acc * 256 ^ Z.of_nat n + v mod 256 ^ Z.of_nat n.
Proof.
  revert acc. induction n as [|n IH]; intros acc.
  - cbn. rewrite Z.mod_1_r. lia.
  - rewrite be_bytes_head. cbn [fold_left]. rewrite IH, (mod_pow256_split n v).
    rewrite Nat2Z.inj_succ, Z.pow_succ_r by lia.
    set (P := 256 ^ Z.of_nat n). set (x := (v / P) mod 256). set (m := v mod P).
    clearbody P x m. ring.
Qed.

Lemma from_bytes_be_bytes n v :
  0 <= v < 256 ^ Z.of_nat n -> from_bytes (be_bytes n v) = v.
Proof.
  intros. unfold from_bytes. rewrite fold_from_bytes, Z.mod_small by done. lia.
Qed.

Lemma unpack_pack_one c a b : pack_one c a = Some b -> unpack_one c b = fitted c a.
Proof.
  destruct c; cbn [pack_one pack_uint unpack_one fitted].
  - destruct a; [done| |done]. by intros [= <-].
  - destruct a; [|done..]. intros [-> ?]%to_bytes_inv. by rewrite from_bytes_be_bytes.
  - destruct a; [|done..]. intros [-> ?]%to_bytes_inv. by rewrite from_bytes_be_bytes.
  - destruct a; [|done..]. intros [-> ?]%to_bytes_inv. by rewrite from_bytes_be_bytes.
  - destruct a; [|done..]. intros [-> ?]%to_bytes_inv. by rewrite from_bytes_be_bytes.
  - destruct a as [z| |]; [|done..].
    destruct (Z.leb_spec (-2147483648) z); [|done].
    destruct (Z.leb_spec z 2147483647); [|done].
    intros Hb. apply (inj Some) in Hb as <-. rewrite from_bytes_be_bytes.
    2:{ change (256 ^ Z.of_nat 4) with 4294967296. apply Z.mod_pos_bound. lia. }
    f_equal. destruct (Z.ltb_spec (z mod 4294967296) 2147483648); dlia.
Qed.

Lemma unpack_fields_pack f args b :
  struct_pack f args = Some b -> unpack_fields f b = zip_with fitted f args.
Proof.
  revert args b. induction f as [|c f IH]; intros [|a args] b; cbn [struct_pack]; try done.
  destruct (pack_one c a) as [x|] eqn:Hx; [|done].
  destruct (struct_pack f args) as [r|] eqn:Hr; [|done].
  intros [= <-]. cbn [unpack_fields zip_with].
  pose proof (length_pack_one _ _ _ Hx) as Hl.
  rewrite <- Hl, take_app_length, drop_app_length.
  by rewrite (unpack_pack_one _ _ _ Hx), (IH _ _ Hr).
Qed.

Lemma struct_roundtrip f args b :
  struct_pack f args = Some b -> struct_unpack f b = Some (zip_with fitted f args).
Proof.
  intros H. unfold struct_unpack.
  rewrite decide_True by by eapply length_struct_pack.
  by rewrite (unpack_fields_pack _ _ _ H).
Qed.

(** *** Slices of a key made of three parts *)

Lemma slice_mid (key pre mid rest : bytes) i j :
  key = pre ++ mid ++ rest -> i = length pre -> (j - i)%nat = length mid ->
  slice key i j = mid.
Proof.
  intros -> -> Hj. unfold slice. by rewrite Hj, drop_app_length, take_app_length.
Qed.

Lemma drop_pre (key pre rest : bytes) i :
  key = pre ++ rest -> i = length pre -> drop i key = rest.
Proof. intros -> ->. by rewrite drop_app_length. Qed.

Lemma length_encoded_name_inv name x :
  length_encoded_name name = Some x ->
  exists e, utf8_encode name = Some e /\
            x = be_bytes 2 (Z.of_nat (length e)) ++ e /\
            0 <= Z.of_nat (length e) < 65536.
Proof.
  unfold length_encoded_name. destruct (utf8_encode name) as [e|]; [|done].
  destruct (to_bytes 2 _) as [l|] eqn:Hl; [|done].
  apply to_bytes_inv in Hl as [-> ?]. intros [= <-]. by exists e.
Qed.

(** The name that starts at offset [i] of a key is read back: its size
    from two octets, then its text. *)
Lemma name_read_back (key pre rest : bytes) name x i :
  length_encoded_name name = Some x -> key = pre ++ x ++ rest -> i = length pre ->
  let name_len := Z.to_nat (from_bytes (slice key i (i + 2))) in
  utf8_decode (slice key (i + 2) (i + 2 + name_len)) = Some name /\
  drop (i + 2 + name_len) key = rest /\
  length x = (2 + name_len)%nat.
Proof.
  intros (e & He & -> & Hr)%length_encoded_name_inv -> ->.
  assert (slice (pre ++ (be_bytes 2 (Z.of_nat (length e)) ++ e) ++ rest)
            (length pre) (length pre + 2) = be_bytes 2 (Z.of_nat (length e))) as ->.
  { apply (slice_mid _ pre _ (e ++ rest)); [by rewrite <- app_assoc|done|].
    rewrite length_be_bytes. lia. }
  rewrite from_bytes_be_bytes by done. cbv zeta. rewrite Nat2Z.id.
  split; [|split].
  - rewrite (slice_mid _ (pre ++ be_bytes 2 (Z.of_nat (length e))) e rest).
    + by apply utf8_roundtrip.
    + by rewrite <- !app_assoc.
    + rewrite length_app, length_be_bytes. lia.
    + lia.
  - apply (drop_pre _ ((pre ++ be_bytes 2 (Z.of_nat (length e))) ++ e)).
    + by rewrite <- !app_assoc.
    + rewrite !length_app, length_be_bytes. lia.
  - rewrite length_app, length_be_bytes. lia.
Qed.

Lemma take_prefix (prefix rest : bytes) :
  length prefix = 1%nat -> take 1 (prefix ++ rest) = prefix.
Proof. intros. by apply take_app_length'. Qed.

Ltac read_name H key pre rest name x i Hx :=
  pose proof (name_read_back key pre rest name x i Hx) as H;
  cbv zeta in H;
  let j := eval compute in (i + 2)%nat in change (i + 2)%nat with j in H.

(** *** Keys and values read back *)

(** X1. A key of the effective_amount row is read back: whenever
    [pack_key] accepts a name, an amount, a transaction number and a
    position under a one-octet prefix tag, [unpack_key] of the result
    returns these four components; the complement of the amount is undone. *)
Theorem effective_amount_unpack_pack_key prefix name a t p k :
  length prefix = 1%nat ->
  EffectiveAmountPrefixRow.pack_key prefix name a t p = Some k ->
  EffectiveAmountPrefixRow.unpack_key prefix k
  = Some {| eak_normalized_name := name; eak_effective_amount := a;
            eak_tx_num := t; eak_position := p |}.
Proof.
  intros Hp. unfold EffectiveAmountPrefixRow.pack_key, EffectiveAmountPrefixRow.unpack_key.
  destruct (length_encoded_name name) as [n|] eqn:Hn; [|done].
  destruct (struct_pack _ _) as [q|] eqn:Hq; [|done].
  intros Hk. apply (inj Some) in Hk as <-.
  rewrite decide_True by by apply take_prefix.
  read_name H (prefix ++ n ++ q) prefix q name n 1%nat Hn.
  destruct H as (Hname & Hrest & _); [done..|].
  cbv zeta. rewrite Hname, Hrest, (struct_roundtrip _ _ _ Hq). cbn.
  do 2 f_equal. lia.
Qed.

Lemma effective_amount_unpack_pack_key_witness :
  exists k,
    EffectiveAmountPrefixRow.pack_key [68] [102; 111; 111] 50 1 0 = Some k /\
    EffectiveAmountPrefixRow.unpack_key [68] k
    = Some {| eak_normalized_name := [102; 111; 111]; eak_effective_amount := 50;
              eak_tx_num := 1; eak_position := 0 |}.
Proof.
  eexists. split; [reflexivity|].
  apply (effective_amount_unpack_pack_key [68] [102; 111; 111] 50 1 0); reflexivity.
Defined.

(** X2. A value of the claim_to_txo row is read back: whenever
    [pack_value] accepts its seven arguments, [unpack_value] of the result
    returns them, the validity flag as the same boolean and the name as the
    same text. *)
Theorem claim_to_txo_unpack_pack_value t p rt rp a (valid : bool) name v :
  ClaimToTXOPrefixRow.pack_value t p rt rp a valid name = Some v ->
  ClaimToTXOPrefixRow.unpack_value v
  = Some {| ctv_tx_num := t; ctv_position := p; ctv_root_tx_num := rt;
            ctv_root_position := rp; ctv_amount := a;
            ctv_channel_signature_is_valid := valid; ctv_name := name |}.
Proof.
  unfold ClaimToTXOPrefixRow.pack_value, ClaimToTXOPrefixRow.unpack_value.
  destruct (struct_pack _ _) as [q|] eqn:Hq; [|done].
  destruct (length_encoded_name name) as [n|] eqn:Hn; [|done].
  intros Hk. apply (inj Some) in Hk as <-.
  pose proof (length_struct_pack _ _ _ Hq) as Hl. change (calcsize _) with 21%nat in Hl.
  rewrite (slice_mid (q ++ n) [] q n 0 21) by (done || by rewrite Hl).
  rewrite (struct_roundtrip _ _ _ Hq). cbn [zip_with fitted].
  read_name H (q ++ n) q (@nil Z) name n 21%nat Hn.
  destruct H as (Hname & _ & _); [by rewrite app_nil_r|done|].
  rewrite Hname. by destruct valid.
Qed.

Lemma claim_to_txo_unpack_pack_value_witness :
  exists v,
    ClaimToTXOPrefixRow.pack_value 1 0 1 0 5 true [97] = Some v /\
    ClaimToTXOPrefixRow.unpack_value v
    = Some {| ctv_tx_num := 1; ctv_position := 0; ctv_root_tx_num := 1;
              ctv_root_position := 0; ctv_amount := 5;
              ctv_channel_signature_is_valid := true; ctv_name := [97] |}.
Proof.
  eexists. split; [reflexivity|].
  apply (claim_to_txo_unpack_pack_value 1 0 1 0 5 true [97]); reflexivity.
Defined.

(** X3. A key of the channel_to_claim row is read back when the signing
    hash has 20 octets: [pack_key] joins the hash as it is, and
    [unpack_key] takes octets 1 to 20 of the key for it. *)
Theorem channel_to_claim_unpack_pack_key prefix sh name t p k :
  length prefix = 1%nat -> length sh = 20%nat ->
  ChannelToClaimPrefixRow.pack_key prefix sh name t p = Some k ->
  ChannelToClaimPrefixRow.unpack_key prefix k
  = Some {| ctk_signing_hash := sh; ctk_name := name;
            ctk_tx_num := t; ctk_position := p |}.
Proof.
  intros Hp Hsh.
  unfold ChannelToClaimPrefixRow.pack_key, ChannelToClaimPrefixRow.unpack_key.
  destruct (length_encoded_name name) as [n|] eqn:Hn; [|done].
  destruct (struct_pack _ _) as [q|] eqn:Hq; [|done].
  intros Hk. apply (inj Some) in Hk as <-.
  rewrite decide_True by by apply take_prefix.
  rewrite (slice_mid (prefix ++ sh ++ n ++ q) prefix sh (n ++ q) 1 21)
    by (done || by rewrite Hsh).
  read_name H (prefix ++ sh ++ n ++ q) (prefix ++ sh) q name n 21%nat Hn.
  destruct H as (Hname & Hrest & _);
    [by rewrite <- app_assoc|by rewrite length_app, Hp, Hsh|].
  cbv zeta. by rewrite Hname, Hrest, (struct_roundtrip _ _ _ Hq).
Qed.

Lemma channel_to_claim_unpack_pack_key_witness :
  exists k,
    ChannelToClaimPrefixRow.pack_key [72] (replicate 20 7) [102] 1 0 = Some k /\
    ChannelToClaimPrefixRow.unpack_key [72] k
    = Some {| ctk_signing_hash := replicate 20 7; ctk_name := [102];
              ctk_tx_num := 1; ctk_position := 0 |}.
Proof.
  eexists. split; [reflexivity|].
  apply (channel_to_claim_unpack_pack_key [72] (replicate 20 7) [102] 1 0); reflexivity.
Defined.

(** X4. A key of the claim_takeover row is read back: [unpack_key] of
    [pack_key name] returns [name]. *)
Theorem claim_takeover_unpack_pack_key prefix name k :
  length prefix = 1%nat ->
  ClaimTakeoverPrefixRow.pack_key prefix name = Some k ->
  ClaimTakeoverPrefixRow.unpack_key prefix k
  = Some {| ctok_normalized_name := name |}.
Proof.
  intros Hp. unfold ClaimTakeoverPrefixRow.pack_key, ClaimTakeoverPrefixRow.unpack_key.
  destruct (length_encoded_name name) as [n|] eqn:Hn; [|done].
  intros Hk. apply (inj Some) in Hk as <-.
  rewrite decide_True by by apply take_prefix.
  read_name H (prefix ++ n) prefix (@nil Z) name n 1%nat Hn.
  destruct H as (Hname & _ & _); [by rewrite app_nil_r|done|].
  cbv zeta. by rewrite Hname.
Qed.

Lemma claim_takeover_unpack_pack_key_witness :
  exists k,
    ClaimTakeoverPrefixRow.pack_key [80] [102; 111; 111] = Some k /\
    ClaimTakeoverPrefixRow.unpack_key [80] k
    = Some {| ctok_normalized_name := [102; 111; 111] |}.
Proof.
  eexists. split; [reflexivity|].
  apply (claim_takeover_unpack_pack_key [80] [102; 111; 111]); reflexivity.
Defined.

(** *** Names as a prefix code *)

Lemma utf8_encode_inj s1 s2 b :
  utf8_encode s1 = Some b -> utf8_encode s2 = Some b -> s1 = s2.
Proof.
  intros H1%utf8_roundtrip H2%utf8_roundtrip. congruence.
Qed.

Lemma length_encoded_name_prefix n1 n2 x1 x2 (r1 r2 : bytes) :
  length_encoded_name n1 = Some x1 ->
  length_encoded_name n2 = Some x2 ->
  (x1 ++ r1) `prefix_of` (x2 ++ r2) ->
  n1 = n2 /\ r1 `prefix_of` r2.
Proof.
  intros (e1 & He1 & -> & R1)%length_encoded_name_inv
         (e2 & He2 & -> & R2)%length_encoded_name_inv Hp.
  rewrite <- !app_assoc in Hp.
  pose proof (prefix_same_length_head _ _ _ _
                ltac:(by rewrite !length_be_bytes) Hp) as Hl.
  apply be_bytes_inj in Hl; [|done..]. apply Nat2Z.inj in Hl.
  rewrite Hl in Hp. apply prefix_app_inv in Hp.
  pose proof (prefix_same_length_head _ _ _ _ Hl Hp) as ->.
  apply prefix_app_inv in Hp. split; [|done].
  by eapply utf8_encode_inj.
Qed.

(** X5. [length_encoded_name] is a prefix code: the encoding of a name,
    whatever follows it, never starts with the encoding of a different
    name. A scan by name does not meet the keys of a longer name that
    starts with it. *)
Theorem length_encoded_name_prefix_code n1 n2 x1 x2 (r1 r2 : bytes) :
  length_encoded_name n1 = Some x1 ->
  length_encoded_name n2 = Some x2 ->
  n1 <> n2 ->
  ~ (x1 ++ r1) `prefix_of` (x2 ++ r2).
Proof.
  intros H1 H2 Hne Hp.
  by destruct (length_encoded_name_prefix _ _ _ _ _ _ H1 H2 Hp).
Qed.

Lemma length_encoded_name_prefix_code_witness :
  ~ ([0; 2; 102; 111] ++ []) `prefix_of` ([0; 3; 102; 111; 111] ++ [7; 7]).
Proof.
  apply (length_encoded_name_prefix_code [102; 111] [102; 111; 111]);
    [reflexivity|reflexivity|discriminate].
Defined.

(** *** claim_short_id *)

Lemma utf8_encode_ascii s : ascii s -> utf8_encode s = Some s.
Proof.
  induction 1 as [|c s Hc _ IH]; [done|].
  cbn [utf8_encode]. rewrite IH. unfold utf8_encode_char.
  destruct (Z.ltb_spec c 0); [lia|]. by destruct (Z.ltb_spec c 128); [|lia].
Qed.

Lemma length_prefix_ascii s x :
  ascii s -> length_prefix s = Some x ->
  x = be_bytes 1 (Z.of_nat (length s)) ++ s /\ 0 <= Z.of_nat (length s) < 256.
Proof.
  intros Hs. unfold length_prefix. rewrite (utf8_encode_ascii _ Hs).
  destruct (to_bytes 1 _) as [l|] eqn:Hl; [|done].
  apply to_bytes_inv in Hl as [-> ?]. by intros [= <-].
Qed.

(** X6. A key of the claim_short_id row is read back when the short
    claim id is made of code points below 128 (a claim id is hexadecimal):
    [unpack_key] of [pack_key] returns the name, the id and the two
    integers. [length_prefix] counts the code points of the id while
    [unpack_key] counts octets, which agree on such an id. *)
Theorem claim_short_id_unpack_pack_key prefix name sid rt rp k :
  length prefix = 1%nat -> ascii sid ->
  ClaimShortIDPrefixRow.pack_key prefix name sid rt rp = Some k ->
  ClaimShortIDPrefixRow.unpack_key prefix k
  = Some {| csk_normalized_name := name; csk_partial_claim_id := sid;
            csk_root_tx_num := rt; csk_root_position := rp |}.
Proof.
  intros Hp Hs.
  unfold ClaimShortIDPrefixRow.pack_key, ClaimShortIDPrefixRow.unpack_key.
  destruct (length_encoded_name name) as [n|] eqn:Hn; [|done].
  destruct (length_prefix sid) as [s|] eqn:Hsid; [|done].
  destruct (struct_pack _ _) as [q|] eqn:Hq; [|done].
  intros Hk. apply (inj Some) in Hk as <-.
  apply (length_prefix_ascii _ _ Hs) in Hsid as [-> Hr].
  rewrite decide_True by by apply take_prefix.
  set (key := prefix ++ n ++ (be_bytes 1 (Z.of_nat (length sid)) ++ sid) ++ q).
  read_name H key prefix ((be_bytes 1 (Z.of_nat (length sid)) ++ sid) ++ q) name n 1%nat Hn.
  destruct H as (Hname & _ & Hlen); [done..|].
  cbv zeta. rewrite Hname.
  set (nl := Z.to_nat (from_bytes (slice key 1 3))) in *.
  rewrite (slice_mid key (prefix ++ n) (be_bytes 1 (Z.of_nat (length sid))) (sid ++ q)
             (3 + nl) (4 + nl)).
  2:{ unfold key. by rewrite <- !app_assoc. }
  2:{ rewrite length_app, Hp, Hlen. lia. }
  2:{ rewrite length_be_bytes. lia. }
  rewrite from_bytes_be_bytes, Nat2Z.id by done.
  rewrite (slice_mid key ((prefix ++ n) ++ be_bytes 1 (Z.of_nat (length sid))) sid q).
  2:{ unfold key. by rewrite <- !app_assoc. }
  2:{ rewrite !length_app, length_be_bytes, Hp, Hlen. lia. }
  2:{ lia. }
  rewrite (utf8_roundtrip _ _ (utf8_encode_ascii _ Hs)).
  rewrite (drop_pre key (((prefix ++ n) ++ be_bytes 1 (Z.of_nat (length sid))) ++ sid) q).
  2:{ unfold key. by rewrite <- !app_assoc. }
  2:{ rewrite !length_app, length_be_bytes, Hp, Hlen. lia. }
  by rewrite (struct_roundtrip _ _ _ Hq).
Qed.

Lemma claim_short_id_unpack_pack_key_witness :
  exists k,
    ClaimShortIDPrefixRow.pack_key [70] [102; 111; 111] [97; 98] 1 0 = Some k /\
    ClaimShortIDPrefixRow.unpack_key [70] k
    = Some {| csk_normalized_name := [102; 111; 111];
              csk_partial_claim_id := [97; 98];
              csk_root_tx_num := 1; csk_root_position := 0 |}.
Proof.
  eexists. split; [reflexivity|].
  apply (claim_short_id_unpack_pack_key [70] [102; 111; 111] [97; 98] 1 0);
    [reflexivity| |reflexivity].
  repeat constructor; lia.
Defined.

(** X7. A partial key of the claim_short_id row made of a name and a
    partial claim id starts the stored key of a claim under that name
    only when the partial id is the whole id the key was stored with,
    not when it merely starts it: the length octet of the id comes
    first. (Ids of code points below 128.) *)
Theorem claim_short_id_partial_key_exact prefix name pid sid rt rp part k :
  ascii pid -> ascii sid ->
  ClaimShortIDPrefixRow.pack_partial_key prefix [PyStr name; PyStr pid] = Some part ->
  ClaimShortIDPrefixRow.pack_key prefix name sid rt rp = Some k ->
  part `prefix_of` k <-> pid = sid.
Proof.
  intros Hpid Hsid.
  unfold ClaimShortIDPrefixRow.pack_partial_key, PrefixRow.pack_partial_key,
    ClaimShortIDPrefixRow.pack_key.
  cbn [length lookup list_lookup ClaimShortIDPrefixRow.key_part_lambdas
       shortid_key_partial_claim_helper].
  destruct (decide _); [|done].
  destruct (length_encoded_name name) as [n|] eqn:Hn; [|done].
  destruct (length_prefix pid) as [p'|] eqn:Hp'; [|done].
  destruct (length_prefix sid) as [s|] eqn:Hs; [|done].
  destruct (struct_pack _ _) as [q|] eqn:Hq; [|done].
  cbn [fmap option_fmap option_map].
  intros Hpart Hk. apply (inj Some) in Hpart as <-. apply (inj Some) in Hk as <-.
  split.
  - intros Hpre. do 2 apply prefix_app_inv in Hpre.
    apply (length_prefix_ascii _ _ Hpid) in Hp' as [-> R1].
    apply (length_prefix_ascii _ _ Hsid) in Hs as [-> R2].
    rewrite <- !app_assoc in Hpre.
    pose proof (prefix_same_length_head _ _ _ _
                  ltac:(by rewrite !length_be_bytes) Hpre) as Hl.
    apply be_bytes_inj in Hl; [|done..]. apply Nat2Z.inj in Hl.
    rewrite Hl in Hpre. apply prefix_app_inv in Hpre.
    rewrite <- (app_nil_r pid) in Hpre.
    by apply (prefix_same_length_head _ _ _ _ Hl) in Hpre.
  - intros ->. rewrite Hp' in Hs. apply (inj Some) in Hs as <-.
    do 2 apply prefix_app. by exists q.
Qed.

Lemma claim_short_id_partial_key_exact_witness :
  exists part k,
    ClaimShortIDPrefixRow.pack_partial_key [70]
      [PyStr [102; 111; 111]; PyStr [97; 98]] = Some part /\
    ClaimShortIDPrefixRow.pack_key [70] [102; 111; 111] [97; 98; 99] 1 0 = Some k /\
    (part `prefix_of` k <-> [97; 98] = [97; 98; 99]).
Proof.
  do 2 eexists. split; [reflexivity|]. split; [reflexivity|].
  apply (claim_short_id_partial_key_exact [70] [102; 111; 111]
           [97; 98] [97; 98; 99] 1 0);
    [repeat constructor; lia|repeat constructor; lia|reflexivity|reflexivity].
Defined.

(** *** txo_to_claim and pending_activation *)

(** X8. A value of the txo_to_claim row is read back with its claim hash
    fitted to 20 octets: ['20s'] cuts a longer hash and pads a shorter one
    with zero octets, so the name always starts at octet 20 and is read
    back unchanged. *)
Theorem txo_to_claim_unpack_pack_value h name v :
  TXOToClaimPrefixRow.pack_value h name = Some v ->
  TXOToClaimPrefixRow.unpack_value v
  = Some {| ttc_claim_hash := take 20 h ++ replicate (20 - length h) 0;
            ttc_name := name |}.
Proof.
  unfold TXOToClaimPrefixRow.pack_value, TXOToClaimPrefixRow.unpack_value.
  destruct (struct_pack _ _) as [q|] eqn:Hq; [|done].
  destruct (length_encoded_name name) as [n|] eqn:Hn; [|done].
  intros Hk. apply (inj Some) in Hk as <-.
  pose proof (length_struct_pack _ _ _ Hq) as Hl. change (calcsize _) with 20%nat in Hl.
  rewrite (slice_mid (q ++ n) [] q n 0 20) by (done || by rewrite Hl).
  rewrite (struct_roundtrip _ _ _ Hq). cbn [zip_with fitted].
  read_name H (q ++ n) q (@nil Z) name n 20%nat Hn.
  destruct H as (Hname & _ & _); [by rewrite app_nil_r|done|].
  by rewrite Hname.
Qed.

Lemma txo_to_claim_unpack_pack_value_witness :
  exists v,
    TXOToClaimPrefixRow.pack_value [1; 2; 3] [97] = Some v /\
    TXOToClaimPrefixRow.unpack_value v
    = Some {| ttc_claim_hash := take 20 [1; 2; 3] ++ replicate (20 - 3) 0;
              ttc_name := [97] |}.
Proof.
  eexists. split; [reflexivity|].
  apply (txo_to_claim_unpack_pack_value [1; 2; 3] [97]); reflexivity.
Defined.

(** X9. A value of the pending_activation row is read back when the claim
    hash has 20 octets. Here [pack_value] joins the hash as it is, without
    the ['20s'] layout, and [unpack_value] takes the first 20 octets. *)
Theorem pending_activation_unpack_pack_value h name v :
  length h = 20%nat ->
  PendingActivationPrefixRow.pack_value h name = Some v ->
  PendingActivationPrefixRow.unpack_value v
  = Some {| pav_claim_hash := h; pav_normalized_name := name |}.
Proof.
  intros Hh.
  unfold PendingActivationPrefixRow.pack_value, PendingActivationPrefixRow.unpack_value.
  destruct (length_encoded_name name) as [n|] eqn:Hn; [|done].
  intros Hk. apply (inj Some) in Hk as <-.
  rewrite (slice_mid (h ++ n) [] h n 0 20) by (done || by rewrite Hh).
  read_name H (h ++ n) h (@nil Z) name n 20%nat Hn.
  destruct H as (Hname & _ & _); [by rewrite app_nil_r|done|].
  cbv zeta. by rewrite Hname.
Qed.

Lemma pending_activation_unpack_pack_value_witness :
  exists v,
    PendingActivationPrefixRow.pack_value (replicate 20 7) [97] = Some v /\
    PendingActivationPrefixRow.unpack_value v
    = Some {| pav_claim_hash := replicate 20 7; pav_normalized_name := [97] |}.
Proof.
  eexists. split; [reflexivity|].
  apply (pending_activation_unpack_pack_value (replicate 20 7) [97]); reflexivity.
Defined.

(** *** Values that are lists of fixed-size items *)

Lemma forallb_length n (l : list bytes) :
  forallb (fun h => Nat.eqb (length h) n) l = true ->
  Forall (fun h => length h = n) l.
Proof.
  induction l as [|h l IH]; cbn [forallb]; [done|].
  intros [Hh Hl]%andb_true_iff. constructor; [by apply Nat.eqb_eq|by apply IH].
Qed.

Lemma length_concat_fixed n (l : list bytes) :
  Forall (fun h => length h = n) l -> length (concat l) = (length l * n)%nat.
Proof.
  induction 1 as [|h l Hh _ IH]; [done|].
  cbn [concat length]. rewrite length_app, IH, Hh. lia.
Qed.

Lemma chunks_of_concat n (l : list bytes) (extra : bytes) :
  Forall (fun h => length h = n) l ->
  (fun i => take n (drop (i * n) (concat l ++ extra))) <$> seq 0 (length l) = l.
Proof.
  induction 1 as [|h l Hh _ IH]; [done|].
  cbn [concat length seq fmap list_fmap]. f_equal.
  - cbn [Nat.mul drop]. rewrite <- app_assoc. by apply take_app_length'.
  - rewrite <- fmap_S_seq, <- list_fmap_compose. rewrite <- IH at 2.
    apply list_fmap_ext. intros _ i _. cbn [compose].
    rewrite <- app_assoc.
    replace (S i * n)%nat with (n + i * n)%nat by lia.
    by rewrite drop_app_add'.
Qed.

Lemma div_fixed n k e : (e < n)%nat -> ((k * n + e) / n)%nat = k.
Proof.
  intros. rewrite Nat.div_add_l by lia. rewrite Nat.div_small by done. lia.
Qed.

(** X10. The transaction hashes of a block are read back in order, and a
    trailing fragment shorter than a hash is dropped: when [pack_value]
    accepts a list of hashes (each of 32 octets), [unpack_value] of the
    result followed by fewer than 32 more octets returns the list. *)
Theorem block_txs_unpack_pack_value (tx_hashes : list bytes) (extra v : bytes) :
  BlockTxsPrefixRow.pack_value tx_hashes = Some v ->
  (length extra < 32)%nat ->
  BlockTxsPrefixRow.unpack_value (v ++ extra) = tx_hashes.
Proof.
  unfold BlockTxsPrefixRow.pack_value, BlockTxsPrefixRow.unpack_value.
  destruct (forallb _ _) eqn:Hall; [|done]. apply forallb_length in Hall.
  intros Hv He. apply (inj Some) in Hv as <-.
  rewrite length_app, (length_concat_fixed _ _ Hall), div_fixed by done.
  rewrite <- (chunks_of_concat 32 tx_hashes extra Hall) at 2.
  apply list_fmap_ext. intros _ i _. unfold slice. f_equal. lia.
Qed.

Lemma block_txs_unpack_pack_value_witness :
  exists v,
    BlockTxsPrefixRow.pack_value [replicate 32 1; replicate 32 2] = Some v /\
    BlockTxsPrefixRow.unpack_value (v ++ [9; 9; 9])
    = [replicate 32 1; replicate 32 2].
Proof.
  eexists. split; [reflexivity|].
  apply (block_txs_unpack_pack_value [replicate 32 1; replicate 32 2] [9; 9; 9]);
    [reflexivity|cbn; lia].
Defined.

(** X11. The touched hashXs of a block are read back in order in the same
    way, with items of 11 octets. *)
Theorem touched_hashX_unpack_pack_value (touched : list bytes) (extra v : bytes) :
  TouchedHashXPrefixRow.pack_value touched = Some v ->
  (length extra < 11)%nat ->
  TouchedHashXPrefixRow.unpack_value (v ++ extra) = touched.
Proof.
  unfold TouchedHashXPrefixRow.pack_value, TouchedHashXPrefixRow.unpack_value.
  destruct (forallb _ _) eqn:Hall; [|done]. apply forallb_length in Hall.
  intros Hv He. apply (inj Some) in Hv as <-.
  rewrite length_app, (length_concat_fixed _ _ Hall), div_fixed by done.
  rewrite <- (chunks_of_concat 11 touched extra Hall) at 2.
  apply list_fmap_ext. intros _ i _. unfold slice. f_equal. lia.
Qed.

Lemma touched_hashX_unpack_pack_value_witness :
  exists v,
    TouchedHashXPrefixRow.pack_value [replicate 11 1; replicate 11 2] = Some v /\
    TouchedHashXPrefixRow.unpack_value (v ++ [9]) = [replicate 11 1; replicate 11 2].
Proof.
  eexists. split; [reflexivity|].
  apply (touched_hashX_unpack_pack_value [replicate 11 1; replicate 11 2] [9]);
    [reflexivity|cbn; lia].
Defined.

Lemma sorted_all_20 (s : gset bytes) :
  TouchedOrDeletedPrefixRow.all_20 s = true ->
  Forall (fun h => length h = 20%nat) (sorted s) /\ length (sorted s) = size s.
Proof.
  intros H%forallb_length. unfold sorted. split.
  - by rewrite merge_sort_Permutation.
  - by rewrite merge_sort_Permutation.
Qed.

(** X12. The two sets of the touched_or_deleted row are read back as the
    same sets: whenever [pack_value] accepts them (all hashes of 20
    octets, counts within 32 bits), [unpack_value] returns the pair, the
    order in which the hashes were written playing no role. *)
Theorem touched_or_deleted_unpack_pack_value (touched deleted : gset bytes) v :
  TouchedOrDeletedPrefixRow.pack_value touched deleted = Some v ->
  TouchedOrDeletedPrefixRow.unpack_value v = Some (touched, deleted).
Proof.
  unfold TouchedOrDeletedPrefixRow.pack_value, TouchedOrDeletedPrefixRow.unpack_value.
  destruct (TouchedOrDeletedPrefixRow.all_20 touched) eqn:Ht; [|done].
  destruct (TouchedOrDeletedPrefixRow.all_20 deleted) eqn:Hd; [|done].
  cbn [andb].
  destruct (struct_pack _ _) as [h|] eqn:Hh; [|done].
  intros Hv. apply (inj Some) in Hv as <-.
  apply sorted_all_20 in Ht as [Ht Lt]. apply sorted_all_20 in Hd as [Hd Ld].
  pose proof (length_struct_pack _ _ _ Hh) as Hl. change (calcsize _) with 8%nat in Hl.
  rewrite (slice_mid _ [] h (concat (sorted touched) ++ concat (sorted deleted)) 0 8)
    by (done || by rewrite Hl).
  rewrite (struct_roundtrip _ _ _ Hh).
  cbn [zip_with fitted TouchedOrDeletedPrefixRow.value_struct]. cbv beta iota zeta.
  rewrite (drop_pre _ h (concat (sorted touched) ++ concat (sorted deleted)) 8)
    by done.
  pose proof (length_concat_fixed _ _ Ht) as Lct.
  pose proof (length_concat_fixed _ _ Hd) as Lcd.
  rewrite Lt in Lct. rewrite Ld in Lcd.
  rewrite decide_True by (rewrite length_app, Lct, Lcd; lia).
  replace (Z.to_nat (Z.of_nat (size touched) * 20)) with (size touched * 20)%nat by lia.
  rewrite take_app_length', drop_app_length' by done.
  rewrite !Nat2Z.id.
  do 2 f_equal.
  - etrans; [|apply (list_to_set_elements_L touched)].
    etrans; [|apply list_to_set_perm_L, (merge_sort_Permutation bytes_le)].
    fold (sorted touched). f_equal.
    etrans; [|apply (chunks_of_concat 20 (sorted touched) [] Ht)].
    rewrite app_nil_r, Lt. apply list_fmap_ext. intros _ i _. unfold slice.
    f_equal; [lia|f_equal; lia].
  - etrans; [|apply (list_to_set_elements_L deleted)].
    etrans; [|apply list_to_set_perm_L, (merge_sort_Permutation bytes_le)].
    fold (sorted deleted). f_equal.
    etrans; [|apply (chunks_of_concat 20 (sorted deleted) [] Hd)].
    rewrite app_nil_r, Ld. apply list_fmap_ext. intros _ i _. unfold slice.
    f_equal; [lia|f_equal; lia].
Qed.

Lemma touched_or_deleted_unpack_pack_value_witness :
  exists v,
    TouchedOrDeletedPrefixRow.pack_value
      {[ replicate 20 2; replicate 20 1 ]} {[ replicate 20 3 ]} = Some v /\
    TouchedOrDeletedPrefixRow.unpack_value v
    = Some ({[ replicate 20 2; replicate 20 1 ]}, {[ replicate 20 3 ]}).
Proof.
  eexists. split; [vm_compute; reflexivity|].
  apply (touched_or_deleted_unpack_pack_value
           {[ replicate 20 2; replicate 20 1 ]} {[ replicate 20 3 ]}).
  vm_compute. reflexivity.
Defined.

(** *** Partial keys that do start the stored key *)

(** X13. [effective_amount_helper], which the effective_amount row does
    not use, builds partial keys that agree with [pack_key]: for every key
    that [pack_key] accepts, the helper over ['>Q'], ['>QL'] and ['>QLH']
    accepts the leading components, each result starts the next, and the
    last one is the key without its prefix tag. *)
Theorem effective_amount_helper_levels prefix name a t p k :
  EffectiveAmountPrefixRow.pack_key prefix name a t p = Some k ->
  exists k2 k3 k4,
    effective_amount_helper [fmt_Q] [PyStr name; PyInt a] = Some k2 /\
    effective_amount_helper [fmt_Q; fmt_L] [PyStr name; PyInt a; PyInt t] = Some k3 /\
    effective_amount_helper [fmt_Q; fmt_L; fmt_H]
      [PyStr name; PyInt a; PyInt t; PyInt p] = Some k4 /\
    k2 `prefix_of` k3 /\ k3 `prefix_of` k4 /\ k = prefix ++ k4.
Proof.
  unfold EffectiveAmountPrefixRow.pack_key, effective_amount_helper,
    EffectiveAmountPrefixRow.key_struct.
  destruct (length_encoded_name name) as [n|]; [|done].
  cbn [struct_pack].
  destruct (pack_one fmt_Q _) as [x1|]; [|done].
  destruct (pack_one fmt_L _) as [x2|]; [|done].
  destruct (pack_one fmt_H _) as [x3|]; [|done].
  intros Hk. apply (inj Some) in Hk as <-.
  eexists _, _, _. repeat split.
  - apply prefix_app, prefix_app, prefix_nil.
  - apply prefix_app, prefix_app, prefix_app, prefix_nil.
Qed.

Lemma effective_amount_helper_levels_witness :
  exists k2 k3 k4,
    effective_amount_helper [fmt_Q] [PyStr [102; 111; 111]; PyInt 50] = Some k2 /\
    effective_amount_helper [fmt_Q; fmt_L]
      [PyStr [102; 111; 111]; PyInt 50; PyInt 1] = Some k3 /\
    effective_amount_helper [fmt_Q; fmt_L; fmt_H]
      [PyStr [102; 111; 111]; PyInt 50; PyInt 1; PyInt 0] = Some k4 /\
    k2 `prefix_of` k3 /\ k3 `prefix_of` k4 /\
    [68; 0; 3; 102; 111; 111; 255; 255; 255; 255; 255; 255; 255; 205;
     0; 0; 0; 1; 0; 0] = [68] ++ k4.
Proof.
  apply (effective_amount_helper_levels [68] [102; 111; 111] 50 1 0). reflexivity.
Defined.

(** *** When a key can be packed *)

Lemma to_bytes_is_Some n v : is_Some (to_bytes n v) <-> 0 <= v < 256 ^ Z.of_nat n.
Proof.
  split.
  - intros [b Hb]. by apply to_bytes_inv in Hb as [_ ?].
  - intros. by rewrite to_bytes_Some.
Qed.

(** X14. [EffectiveAmountPrefixRow.pack_key] returns a key exactly when
    the name can be encoded (no lone surrogate, at most 65535 octets), the
    amount lies in 0 .. 2^64 - 1, the transaction number in 0 .. 2^32 - 1
    and the position in 0 .. 2^16 - 1; otherwise it raises. A negative
    amount is rejected like one that is too large, through the complement. *)
Theorem effective_amount_pack_key_defined prefix name a t p :
  is_Some (EffectiveAmountPrefixRow.pack_key prefix name a t p)
  <-> is_Some (length_encoded_name name) /\ u64 a /\ u32 t /\ u16 p.
Proof.
  unfold EffectiveAmountPrefixRow.pack_key, EffectiveAmountPrefixRow.key_struct,
    u64, u32, u16.
  cbn [struct_pack pack_one pack_uint].
  pose proof (to_bytes_is_Some 8 (18446744073709551615 - a)) as H8.
  pose proof (to_bytes_is_Some 4 t) as H4.
  pose proof (to_bytes_is_Some 2 p) as H2.
  change (256 ^ Z.of_nat 8) with 18446744073709551616 in H8.
  change (256 ^ Z.of_nat 4) with 4294967296 in H4.
  change (256 ^ Z.of_nat 2) with 65536 in H2.
  destruct (length_encoded_name name) as [n|].
  2:{ split; [by intros [? ?]|by intros [[? ?] _]]. }
  destruct (to_bytes 8 _) as [x1|].
  2:{ split; [by intros [? ?]|]. intros (_ & Ha & _).
      assert (is_Some (@None bytes)) as [? ?] by (apply H8; lia). done. }
  destruct (to_bytes 4 t) as [x2|].
  2:{ split; [by intros [? ?]|]. intros (_ & _ & Ht & _).
      assert (is_Some (@None bytes)) as [? ?] by (apply H4; lia). done. }
  destruct (to_bytes 2 p) as [x3|].
  2:{ split; [by intros [? ?]|]. intros (_ & _ & _ & Hp).
      assert (is_Some (@None bytes)) as [? ?] by (apply H2; lia). done. }
  split; [|by eexists].
  intros _. split; [by eexists|].
  pose proof (proj1 H8 ltac:(by eexists)).
  pose proof (proj1 H4 ltac:(by eexists)).
  pose proof (proj1 H2 ltac:(by eexists)). lia.
Qed.

(** X15. The first three levels of the channel_to_claim row work when the
    signing hash has 20 octets: the partial keys built from no component,
    from the hash, and from the hash and the name are accepted, each
    starts the next, and the last starts the key that [pack_key] stores. *)
Theorem channel_to_claim_partial_keys prefix sh name t p k :
  length sh = 20%nat ->
  ChannelToClaimPrefixRow.pack_key prefix sh name t p = Some k ->
  exists k1 k2,
    ChannelToClaimPrefixRow.pack_partial_key prefix [] = Some prefix /\
    ChannelToClaimPrefixRow.pack_partial_key prefix [PyBytes sh] = Some k1 /\
    ChannelToClaimPrefixRow.pack_partial_key prefix [PyBytes sh; PyStr name] = Some k2 /\
    prefix `prefix_of` k1 /\ k1 `prefix_of` k2 /\ k2 `prefix_of` k.
Proof.
  intros Hsh.
  unfold ChannelToClaimPrefixRow.pack_key, ChannelToClaimPrefixRow.pack_partial_key,
    PrefixRow.pack_partial_key.
  cbn [length lookup list_lookup ChannelToClaimPrefixRow.key_part_lambdas
       empty_builder struct_pack pack_one channel_to_claim_helper
       fmap option_fmap option_map].
  destruct (length_encoded_name name) as [n|]; [|done].
  destruct (struct_pack _ _) as [q|]; [|done].
  intros Hk. apply (inj Some) in Hk as <-.
  rewrite Hsh, (take_ge sh 20) by lia.
  cbn [Nat.sub replicate app option_fmap option_map fmap].
  rewrite !app_nil_r.
  eexists _, _. repeat split.
  - by exists sh.
  - apply prefix_app. by exists n.
  - apply prefix_app, prefix_app. by exists q.
Qed.

Lemma channel_to_claim_partial_keys_witness :
  exists k1 k2,
    ChannelToClaimPrefixRow.pack_partial_key [72] [] = Some [72] /\
    ChannelToClaimPrefixRow.pack_partial_key [72] [PyBytes (replicate 20 7)]
      = Some k1 /\
    ChannelToClaimPrefixRow.pack_partial_key [72]
      [PyBytes (replicate 20 7); PyStr [102]] = Some k2 /\
    [72] `prefix_of` k1 /\ k1 `prefix_of` k2 /\
    k2 `prefix_of` ([72] ++ replicate 20 7 ++ [0; 1; 102] ++ [0; 0; 0; 1; 0; 0]).
Proof.
  apply (channel_to_claim_partial_keys [72] (replicate 20 7) [102] 1 0);
    reflexivity.
Defined.

(** *** db_state *)

Lemma fitted_exact n (b : bytes) :
  length b = n -> take n b ++ replicate (n - length b) 0 = b.
Proof.
  intros <-. by rewrite firstn_all, Nat.sub_diag, app_nil_r.
Qed.

(** X16. The state record is read back: when [pack_value] accepts a
    state whose genesis and tip hashes have 32 octets, [unpack_value] of
    the 98 octets returns the same fields, the flag [catching_up] as 0 or
    1. A value written by [pack_value] never has the 94 octets of the
    legacy layout, so the shim that copies the height does not fire on it.
    ([PrefixRow.pack_value] and [unpack_value] as for the db_state claim.) *)
Theorem db_state_unpack_pack_value
    (g t : bytes) (h tc ufc wt dv hfc cfc cc esh : Z) (cu : bool) v :
  length g = 32%nat -> length t = 32%nat ->
  DBStatePrefixRow.pack_value g h tc t ufc wt cu dv hfc cfc cc esh = Some v ->
  length v = 98%nat /\
  DBStatePrefixRow.unpack_value v
  = Some {| genesis := g; height := h; tx_count := tc; tip := t;
            utxo_flush_count := ufc; wall_time := wt;
            catching_up := if cu then 1 else 0;
            db_version := dv; hist_flush_count := hfc;
            comp_flush_count := cfc; comp_cursor := cc;
            es_sync_height := esh |}.
Proof.
  intros Hg Ht. unfold DBStatePrefixRow.pack_value, DBStatePrefixRow.unpack_value,
    PrefixRow.pack_value, PrefixRow.unpack_value.
  intros Hv. pose proof (length_struct_pack _ _ _ Hv) as Hl.
  change (calcsize _) with 98%nat in Hl. split; [done|].
  cbv zeta. rewrite decide_False by lia.
  rewrite (struct_roundtrip _ _ _ Hv).
  cbn [zip_with fitted DBStatePrefixRow.value_struct].
  by rewrite !fitted_exact by done.
Qed.

Lemma db_state_unpack_pack_value_witness :
  exists v,
    DBStatePrefixRow.pack_value (replicate 32 7) 300 9 (replicate 32 8)
      1 2 true 7 (-1) 0 5 300 = Some v /\
    length v = 98%nat /\
    DBStatePrefixRow.unpack_value v
    = Some {| genesis := replicate 32 7; height := 300; tx_count := 9;
              tip := replicate 32 8; utxo_flush_count := 1; wall_time := 2;
              catching_up := 1; db_version := 7; hist_flush_count := -1;
              comp_flush_count := 0; comp_cursor := 5; es_sync_height := 300 |}.
Proof.
  eexists. split; [reflexivity|].
  apply (db_state_unpack_pack_value (replicate 32 7) (replicate 32 8)
           300 9 1 2 7 (-1) 0 5 300 true); reflexivity.
Defined.

(** *** effective_amount: the order of the keys of a name *)

Lemma bytes_lt_irrefl a : bytes_lt a a = false.
Proof.
  induction a as [|x a IH]; [done|]. cbn [bytes_lt].
  rewrite Z.ltb_irrefl, Z.eqb_refl, IH. done.
Qed.

Lemma bytes_lt_asym a b : bytes_lt a b = true -> bytes_lt b a = false.
Proof.
  revert b. induction a as [|x a IH]; intros [|y b]; cbn [bytes_lt]; try done.
  destruct (Z.ltb_spec x y), (Z.ltb_spec y x), (Z.eqb_spec x y), (Z.eqb_spec y x);
    cbn [orb andb]; try lia; try done.
  apply IH.
Qed.

Lemma effective_amount_key_shape prefix n a t p k :
  EffectiveAmountPrefixRow.pack_key prefix n a t p = Some k ->
  exists ln,
    length_encoded_name n = Some ln /\ u64 a /\ u32 t /\ u16 p /\
    k = prefix ++ ln ++ be_bytes 8 (18446744073709551615 - a)
          ++ be_bytes 4 t ++ be_bytes 2 p ++ [].
Proof.
  unfold EffectiveAmountPrefixRow.pack_key, EffectiveAmountPrefixRow.key_struct.
  destruct (length_encoded_name n) as [ln|]; [|done].
  cbn [struct_pack pack_one pack_uint].
  destruct (to_bytes 8 _) as [x1|] eqn:H1; [|done].
  destruct (to_bytes 4 t) as [x2|] eqn:H2; [|done].
  destruct (to_bytes 2 p) as [x3|] eqn:H3; [|done].
  apply to_bytes_inv in H1 as [-> R1]. apply to_bytes_inv in H2 as [-> R2].
  apply to_bytes_inv in H3 as [-> R3].
  change (256 ^ Z.of_nat 8) with 18446744073709551616 in R1.
  change (256 ^ Z.of_nat 4) with 4294967296 in R2.
  change (256 ^ Z.of_nat 2) with 65536 in R3.
  intros Hk. apply (inj Some) in Hk as <-.
  exists ln. unfold u64, u32, u16. repeat split; lia || done.
Qed.

Lemma effective_amount_key_lt prefix ln a1 t1 p1 a2 t2 p2 :
  u64 a1 -> u32 t1 -> u16 p1 -> u64 a2 -> u32 t2 -> u16 p2 ->
  a2 < a1 \/ (a1 = a2 /\ (t1 < t2 \/ (t1 = t2 /\ p1 < p2))) ->
  bytes_lt
    (prefix ++ ln ++ be_bytes 8 (18446744073709551615 - a1)
       ++ be_bytes 4 t1 ++ be_bytes 2 p1 ++ [])
    (prefix ++ ln ++ be_bytes 8 (18446744073709551615 - a2)
       ++ be_bytes 4 t2 ++ be_bytes 2 p2 ++ []) = true.
Proof.
  unfold u64, u32, u16. intros A1 T1 P1 A2 T2 P2 Hord.
  rewrite !bytes_lt_app.
  destruct Hord as [Hlt|[-> [Hlt|[-> Hlt]]]].
  - apply be_bytes_lt. rewrite !Z.mod_small by (cbn; lia). lia.
  - rewrite bytes_lt_app. apply be_bytes_lt.
    rewrite !Z.mod_small by (cbn; lia). done.
  - rewrite !bytes_lt_app. apply be_bytes_lt.
    rewrite !Z.mod_small by (cbn; lia). done.
Qed.

(** X17. The byte order of the keys of one name in the effective_amount
    row is exactly the order by descending amount, then ascending
    transaction number, then ascending position: for two keys that
    [pack_key] accepts, the first is smaller than the second if and only if
    its amount is larger, or the amounts are equal and its pair
    (tx_num, position) is smaller. Nothing else decides the order. *)
Theorem effective_amount_key_order_exact prefix n a1 t1 p1 a2 t2 p2 k1 k2 :
  EffectiveAmountPrefixRow.pack_key prefix n a1 t1 p1 = Some k1 ->
  EffectiveAmountPrefixRow.pack_key prefix n a2 t2 p2 = Some k2 ->
  bytes_lt k1 k2 = true <->
  a2 < a1 \/ (a1 = a2 /\ (t1 < t2 \/ (t1 = t2 /\ p1 < p2))).
Proof.
  intros (ln & Hn & A1 & T1 & P1 & ->)%effective_amount_key_shape
         (ln' & Hn' & A2 & T2 & P2 & ->)%effective_amount_key_shape.
  assert (ln' = ln) as -> by congruence.
  split; [|by apply effective_amount_key_lt].
  intros Hlt.
  assert ((a2 < a1 \/ (a1 = a2 /\ (t1 < t2 \/ (t1 = t2 /\ p1 < p2)))) \/
          (a1 < a2 \/ (a2 = a1 /\ (t2 < t1 \/ (t2 = t1 /\ p2 < p1)))) \/
          (a1 = a2 /\ t1 = t2 /\ p1 = p2)) as [H|[H|(-> & -> & ->)]] by lia.
  - done.
  - apply (effective_amount_key_lt prefix ln a2 t2 p2 a1 t1 p1) in H; [|done..].
    apply bytes_lt_asym in H. congruence.
  - rewrite bytes_lt_irrefl in Hlt. done.
Qed.

Lemma effective_amount_key_order_exact_witness :
  exists k1 k2,
    EffectiveAmountPrefixRow.pack_key [68] [102; 111; 111] 50 1 7 = Some k1 /\
    EffectiveAmountPrefixRow.pack_key [68] [102; 111; 111] 50 2 0 = Some k2 /\
    (bytes_lt k1 k2 = true <->
     50 < 50 \/ (50 = 50 /\ (1 < 2 \/ (1 = 2 /\ 7 < 0)))).
Proof.
  do 2 eexists. split; [reflexivity|]. split; [reflexivity|].
  apply (effective_amount_key_order_exact [68] [102; 111; 111] 50 1 7 50 2 0);
    reflexivity.
Defined.

End PrefixesMore.

(** ** Further properties of the claim model *)

Module AttrsMore.
Import Attrs AttrsSpec.

(** *** Struct.merge: what it leaves alone *)

(** X18. [Struct.merge] touches only the keys of the modifier: a key that
    [m] does not hold has in [c] afterwards the value it had, in both
    modes, whether the call returns or raises. *)
Theorem merge_keeps_other_fields c m del k :
  m !! k = None ->
  (Struct.merge c m del).1 !! k = c !! k.
Proof.
  intros Hk. apply (merge_invariant (fun f => f !! k = c !! k)); [|done].
  intros f k' v Hk' Hf. rewrite lookup_partial_alter_ne; [done|].
  intros ->. congruence.
Qed.

Lemma merge_keeps_other_fields_witness :
  (Struct.merge {["a" := number_value 1; "b" := struct_value {["x" := null_value]}]}
     {["b" := struct_value {["x" := null_value]}]} true).1 !! "a"
  = ({["a" := number_value 1; "b" := struct_value {["x" := null_value]}]}
       : gmap string Value) !! "a".
Proof.
  apply (merge_keeps_other_fields
           {["a" := number_value 1; "b" := struct_value {["x" := null_value]}]}
           {["b" := struct_value {["x" := null_value]}]} true "a").
  reflexivity.
Defined.

Lemma field_step_delete_None v : field_step true None v = (None, None).
Proof. done. Qed.

(** X19. In delete mode [Struct.merge] adds no key: every key of [c]
    afterwards was a key of [c] before, whether the call returns or
    raises. *)
Theorem merge_delete_adds_no_field c m :
  dom (Struct.merge c m true).1 ⊆ dom c.
Proof.
  apply (merge_invariant (fun f => dom f ⊆ dom c)); [|done].
  intros f k v _ Hf x [y Hy]%elem_of_dom. apply Hf, elem_of_dom.
  destruct (decide (x = k)) as [->|Hne].
  - rewrite lookup_partial_alter_eq in Hy.
    destruct (f !! k) as [w|] eqn:Hw; [by eexists|].
    by rewrite field_step_delete_None in Hy.
  - rewrite lookup_partial_alter_ne in Hy by done. by eexists.
Qed.

(** *** Struct.merge: when it raises *)

Lemma field_step_raises del mine v :
  (field_step del mine v).2 <> None <->
  exists w, mine = Some w /\
    ((exists cs ms, w = struct_value cs /\ v = struct_value ms /\ ms <> ∅) \/
     (v = kind_unset /\ w = kind_unset)).
Proof.
  split.
  - destruct mine as [w|]; [|by destruct del].
    intros H. exists w. split; [done|]. revert H. unfold field_step.
    destruct (decide _) as [|Heq]; [done|].
    apply dec_stable in Heq.
    destruct v, w; try discriminate Heq; cbn; try done.
    + intros _. by right.
    + by destruct (decide _).
    + by destruct (decide _).
    + by destruct (decide _).
    + destruct (decide _) as [Hlt|]; [|by destruct del].
      intros _. left. eexists _, _. repeat split.
      intros ->. rewrite map_size_empty in Hlt. lia.
    + by destruct (decide _); [|destruct del].
  - intros (w & -> & [(cs & ms & -> & -> & Hms)|[-> ->]]).
    + by rewrite field_step_nested.
    + done.
Qed.

(** X20. [Struct.merge] raises exactly when some key holds, on both
    sides, a map with a non-empty modifier map (the nested call is given a
    bare protobuf message, AttributeError) or a value with no kind set
    (the attribute name is None, TypeError). In every other case it
    returns, in both modes. *)
Theorem merge_raises_iff c m del :
  (Struct.merge c m del).2 <> None <->
  exists k v w, m !! k = Some v /\ c !! k = Some w /\
    ((exists cs ms, w = struct_value cs /\ v = struct_value ms /\ ms <> ∅) \/
     (v = kind_unset /\ w = kind_unset)).
Proof.
  split.
  - intros Hr.
    assert (forall (k : string) v,
               Decision ((field_step del (c !! k) v).2 = None)) as Hdec.
    { intros k v. destruct (field_step del (c !! k) v).2; [right|left]; done. }
    destruct (decide (map_Forall
                        (fun k v => (field_step del (c !! k) v).2 = None) m))
      as [Hall|Hex].
    + destruct (merge_spec c m del) as (f' & Hm & _); [exact Hall|].
      by rewrite Hm in Hr.
    + apply map_not_Forall in Hex; [|apply _].
      destruct Hex as (k & v & Hk & Hv).
      apply field_step_raises in Hv as (w & Hw & Hcase).
      by exists k, v, w.
  - intros (k & v & w & Hk & Hw & Hcase).
    apply (merge_raises c m del k v Hk).
    apply field_step_raises. by exists w.
Qed.

(** *** Struct.merge: list fields *)

Lemma merge_returns_field c m del k v :
  (Struct.merge c m del).2 = None -> m !! k = Some v ->
  (Struct.merge c m del).1 !! k = (field_step del (c !! k) v).1.
Proof.
  intros Hr Hk.
  destruct (merge_spec c m del) as (f' & Hm & Hf).
  { intros k' v' Hk'. destruct (field_step del (c !! k') v').2 eqn:He; [|done].
    destruct (merge_raises c m del k' v' Hk'); [by rewrite He|done]. }
  by rewrite Hm, Hf, Hk.
Qed.

Lemma foldl_append ws vs : foldl (merge_list_item false) ws vs = ws ++ vs.
Proof.
  revert ws. induction vs as [|o vs IH]; intros ws; cbn [foldl].
  - by rewrite app_nil_r.
  - rewrite IH. unfold merge_list_item.
    rewrite <- app_assoc. by destruct (find_equal o ws).
Qed.

(** X21. In add mode a list of the modifier is appended to the list that
    [c] holds under the same key, item by item and in order, also the
    items that the list already has: when [merge] returns, the field is
    the concatenation of the two lists. *)
Theorem merge_add_appends_list c m k ws vs :
  (Struct.merge c m false).2 = None ->
  c !! k = Some (list_value ws) -> m !! k = Some (list_value vs) ->
  (Struct.merge c m false).1 !! k = Some (list_value (ws ++ vs)).
Proof.
  intros Hr Hc Hm. rewrite (merge_returns_field _ _ _ _ _ Hr Hm), Hc.
  unfold field_step. cbn [WhichOneof]. rewrite decide_False by (by intros []).
  cbn [list_values]. destruct (decide _) as [|Hz]; cbn [fst].
  - by rewrite foldl_append.
  - destruct vs; [by rewrite app_nil_r|cbn in Hz; lia].
Qed.

Lemma merge_add_appends_list_witness :
  (Struct.merge {["t" := list_value [string_value "x"; string_value "y"]]}
     {["t" := list_value [string_value "x"]]} false).1 !! "t"
  = Some (list_value ([string_value "x"; string_value "y"] ++ [string_value "x"])).
Proof.
  apply (merge_add_appends_list
           {["t" := list_value [string_value "x"; string_value "y"]]}
           {["t" := list_value [string_value "x"]]} "t");
    [vm_compute; reflexivity|reflexivity|reflexivity].
Defined.

Lemma find_equal_None o values :
  find_equal o values = None -> o ∉ values.
Proof.
  induction values as [|v values IH]; cbn [find_equal]; [by intros _ ?%elem_of_nil|].
  destruct (Value_eqb v o) eqn:Hvo; [done|].
  destruct (find_equal o values); [done|]. intros _ [->|?]%elem_of_cons.
  - assert (Value_eqb v v = true) by by apply Value_eqb_eq. congruence.
  - by apply IH.
Qed.

Lemma delete_item_NoDup (ws : list Value) o :
  NoDup ws ->
  let rs := match find_equal o ws with Some i => delete i ws | None => ws end in
  NoDup rs /\ forall x, x ∈ rs <-> x ∈ ws /\ x <> o.
Proof.
  intros Hnd. destruct (find_equal o ws) as [i|] eqn:Hf; cbv zeta.
  - apply find_equal_Some in Hf as [Hi _].
    pose proof (take_drop_middle _ _ _ Hi) as Hsplit.
    rewrite <- Hsplit in Hnd. rewrite delete_take_drop.
    apply NoDup_app in Hnd as (N1 & N2 & N3).
    apply NoDup_cons in N3 as [N3 N4].
    split.
    + apply NoDup_app. split; [done|]. split; [|done].
      intros x Hx Hx'. apply (N2 x Hx). by right.
    + intros x.
      assert (x ∈ ws <-> x ∈ take i ws \/ x = o \/ x ∈ drop (S i) ws) as ->.
      { rewrite <- Hsplit at 1. by rewrite elem_of_app, elem_of_cons. }
      rewrite elem_of_app. split.
      * intros [Hx|Hx]; (split; [tauto|]); intros ->.
        -- apply (N2 o Hx). by left.
        -- done.
      * intros [[Hx|[->|Hx]] Hne]; tauto.
  - apply find_equal_None in Hf. split; [done|].
    intros x. split; [|tauto]. intros Hx. split; [done|]. by intros ->.
Qed.

Lemma foldl_delete_NoDup ws vs :
  NoDup ws ->
  NoDup (foldl (merge_list_item true) ws vs) /\
  forall x, x ∈ foldl (merge_list_item true) ws vs <-> x ∈ ws /\ x ∉ vs.
Proof.
  revert ws. induction vs as [|o vs IH]; intros ws Hnd; cbn [foldl].
  - split; [done|]. intros x. split; [|tauto]. intros ?. split; [done|].
    by intros ?%elem_of_nil.
  - destruct (delete_item_NoDup ws o Hnd) as [Hnd' Hin]. cbv zeta in *.
    unfold merge_list_item at 2. cbv zeta.
    destruct (IH _ Hnd') as [Hnd'' Hin'].
    split; [done|]. intros x. rewrite Hin', Hin, elem_of_cons.
    split; [intros [[? ?] ?]|intros [? ?]]; (split; [tauto|]).
    + intros [->|?]; tauto.
    + intros ?. tauto.
Qed.

(** X22. In delete mode the items of a list of the modifier are removed
    from the list that [c] holds under the same key: when that list has no
    repeated item and [merge] returns, the field is a list without
    repetition whose items are those of the old list that the modifier
    does not name. The field stays even when its list becomes empty. *)
Theorem merge_delete_removes_items c m k ws vs :
  (Struct.merge c m true).2 = None ->
  c !! k = Some (list_value ws) -> m !! k = Some (list_value vs) ->
  vs <> [] -> NoDup ws ->
  exists rs,
    (Struct.merge c m true).1 !! k = Some (list_value rs) /\
    NoDup rs /\ forall x, x ∈ rs <-> x ∈ ws /\ x ∉ vs.
Proof.
  intros Hr Hc Hm Hvs Hnd. rewrite (merge_returns_field _ _ _ _ _ Hr Hm), Hc.
  unfold field_step. cbn [WhichOneof]. rewrite decide_False by (by intros []).
  cbn [list_values]. rewrite decide_True by (destruct vs; [done|cbn; lia]).
  cbn [fst]. eexists. split; [done|]. by apply foldl_delete_NoDup.
Qed.

Lemma merge_delete_removes_items_witness :
  exists rs,
    (Struct.merge {["t" := list_value [string_value "x"; string_value "y"]]}
       {["t" := list_value [string_value "x"; string_value "z"]]} true).1 !! "t"
    = Some (list_value rs) /\
    NoDup rs /\
    forall x, x ∈ rs <->
              x ∈ [string_value "x"; string_value "y"] /\
              x ∉ [string_value "x"; string_value "z"].
Proof.
  apply (merge_delete_removes_items
           {["t" := list_value [string_value "x"; string_value "y"]]}
           {["t" := list_value [string_value "x"; string_value "z"]]} "t");
    [vm_compute; reflexivity|reflexivity|reflexivity|discriminate|].
  repeat constructor; rewrite ?elem_of_cons, ?elem_of_nil; intros H;
    repeat destruct H as [H|H]; discriminate || done.
Defined.

(** *** StreamExtensionMap.merge *)

Lemma ext_merge_item_frame del self schema ext s :
  s <> schema ->
  (StreamExtensionMap.merge_item del self schema ext).1 !! s = self !! s.
Proof.
  intros Hne. unfold StreamExtensionMap.merge_item. cbv zeta.
  destruct (del && _).
  - destruct (self !! schema); cbn [fst]; [|done]. by rewrite lookup_delete_ne.
  - destruct (StreamExtension.merge _ _ _) as [x o]. cbn [fst].
    by rewrite lookup_insert_ne.
Qed.

Lemma ext_merge_item_local del self self' schema ext :
  self !! schema = self' !! schema ->
  (StreamExtensionMap.merge_item del self schema ext).1 !! schema
  = (StreamExtensionMap.merge_item del self' schema ext).1 !! schema /\
  (StreamExtensionMap.merge_item del self schema ext).2
  = (StreamExtensionMap.merge_item del self' schema ext).2.
Proof.
  intros Heq. unfold StreamExtensionMap.merge_item. cbv zeta. rewrite <- Heq.
  destruct (del && _).
  - destruct (self !! schema) eqn:Hs; cbn [fst snd]; [|by rewrite <- Heq].
    by rewrite !lookup_delete_eq.
  - destruct (StreamExtension.merge _ _ _) as [x o]. cbn [fst snd].
    by rewrite !lookup_insert_eq.
Qed.

Lemma ext_merge_items_frame del items self s :
  s ∉ items.*1 ->
  (StreamExtensionMap.merge_items del self items).1 !! s = self !! s.
Proof.
  revert self. induction items as [|[s0 e0] items IH]; intros self Hs; [done|].
  cbn [fmap list_fmap fst] in Hs. apply not_elem_of_cons in Hs as [Hne Hs].
  cbn [StreamExtensionMap.merge_items].
  pose proof (ext_merge_item_frame del self s0 e0 s Hne) as Hf.
  destruct (StreamExtensionMap.merge_item del self s0 e0) as [m1 [x|]];
    cbn [fst] in *; [done|].
  by rewrite IH.
Qed.

Lemma ext_merge_items_spec del items :
  NoDup items.*1 ->
  forall self,
    (StreamExtensionMap.merge_items del self items).2 = None ->
    forall s ext, (s, ext) ∈ items ->
      (StreamExtensionMap.merge_items del self items).1 !! s
      = (StreamExtensionMap.merge_item del self s ext).1 !! s /\
      (StreamExtensionMap.merge_item del self s ext).2 = None.
Proof.
  induction items as [|[s0 e0] items IH]; intros Hnd self Hr s ext Hin.
  { by apply elem_of_nil in Hin. }
  cbn [fmap list_fmap fst] in Hnd. apply NoDup_cons in Hnd as [Hs0 Hnd].
  cbn [StreamExtensionMap.merge_items] in *.
  destruct (StreamExtensionMap.merge_item del self s0 e0) as [m1 o1] eqn:H1.
  destruct o1 as [x|]; [done|].
  apply elem_of_cons in Hin as [[= -> ->]|Hin].
  - rewrite H1. cbn [fst snd]. split; [|done].
    by apply ext_merge_items_frame.
  - assert (s <> s0) as Hne.
    { intros ->. apply Hs0. apply list_elem_of_fmap. by exists (s0, ext). }
    destruct (IH Hnd m1 Hr s ext Hin) as [Hv Ho].
    assert (m1 !! s = self !! s) as Hm1.
    { pose proof (ext_merge_item_frame del self s0 e0 s Hne) as Hf.
      by rewrite H1 in Hf. }
    destruct (ext_merge_item_local del m1 self s ext Hm1) as [L1 L2].
    by rewrite Hv, L1, <- L2.
Qed.

Lemma ext_merge_items_raises del items :
  NoDup items.*1 ->
  forall self s ext, (s, ext) ∈ items ->
    (StreamExtensionMap.merge_item del self s ext).2 <> None ->
    (StreamExtensionMap.merge_items del self items).2 <> None.
Proof.
  intros Hnd self s ext Hin Hraise Hr.
  by destruct (ext_merge_items_spec del items Hnd self Hr s ext Hin) as [_ ?].
Qed.

(** X23. [StreamExtensionMap.merge] touches only the schemas of the
    modifier: the entry of a schema that [exts] does not hold is afterwards
    what it was, or absent as it was, in both modes, whether the call
    returns or raises. *)
Theorem extension_map_merge_keeps_other_schemas self exts del s :
  exts !! s = None ->
  (StreamExtensionMap.merge self exts del).1 !! s = self !! s.
Proof.
  intros Hs. apply ext_merge_items_frame.
  intros [[s' ext] [-> Hin]]%list_elem_of_fmap.
  apply elem_of_map_to_list in Hin. cbn in Hs. congruence.
Qed.

Lemma extension_map_merge_keeps_other_schemas_witness :
  (StreamExtensionMap.merge
     {["a" := {| struct_ := {["x" := number_value 1]} |}]}
     {["b" := {| struct_ := ∅ |}]} true).1 !! "a"
  = ({["a" := {| struct_ := {["x" := number_value 1]} |}]}
       : gmap string ExtensionMessage) !! "a".
Proof.
  apply (extension_map_merge_keeps_other_schemas
           {["a" := {| struct_ := {["x" := number_value 1]} |}]}
           {["b" := {| struct_ := ∅ |}]} true "a").
  reflexivity.
Defined.

Lemma merge_delete_from_empty m : Struct.merge ∅ m true = (∅, None).
Proof.
  destruct (merge_spec ∅ m true) as (f' & Hm & Hf).
  { intros k v _. by rewrite lookup_empty. }
  rewrite Hm. f_equal. apply map_eq. intros k. rewrite Hf, lookup_empty.
  by destruct (m !! k).
Qed.

(** X24. When [StreamExtensionMap.merge] returns, each schema of the
    modifier has been handled on its own. In delete mode an extension
    with no field removes the entry of its schema. Otherwise the entry
    holds the struct of the old entry (the empty struct if there was
    none) merged by [Struct.merge] with the struct of the modifier; so
    deleting fields under a schema that the map lacks leaves an entry with
    an empty struct behind. *)
Theorem extension_map_merge_per_schema self exts del s ext :
  (StreamExtensionMap.merge self exts del).2 = None ->
  exts !! s = Some ext ->
  let after := (StreamExtensionMap.merge self exts del).1 !! s in
  (del = true -> struct_ ext = ∅ -> after = None) /\
  (del = false \/ struct_ ext <> ∅ ->
     after = Some {| struct_ :=
                       (Struct.merge
                          (struct_ (default {| struct_ := ∅ |} (self !! s)))
                          (struct_ ext) del).1 |}) /\
  (del = true -> struct_ ext <> ∅ -> self !! s = None ->
     after = Some {| struct_ := ∅ |}).
Proof.
  intros Hr Hs. cbv zeta.
  destruct (ext_merge_items_spec del (map_to_list exts)
              (NoDup_fst_map_to_list exts) self Hr s ext) as [Hv Ho].
  { by apply elem_of_map_to_list. }
  unfold StreamExtensionMap.merge. rewrite Hv. clear Hv Hr.
  unfold StreamExtensionMap.merge_item in *. cbv zeta in *.
  assert (del = false \/ struct_ ext <> ∅ ->
          (del && bool_decide (size (struct_ ext) = 0%nat)) = false) as Hno.
  { intros [->|Hne]; [done|]. apply andb_false_iff. right.
    apply bool_decide_eq_false. by intros ?%map_size_empty_inv. }
  split; [|split].
  - intros -> He.
    assert ((true && bool_decide (size (struct_ ext) = 0%nat)) = true) as Hyes.
    { by rewrite He, map_size_empty. }
    rewrite Hyes in *.
    destruct (self !! s); cbn [fst snd] in *; [|done].
    by rewrite lookup_delete_eq.
  - intros Hcase. rewrite (Hno Hcase) in *.
    unfold StreamExtension.merge.
    destruct (Struct.merge _ _ _) as [x o]. cbn [fst].
    by rewrite lookup_insert_eq.
  - intros -> Hne Hself. rewrite (Hno (or_intror Hne)), Hself in *.
    unfold StreamExtension.merge. cbn [default struct_].
    rewrite merge_delete_from_empty. cbn [fst]. by rewrite lookup_insert_eq.
Qed.

Lemma extension_map_merge_per_schema_witness :
  let self : gmap string ExtensionMessage :=
    {["a" := {| struct_ := {["x" := number_value 1]} |}]} in
  let exts : gmap string ExtensionMessage :=
    {["b" := {| struct_ := {["y" := number_value 2]} |}]} in
  let ext := {| struct_ := {["y" := number_value 2]} |} in
  let after := (StreamExtensionMap.merge self exts true).1 !! "b" in
  (true = true -> struct_ ext = ∅ -> after = None) /\
  (true = false \/ struct_ ext <> ∅ ->
     after = Some {| struct_ :=
                       (Struct.merge
                          (struct_ (default {| struct_ := ∅ |} (self !! "b")))
                          (struct_ ext) true).1 |}) /\
  (true = true -> struct_ ext <> ∅ -> self !! "b" = None ->
     after = Some {| struct_ := ∅ |}).
Proof.
  apply (extension_map_merge_per_schema
           {["a" := {| struct_ := {["x" := number_value 1]} |}]}
           {["b" := {| struct_ := {["y" := number_value 2]} |}]} true "b"
           {| struct_ := {["y" := number_value 2]} |});
    [vm_compute; reflexivity|reflexivity].
Defined.

(** X25. [StreamExtensionMap.merge] raises exactly when, for some schema
    of the modifier, either the mode is delete, the extension has no field
    and the map has no entry for the schema (KeyError from [del]), or the
    [Struct.merge] of the entry's struct with the extension's struct
    raises. *)
Theorem extension_map_merge_raises_iff self exts del :
  (StreamExtensionMap.merge self exts del).2 <> None <->
  exists s ext, exts !! s = Some ext /\
    ((del = true /\ struct_ ext = ∅ /\ self !! s = None) \/
     ((del = false \/ struct_ ext <> ∅) /\
      (Struct.merge (struct_ (default {| struct_ := ∅ |} (self !! s)))
         (struct_ ext) del).2 <> None)).
Proof.
  assert (forall s ext,
    (StreamExtensionMap.merge_item del self s ext).2 <> None <->
    ((del = true /\ struct_ ext = ∅ /\ self !! s = None) \/
     ((del = false \/ struct_ ext <> ∅) /\
      (Struct.merge (struct_ (default {| struct_ := ∅ |} (self !! s)))
         (struct_ ext) del).2 <> None))) as Hitem.
  { intros s ext. unfold StreamExtensionMap.merge_item. cbv zeta.
    destruct del; cbn [andb].
    - destruct (bool_decide (size (struct_ ext) = 0%nat)) eqn:Hsz.
      + apply bool_decide_eq_true, map_size_empty_inv in Hsz.
        destruct (self !! s); cbn [snd].
        * split; [done|]. intros [(_ & _ & ?)|[[?|?] _]]; done.
        * split; [|done]. intros _. by left.
      + apply bool_decide_eq_false in Hsz.
        assert (struct_ ext <> ∅) as Hne.
        { intros He. apply Hsz. by rewrite He, map_size_empty. }
        unfold StreamExtension.merge.
        destruct (Struct.merge _ _ _) as [x o]. cbn [snd].
        split; [intros ?; right; by split; [right|]|].
        intros [(_ & ? & _)|[_ ?]]; done.
    - unfold StreamExtension.merge.
      destruct (Struct.merge _ _ _) as [x o]. cbn [snd].
      split; [intros ?; right; by split; [left|]|].
      intros [(? & _)|[_ ?]]; done. }
  split.
  - intros Hr.
    assert (forall (s : string) (ext : ExtensionMessage),
               Decision ((StreamExtensionMap.merge_item del self s ext).2 = None))
      as Hdec.
    { intros s ext. destruct (StreamExtensionMap.merge_item del self s ext).2;
        [right|left]; done. }
    destruct (decide (map_Forall
                (fun s ext => (StreamExtensionMap.merge_item del self s ext).2 = None)
                exts)) as [Hall|Hex].
    + exfalso. apply Hr. unfold StreamExtensionMap.merge.
      assert (forall items self',
                 (forall s ext, (s, ext) ∈ items -> exts !! s = Some ext) ->
                 NoDup items.*1 ->
                 (forall s, s ∈ items.*1 -> self' !! s = self !! s) ->
                 (StreamExtensionMap.merge_items del self' items).2 = None) as Hgen.
      { induction items as [|[s0 e0] items IH]; intros self' Hsub Hnd Hsame; [done|].
        cbn [fmap list_fmap fst] in Hnd, Hsame.
        apply NoDup_cons in Hnd as [Hs0 Hnd].
        cbn [StreamExtensionMap.merge_items].
        destruct (ext_merge_item_local del self' self s0 e0) as [_ L2].
        { apply Hsame. by left. }
        pose proof (Hall s0 e0 (Hsub _ _ ltac:(by left))) as H0.
        cbn in H0. rewrite <- L2 in H0.
        destruct (StreamExtensionMap.merge_item del self' s0 e0) as [m1 o1] eqn:H1.
        cbn [snd] in H0. subst o1.
        apply IH; [|done|].
        - intros s ext Hin. apply Hsub. by right.
        - intros s Hin.
          assert (s <> s0) as Hne by (by intros ->).
          pose proof (ext_merge_item_frame del self' s0 e0 s Hne) as Hf.
          rewrite H1 in Hf. cbn [fst] in Hf. rewrite Hf. apply Hsame. by right. }
      apply Hgen; [|apply NoDup_fst_map_to_list|done].
      intros s ext Hin. by apply elem_of_map_to_list.
    + apply map_not_Forall in Hex; [|apply _].
      destruct Hex as (s & ext & Hs & Hraise).
      exists s, ext. split; [done|]. by apply Hitem.
  - intros (s & ext & Hs & Hcase).
    apply (ext_merge_items_raises del (map_to_list exts)
             (NoDup_fst_map_to_list exts) self s ext).
    + by apply elem_of_map_to_list.
    + by apply Hitem.
Qed.

(** *** Fees in LBC and BTC *)

Lemma units_of_amount a :
  0 < coef a < 10 ^ 20 ->
  dec_int (dec_mul a Fee.DEWIES) = floor_units a /\ 0 <= floor_units a.
Proof.
  intros Hc. unfold dec_mul, Fee.DEWIES. change COIN with 100000000.
  cbn [coef exp]. rewrite Z.add_0_r.
  change (10 ^ 20) with 100000000000000000000 in Hc.
  rewrite fix_small
    by (change (10 ^ 28) with 10000000000000000000000000000; lia).
  unfold dec_int, floor_units. cbn [coef exp].
  change 100000000 with (10 ^ 8).
  destruct (Z.leb_spec 0 (exp a)) as [He|He].
  - destruct (Z.leb_spec 0 (exp a + 8)); [|lia].
    rewrite Z.pow_add_r by lia.
    split; [ring|]. apply Z.mul_nonneg_nonneg; [lia|].
    apply Z.mul_nonneg_nonneg; apply Z.pow_nonneg; lia.
  - assert (0 < 10 ^ (- exp a)) by (apply Z.pow_pos_nonneg; lia).
    assert (0 <= coef a * 10 ^ 8)
      by (apply Z.mul_nonneg_nonneg; [lia|by apply Z.pow_nonneg]).
    rewrite Z.quot_div_nonneg by done.
    destruct (Z.leb_spec 0 (exp a + 8)).
    + assert (0 < 10 ^ (exp a + 8)) by (apply Z.pow_pos_nonneg; lia).
      replace 8 with ((exp a + 8) + (- exp a)) at 1 by lia.
      rewrite Z.pow_add_r by lia. rewrite Z.mul_assoc, Z.div_mul by lia.
      split; [done|]. apply Z.mul_nonneg_nonneg; lia.
    + assert (0 < 10 ^ (- (exp a + 8))) by (apply Z.pow_pos_nonneg; lia).
      replace (- exp a) with (- (exp a + 8) + 8) by lia.
      rewrite Z.pow_add_r by lia.
      rewrite Z.div_mul_cancel_r by (try lia; by apply Z.pow_nonzero).
      split; [done|]. apply Z.div_pos; lia.
Qed.

Section Fees.
Variable Base58_decode : string -> exn + Py.bytes.

(** X26. A fee in LBC or BTC is rounded down to the whole dewy or
    satoshi, where a fee in USD is rounded up to the cent: for a positive
    decimal amount of at most 20 digits whose count of units fits the
    unsigned 64-bit amount field, [update(amount=a, currency='lbc')]
    returns, stores [floor(a * 10^8)] with the currency LBC, and [dewies]
    reads that count back; the same holds for 'btc' and [satoshis]. *)
Theorem lbc_btc_fee_rounds_down (a : Decimal) (m : FeeMessage) :
  0 < coef a < 10 ^ 20 ->
  floor_units a <= 18446744073709551615 ->
  (let r := Fee.update Base58_decode None (Some "lbc") (Some a) m in
   r.2 = None /\ fee_amount r.1 = floor_units a /\ fee_currency r.1 = LBC /\
   fee_address r.1 = fee_address m /\ Fee.dewies r.1 = inr (floor_units a)) /\
  (let r := Fee.update Base58_decode None (Some "btc") (Some a) m in
   r.2 = None /\ fee_amount r.1 = floor_units a /\ fee_currency r.1 = BTC /\
   fee_address r.1 = fee_address m /\ Fee.satoshis r.1 = inr (floor_units a)).
Proof.
  intros Hc Hfit. destruct (units_of_amount a Hc) as [Hu Hpos].
  split.
  - assert (Fee.update Base58_decode None (Some "lbc") (Some a) m
            = ({| fee_currency := LBC; fee_address := fee_address m;
                  fee_amount := floor_units a |}, None)) as ->.
    { unfold Fee.update.
      destruct (Z.eqb_spec (coef a) 0); [lia|]. cbn [negb].
      change (lower _) with "lbc".
      change (bool_decide ("lbc" = "")) with false.
      change (bool_decide ("lbc" = "lbc")) with true. cbv iota.
      unfold Fee.set_lbc. rewrite Hu.
      unfold Fee.set_dewies, Fee.set_message_amount.
      destruct (Z.leb_spec 0 (floor_units a)); [|lia].
      by destruct (Z.leb_spec (floor_units a) 18446744073709551615); [|lia]. }
    cbv zeta. cbn [fst snd fee_amount fee_currency fee_address].
    repeat (split; [done|]). unfold Fee.dewies. cbn [fee_currency fee_amount].
    by rewrite decide_False by (intros H; by apply H).
  - assert (Fee.update Base58_decode None (Some "btc") (Some a) m
            = ({| fee_currency := BTC; fee_address := fee_address m;
                  fee_amount := floor_units a |}, None)) as ->.
    { unfold Fee.update.
      destruct (Z.eqb_spec (coef a) 0); [lia|]. cbn [negb].
      change (lower _) with "btc".
      change (bool_decide ("btc" = "")) with false.
      change (bool_decide ("btc" = "lbc")) with false.
      change (bool_decide ("btc" = "btc")) with true. cbv iota.
      unfold Fee.set_btc. change Fee.SATOSHIES with Fee.DEWIES. rewrite Hu.
      unfold Fee.set_satoshis, Fee.set_message_amount.
      destruct (Z.leb_spec 0 (floor_units a)); [|lia].
      by destruct (Z.leb_spec (floor_units a) 18446744073709551615); [|lia]. }
    cbv zeta. cbn [fst snd fee_amount fee_currency fee_address].
    repeat (split; [done|]). unfold Fee.satoshis. cbn [fee_currency fee_amount].
    by rewrite decide_False by (intros H; by apply H).
Qed.

(** X27. [Fee.update] refuses, with an exception and the message left
    as it was: a currency without an amount; an amount when neither the
    call nor the message names a currency; and an address when there is
    no amount and the message has no currency. An amount equal to zero
    counts as no amount. *)
Theorem fee_update_rejects address currency amount (m : FeeMessage) :
  (~ amount_given amount -> Fee.truthy currency = true ->
   Fee.update Base58_decode address currency amount m = (m, Some Exception_)) /\
  (amount_given amount -> Fee.truthy currency = false ->
   fee_currency m = UNKNOWN_CURRENCY ->
   Fee.update Base58_decode address currency amount m = (m, Some Exception_)) /\
  (~ amount_given amount -> Fee.truthy currency = false ->
   Fee.truthy address = true -> fee_currency m = UNKNOWN_CURRENCY ->
   Fee.update Base58_decode address currency amount m = (m, Some Exception_)).
Proof.
  unfold amount_given, Fee.update. repeat split.
  - intros Hno Hcur. destruct amount as [a|]; [|by rewrite Hcur].
    destruct (Z.eqb_spec (coef a) 0) as [|Hnz]; cbn [negb]; [by rewrite Hcur|].
    destruct Hno. by exists a.
  - intros (a & -> & Hnz) Hcur Hm.
    destruct (Z.eqb_spec (coef a) 0); [done|]. cbn [negb].
    unfold Fee.or_, Fee.currency. rewrite Hcur, Hm. by cbn.
  - intros Hno Hcur Haddr Hm.
    destruct amount as [a|].
    + destruct (Z.eqb_spec (coef a) 0) as [|Hnz]; cbn [negb].
      2:{ destruct Hno. by exists a. }
      rewrite Hcur. destruct address as [ad|]; [|done].
      rewrite Haddr. unfold Fee.currency. by rewrite Hm.
    + rewrite Hcur. destruct address as [ad|]; [|done].
      rewrite Haddr. unfold Fee.currency. by rewrite Hm.
Qed.
End Fees.

Lemma lbc_btc_fee_rounds_down_witness :
  let a := {| coef := 12345678912; exp := -10 |} in
  let m := {| fee_currency := UNKNOWN_CURRENCY; fee_address := []; fee_amount := 0 |} in
  (let r := Fee.update (fun _ => inl ValueError) None (Some "lbc") (Some a) m in
   r.2 = None /\ fee_amount r.1 = 123456789 /\ fee_currency r.1 = LBC /\
   fee_address r.1 = fee_address m /\ Fee.dewies r.1 = inr 123456789) /\
  (let r := Fee.update (fun _ => inl ValueError) None (Some "btc") (Some a) m in
   r.2 = None /\ fee_amount r.1 = 123456789 /\ fee_currency r.1 = BTC /\
   fee_address r.1 = fee_address m /\ Fee.satoshis r.1 = inr 123456789).
Proof.
  intros a m.
  apply (lbc_btc_fee_rounds_down (fun _ => inl ValueError) a m).
  - cbn. lia.
  - vm_compute. discriminate.
Defined.

Lemma fee_update_rejects_witness :
  let m := {| fee_currency := UNKNOWN_CURRENCY; fee_address := []; fee_amount := 0 |} in
  Fee.update (fun _ => inl ValueError) None (Some "usd") None m
  = (m, Some Exception_).
Proof.
  intros m.
  apply (proj1 (fee_update_rejects (fun _ => inl ValueError)
                  None (Some "usd") None m)).
  - by intros (a & ? & _).
  - reflexivity.
Defined.

End AttrsMore.
